(** * wimlib: the security-descriptor table of a WIM image

    A shallow embedding of [src/src/security.c]: [read_security_data],
    [write_security_data] and [free_security_data], over a block-structured
    heap, together with the properties of the codec and of the
    reference-counted release. *)

From Stdlib Require Import ZArith Lia List.
From Stdlib Require Import Init.Byte.
From stdpp Require Import base option list gmap fin_maps.

Local Open Scope Z_scope.

(** ** Machine integers *)

Definition U32_MODULUS : Z := 2 ^ 32.
Definition U64_MODULUS : Z := 2 ^ 64.

(** The cast [(u32)x]. *)
Definition to_u32 (x : Z) : Z := x mod U32_MODULUS.
(** Addition on [u64], with its wrap-around. *)
Definition u64_add (x y : Z) : Z := (x + y) mod U64_MODULUS.

Definition is_u32 (x : Z) : Prop := 0 <= x < U32_MODULUS.

(** ** Bytes and little-endian integers *)

Definition byte_to_Z (b : byte) : Z := Z.of_N (Byte.to_N b).

Definition byte_of_Z (z : Z) : byte :=
  match Byte.of_N (Z.to_N (z mod 256)) with
  | Some b => b
  | None => x00
  end.

(** The value of a little-endian byte string. *)
Fixpoint le_to_Z (bs : list byte) : Z :=
  match bs with
  | [] => 0
  | b :: bs' => byte_to_Z b + 256 * le_to_Z bs'
  end.

(** The [n] low bytes of [z], least significant first. *)
Fixpoint Z_to_le (n : nat) (z : Z) : list byte :=
  match n with
  | O => []
  | S n' => byte_of_Z z :: Z_to_le n' (z / 256)
  end.

(** A little-endian array of [u64]: what [array_to_le64] makes of the bytes
    that [get_bytes] copied into [sd->sizes]. *)
Fixpoint le64_array (n : nat) (bs : list byte) : list Z :=
  match n with
  | O => []
  | S n' => le_to_Z (take 8 bs) :: le64_array n' (drop 8 bs)
  end.

Definition sum_sizes (l : list Z) : Z := foldr Z.add 0 l.

(** ** The heap *)

Definition loc := nat.
(** A C pointer: [None] is [NULL]. *)
Definition ptr := option loc.

(** Modelled from the spec: [struct wim_security_data] is declared in
    security.h, which is not in the sources.  Its fields are those that
    security.c reads and writes, with the types of section 3 of the
    specification. *)
Record wim_security_data := Build_wim_security_data {
  total_length : Z;   (* u32 *)
  num_entries : Z;    (* u32 *)
  sizes : ptr;        (* u64 * *)
  descriptors : ptr;  (* u8 ** *)
  refcnt : Z          (* u32 *)
}.

(** What a live block holds. *)
Inductive block :=
| BUninit (size : Z)                 (* fresh from malloc *)
| BSecData (s : wim_security_data)   (* a struct wim_security_data *)
| BU64s (a : list Z)                 (* u64[] *)
| BPtrs (a : list ptr)               (* u8*[] *)
| BBytes (a : list byte)             (* u8[] *)
| BSdPtr (p : ptr).                  (* a struct wim_security_data * variable *)

Abbreviation heap := (gmap loc block).

(** Modelled from the spec: the error codes are declared in wimlib.h, which is
    not in the sources; these are the three that [read_security_data]
    returns, [WIMLIB_ERR_SUCCESS] being 0. *)
Inductive wimlib_error_code :=
| WIMLIB_ERR_SUCCESS
| WIMLIB_ERR_INVALID_RESOURCE_SIZE
| WIMLIB_ERR_NOMEM.

(** ** Computations on the heap

    A C function either returns with a final heap, or its behaviour is
    undefined (a load or store outside a live block, a read past the end of the
    input buffer, a free of a dead block), or a [wimlib_assert] fails. *)

Inductive outcome (A : Type) :=
| Done (a : A) (h : heap)
| Undefined
| AssertionFailed.
Arguments Done {A} a h.
Arguments Undefined {A}.
Arguments AssertionFailed {A}.

Definition M (A : Type) : Type := heap -> outcome A.

Definition ret {A} (a : A) : M A := fun h => Done a h.

Definition bind {A B} (c : M A) (k : A -> M B) : M B :=
  fun h =>
    match c h with
    | Done a h' => k a h'
    | Undefined => Undefined
    | AssertionFailed => AssertionFailed
    end.

Notation "'do' x <- c ; k" := (bind c (fun x => k))
  (at level 10, x name, c at level 100, k at level 200).
Notation "c ;;; k" := (bind c (fun _ => k))
  (at level 100, k at level 200, right associativity).

(** Modelled from the spec: [wimlib_assert] is a macro of a header that is not
    in the sources; a failed assertion is a programming error (section 7). *)
Definition wimlib_assert (b : bool) : M unit :=
  fun h => if b then Done tt h else AssertionFailed.

(** Loads.  Array indices are values of type [u32], never negative. *)
Definition load_sd (sd : loc) : M wim_security_data :=
  fun h => match h !! sd with Some (BSecData s) => Done s h | _ => Undefined end.

Definition load_u64 (a : ptr) (i : Z) : M Z :=
  fun h =>
    match a with
    | Some l =>
        match h !! l with
        | Some (BU64s v) =>
            match v !! Z.to_nat i with Some x => Done x h | None => Undefined end
        | _ => Undefined
        end
    | None => Undefined
    end.

Definition load_ptr (a : ptr) (i : Z) : M ptr :=
  fun h =>
    match a with
    | Some l =>
        match h !! l with
        | Some (BPtrs v) =>
            match v !! Z.to_nat i with Some x => Done x h | None => Undefined end
        | _ => Undefined
        end
    | None => Undefined
    end.

(** [n] bytes of a byte block. *)
Definition load_bytes (a : ptr) (n : Z) : M (list byte) :=
  fun h =>
    match a with
    | Some l =>
        match h !! l with
        | Some (BBytes v) =>
            if (0 <=? n) && (n <=? Z.of_nat (length v))
            then Done (take (Z.to_nat n) v) h
            else Undefined
        | _ => Undefined
        end
    | None => Undefined
    end.

(** Stores: the block must be live. *)
Definition store (l : loc) (b : block) : M unit :=
  fun h => match h !! l with Some _ => Done tt (<[l:=b]> h) | None => Undefined end.

Definition store_ptr (a : ptr) (i : Z) (p : ptr) : M unit :=
  fun h =>
    match a with
    | Some l =>
        match h !! l with
        | Some (BPtrs v) =>
            if i <? Z.of_nat (length v)
            then Done tt (<[l:=BPtrs (<[Z.to_nat i:=p]> v)]> h)
            else Undefined
        | _ => Undefined
        end
    | None => Undefined
    end.

(** [FREE(p)], that is [wimlib_free_func] of util.c, [free] by default:
    [free(NULL)] does nothing; freeing a dead block is undefined. *)
Definition FREE (p : ptr) : M unit :=
  fun h =>
    match p with
    | None => Done tt h
    | Some l => match h !! l with Some _ => Done tt (delete l h) | None => Undefined end
    end.

(** ** The allocator

    [MALLOC] is [wimlib_malloc_func] of util.c, [malloc] by default.  Here
    [malloc] is any function of the current heap and the requested size that
    returns [NULL] or a block that is not live. *)

(** sizeof(struct wim_security_data), sizeof(u64) and the size of a pointer on LP64. *)
Definition SIZEOF_SD : Z := 32.
Definition SIZEOF_U64 : Z := 8.
Definition SIZEOF_PTR : Z := 8.

Section Security.

Variable malloc : heap -> Z -> ptr.

Definition MALLOC (n : Z) : M ptr :=
  fun h =>
    match malloc h n with
    | Some l => Done (Some l) (<[l:=BUninit n]> h)
    | None => Done None h
    end.

(** [wimlib_calloc] of util.c, for an array of [nmemb] pointers: the block
    is zeroed, so every slot is [NULL]. *)
Definition CALLOC (nmemb size : Z) : M ptr :=
  let total_size := (nmemb * size) mod U64_MODULUS in
  do p <- MALLOC total_size;
  match p with
  | Some l => store l (BPtrs (replicate (Z.to_nat nmemb) None)) ;;; ret (Some l)
  | None => ret None
  end.

(** ** free_security_data *)

(** [while (num_entries--) FREE( *descriptors++ );] with [n] iterations left
    and the walking pointer at slot [i]. *)
Fixpoint free_descriptors (n : nat) (descriptors : ptr) (i : Z) : M unit :=
  match n with
  | O => ret tt
  | S n' =>
      do d <- load_ptr descriptors i;
      FREE d ;;;
      free_descriptors n' descriptors (i + 1)
  end.

Definition free_security_data (sd : ptr) : M unit :=
  match sd with
  | None => ret tt
  | Some l =>
      do s <- load_sd l;
      wimlib_assert (1 <=? refcnt s) ;;;
      if refcnt s =? 1 then
        (match descriptors s with
         | Some _ => free_descriptors (Z.to_nat (num_entries s)) (descriptors s) 0
         | None => ret tt
         end) ;;;
        FREE (sizes s) ;;;
        FREE (descriptors s) ;;;
        FREE (Some l)
      else
        store l (BSecData (Build_wim_security_data
                   (total_length s) (num_entries s) (sizes s) (descriptors s)
                   (to_u32 (refcnt s - 1))))
  end.

(** ** read_security_data *)

(** Modelled from the spec: the readers of io.h ([get_bytes], [get_u32]) are
    not in the sources; section 6 of the specification gives the layout,
    little-endian.  Here the cursor is an offset into the buffer, and reading
    past the end of the buffer is undefined. *)
Definition get_bytes (buf : list byte) (p n : Z) : M (list byte) :=
  fun h =>
    if p + n <=? Z.of_nat (length buf)
    then Done (take (Z.to_nat n) (drop (Z.to_nat p) buf)) h
    else Undefined.

Definition get_u32 (buf : list byte) (p : Z) : M Z :=
  do bs <- get_bytes buf p 4; ret (le_to_Z bs).

(** The label [out_free_sd]. *)
Definition out_free_sd (sd : loc) (r : wimlib_error_code) : M wimlib_error_code :=
  free_security_data (Some sd) ;;; ret r.

(** The label [out]. *)
Definition out (sd sd_p : loc) (total_len : Z) : M wimlib_error_code :=
  do s <- load_sd sd;
  store sd (BSecData (Build_wim_security_data
              (to_u32 total_len) (num_entries s) (sizes s) (descriptors s)
              (refcnt s))) ;;;
  store sd_p (BSdPtr (Some sd)) ;;;
  ret WIMLIB_ERR_SUCCESS.

(** [ERROR(...)] prints a message ([wimlib_error] of util.c): it changes
    neither the heap nor the flow of control.  The calls that come just before
    a [goto out_free_sd] are left out of the model; the one of the overflow
    test, which is followed by no [goto], is kept. *)
Definition ERROR : M unit := ret tt.

(** The loop over the descriptors, with [n] iterations left, at index [i],
    the read cursor at offset [p]. *)
Fixpoint read_descriptors (metadata_resource : list byte) (sd sd_p : loc)
    (n : nat) (i p total_len : Z) : M wimlib_error_code :=
  match n with
  | O => out sd sd_p total_len
  | S n' =>
      do s <- load_sd sd;
      do size_i <- load_u64 (sizes s) i;
      (if u64_add total_len size_i <? total_len then ERROR else ret tt) ;;;
      let total_len := u64_add total_len size_i in
      if total_len >? total_length s then
        out_free_sd sd WIMLIB_ERR_INVALID_RESOURCE_SIZE
      else
        do d <- MALLOC size_i;
        store_ptr (descriptors s) i d ;;;
        match d with
        | None => out_free_sd sd WIMLIB_ERR_NOMEM
        | Some dl =>
            do bs <- get_bytes metadata_resource p size_i;
            store dl (BBytes bs) ;;;
            read_descriptors metadata_resource sd sd_p n' (i + 1) (p + size_i) total_len
        end
  end.

Definition read_security_data (metadata_resource : list byte)
    (metadata_resource_len : Z) (sd_p : loc) : M wimlib_error_code :=
  do sd <- MALLOC SIZEOF_SD;
  match sd with
  | None => ret WIMLIB_ERR_NOMEM
  | Some sd =>
      do tl <- get_u32 metadata_resource 0;
      do ne <- get_u32 metadata_resource 4;
      store sd (BSecData (Build_wim_security_data tl ne None None 1)) ;;;
      do s <- load_sd sd;
      if total_length s >? metadata_resource_len then
        out_free_sd sd WIMLIB_ERR_INVALID_RESOURCE_SIZE
      else if num_entries s =? 0 then
        out sd sd_p 8
      else
        let sizes_size := (num_entries s * SIZEOF_U64) mod U64_MODULUS in
        let size_no_descriptors := u64_add 8 sizes_size in
        if size_no_descriptors >? total_length s then
          out_free_sd sd WIMLIB_ERR_INVALID_RESOURCE_SIZE
        else
          do sz <- MALLOC sizes_size;
          store sd (BSecData (Build_wim_security_data
                      (total_length s) (num_entries s) sz None 1)) ;;;
          match sz with
          | None => out_free_sd sd WIMLIB_ERR_NOMEM
          | Some szl =>
              do bs <- get_bytes metadata_resource 8 sizes_size;
              store szl (BU64s (le64_array (Z.to_nat (num_entries s)) bs)) ;;;
              do ds <- CALLOC (num_entries s) SIZEOF_PTR;
              store sd (BSecData (Build_wim_security_data
                          (total_length s) (num_entries s) sz ds 1)) ;;;
              match ds with
              | None => out_free_sd sd WIMLIB_ERR_NOMEM
              | Some _ =>
                  read_descriptors metadata_resource sd sd_p
                    (Z.to_nat (num_entries s)) 0 (8 + sizes_size)
                    size_no_descriptors
              end
          end
  end.

(** ** write_security_data *)

(** Modelled from the spec: the writers of io.h ([put_u32], [put_u64],
    [put_bytes]) are not in the sources; they append little-endian integers
    and raw bytes at the cursor.  The bytes written so far stand for the
    buffer between [orig_p] and [p]. *)
Definition put_u32 (p : list byte) (v : Z) : list byte := p ++ Z_to_le 4 v.
Definition put_u64 (p : list byte) (v : Z) : list byte := p ++ Z_to_le 8 v.
Definition put_bytes (p : list byte) (bs : list byte) : list byte := p ++ bs.

Fixpoint write_sizes (s : wim_security_data) (n : nat) (i : Z)
    (p : list byte) : M (list byte) :=
  match n with
  | O => ret p
  | S n' =>
      do size_i <- load_u64 (sizes s) i;
      write_sizes s n' (i + 1) (put_u64 p size_i)
  end.

Fixpoint write_descriptors (s : wim_security_data) (n : nat) (i : Z)
    (p : list byte) : M (list byte) :=
  match n with
  | O => ret p
  | S n' =>
      do size_i <- load_u64 (sizes s) i;
      do d <- load_ptr (descriptors s) i;
      do bs <- load_bytes d size_i;
      write_descriptors s n' (i + 1) (put_bytes p bs)
  end.

(** Returns the bytes written, from [orig_p] to the returned cursor. *)
Definition write_security_data (sd : loc) : M (list byte) :=
  do s <- load_sd sd;
  let p := [] in
  let p := put_u32 p (total_length s) in
  let p := put_u32 p (num_entries s) in
  do p <- write_sizes s (Z.to_nat (num_entries s)) 0 p;
  do p <- write_descriptors s (Z.to_nat (num_entries s)) 0 p;
  wimlib_assert (Z.of_nat (length p) =? total_length s) ;;;
  ret p.

End Security.

(** ** The table that a heap holds

    The security-descriptor table of section 3 of the specification, as a
    value: what the blocks reachable from a [struct wim_security_data] hold. *)

Record sd_table := Build_sd_table {
  tbl_total_length : Z;
  tbl_num_entries : Z;
  tbl_sizes : list Z;
  tbl_descriptors : list (list byte)
}.

Definition sizes_at (h : heap) (a : ptr) : option (list Z) :=
  match a with
  | None => Some []
  | Some l => match h !! l with Some (BU64s v) => Some v | _ => None end
  end.

Definition bytes_at (h : heap) (d : ptr) : option (list byte) :=
  match d with
  | None => None
  | Some l => match h !! l with Some (BBytes v) => Some v | _ => None end
  end.

Definition descriptors_at (h : heap) (a : ptr) : option (list (list byte)) :=
  match a with
  | None => Some []
  | Some l =>
      match h !! l with
      | Some (BPtrs v) => mapM (bytes_at h) v
      | _ => None
      end
  end.

Definition table_at (h : heap) (sd : loc) : option sd_table :=
  match h !! sd with
  | Some (BSecData s) =>
      match sizes_at h (sizes s), descriptors_at h (descriptors s) with
      | Some szs, Some ds =>
          Some (Build_sd_table (total_length s) (num_entries s) szs ds)
      | _, _ => None
      end
  | _ => None
  end.

(** The structural invariants of a table. *)
Record valid_table (T : sd_table) : Prop := {
  valid_num_entries : is_u32 (tbl_num_entries T);
  valid_sizes_length : Z.of_nat (length (tbl_sizes T)) = tbl_num_entries T;
  valid_descriptors_length :
    Z.of_nat (length (tbl_descriptors T)) = tbl_num_entries T;
  valid_descriptor_sizes :
    Forall2 (fun sz d => sz = Z.of_nat (length d)) (tbl_sizes T) (tbl_descriptors T);
  valid_total_length_u32 : is_u32 (tbl_total_length T);
  valid_total_length :
    tbl_total_length T = 8 + 8 * tbl_num_entries T + sum_sizes (tbl_sizes T)
}.

(** The encoding of section 6 of the specification. *)
Definition encode_table (T : sd_table) : list byte :=
  Z_to_le 4 (tbl_total_length T) ++ Z_to_le 4 (tbl_num_entries T)
    ++ flat_map (Z_to_le 8) (tbl_sizes T) ++ concat (tbl_descriptors T).

(** ** Blocks a table owns *)

Definition ptr_locs (p : ptr) : list loc :=
  match p with Some l => [l] | None => [] end.

(** The blocks freed with a table whose pointer array is [ptrs]. *)
Definition owned_blocks (sd : loc) (s : wim_security_data) (ptrs : list ptr) : list loc :=
  omap id ptrs ++ ptr_locs (sizes s) ++ ptr_locs (descriptors s) ++ [sd].

Definition free_all (ls : list loc) (h : heap) : heap := foldr delete h ls.

(** A heap holds a table at [sd] whose blocks are live and pairwise distinct. *)
Record owns_table (h : heap) (sd : loc) (s : wim_security_data)
    (ptrs : list ptr) : Prop := {
  owns_sd : h !! sd = Some (BSecData s);
  owns_ptrs :
    match descriptors s with
    | Some l => h !! l = Some (BPtrs ptrs)
                /\ length ptrs = Z.to_nat (num_entries s)
    | None => ptrs = []
    end;
  owns_nodup : NoDup (owned_blocks sd s ptrs);
  owns_live : Forall (fun l => is_Some (h !! l)) (owned_blocks sd s ptrs)
}.

(** A first-fit allocator that never fails, for concrete runs. *)
Definition first_fit (h : heap) (n : Z) : ptr := Some (fresh (dom h)).

(** An allocator that fails on requests of [limit] bytes or more. *)
Definition bounded_fit (limit : Z) (h : heap) (n : Z) : ptr :=
  if n <? limit then Some (fresh (dom h)) else None.

(** ** What a run of read_security_data sees in the buffer *)

Definition hdr_total_length (buf : list byte) : Z := le_to_Z (take 4 buf).
Definition hdr_num_entries (buf : list byte) : Z := le_to_Z (take 4 (drop 4 buf)).

(** The array of sizes that follows the header. *)
Definition hdr_sizes (buf : list byte) : list Z :=
  le64_array (Z.to_nat (hdr_num_entries buf))
    (take (Z.to_nat (hdr_num_entries buf * 8)) (drop 8 buf)).

(** The running [total_len] after [k] descriptors, without wrap-around. *)
Definition accumulated (buf : list byte) (k : nat) : Z :=
  8 + 8 * hdr_num_entries buf + sum_sizes (take k (hdr_sizes buf)).

(** Consecutive chunks of the given sizes. *)
Fixpoint split_sizes (szs : list Z) (bs : list byte) : list (list byte) :=
  match szs with
  | [] => []
  | sz :: szs' =>
      take (Z.to_nat sz) bs :: split_sizes szs' (drop (Z.to_nat sz) bs)
  end.

(** The descriptors that follow the array of sizes. *)
Definition hdr_descriptors (buf : list byte) : list (list byte) :=
  split_sizes (hdr_sizes buf)
    (drop (Z.to_nat (8 + 8 * hdr_num_entries buf)) buf).

(** The state of the heap inside the loop of [read_security_data], after the
    descriptors [dbs] have been read into the blocks [dl]: the table and its
    arrays are in place, the remaining slots of the pointer array are [NULL],
    and freeing the blocks of the table gives back the initial heap [h0]. *)
Record loop_inv (h0 : heap) (sd szl dsl : loc) (tl ne : Z) (szs : list Z)
    (dl : list loc) (dbs : list (list byte)) (h : heap) : Prop := {
  inv_sd : h !! sd = Some (BSecData
             (Build_wim_security_data tl ne (Some szl) (Some dsl) 1));
  inv_sz : h !! szl = Some (BU64s szs);
  inv_ds : h !! dsl = Some (BPtrs
             ((Some <$> dl) ++ replicate (Z.to_nat ne - length dl) None));
  inv_dl_len : (length dl <= Z.to_nat ne)%nat;
  inv_bytes : Forall2 (fun l bs => h !! l = Some (BBytes bs)) dl dbs;
  inv_nodup : NoDup (dl ++ [szl; dsl; sd]);
  inv_frame : free_all (dl ++ [szl; dsl; sd]) h = h0
}.

(** The running [total_len] after [k] sizes, from [base], without wrap-around. *)
Definition acc_from (base : Z) (szs : list Z) (k : nat) : Z :=
  base + sum_sizes (take k szs).

(** The ways the loop of [read_security_data], entered at index [i], can end. *)
Inductive loop_result (malloc : heap -> Z -> ptr) (buf : list byte) (h0 : heap)
    (sd szl dsl sd_p : loc) (tl ne : Z) (szs : list Z) (i : nat) :
    outcome wimlib_error_code -> Prop :=
| LR_nomem h n :
    malloc h n = None ->
    loop_result malloc buf h0 sd szl dsl sd_p tl ne szs i
      (Done WIMLIB_ERR_NOMEM h0)
| LR_overrun (j : nat) :
    (i <= j < Z.to_nat ne)%nat ->
    acc_from (8 + 8 * ne) szs j <= tl ->
    tl < acc_from (8 + 8 * ne) szs (S j) < U64_MODULUS ->
    loop_result malloc buf h0 sd szl dsl sd_p tl ne szs i
      (Done WIMLIB_ERR_INVALID_RESOURCE_SIZE h0)
| LR_wrapped (j : nat) :
    (i <= j < Z.to_nat ne)%nat ->
    acc_from (8 + 8 * ne) szs j <= tl ->
    U64_MODULUS <= acc_from (8 + 8 * ne) szs (S j) ->
    loop_result malloc buf h0 sd szl dsl sd_p tl ne szs i Undefined
| LR_success dl hf :
    acc_from (8 + 8 * ne) szs (Z.to_nat ne) <= tl ->
    loop_inv h0 sd szl dsl tl ne szs dl
      (split_sizes szs (drop (Z.to_nat (8 + 8 * ne)) buf)) hf ->
    length dl = Z.to_nat ne ->
    loop_result malloc buf h0 sd szl dsl sd_p tl ne szs i
      (Done WIMLIB_ERR_SUCCESS
         (<[sd_p:=BSdPtr (Some sd)]>
            (<[sd:=BSecData (Build_wim_security_data
                     (acc_from (8 + 8 * ne) szs (Z.to_nat ne)) ne
                     (Some szl) (Some dsl) 1)]> hf))).

(** The ways a run of [read_security_data] from the heap [h0] can end. *)
Inductive read_result (malloc : heap -> Z -> ptr) (buf : list byte) (len : Z)
    (sd_p : loc) (h0 : heap) : outcome wimlib_error_code -> Prop :=
| RR_nomem h n :
    malloc h n = None ->
    read_result malloc buf len sd_p h0 (Done WIMLIB_ERR_NOMEM h0)
| RR_too_long :
    len < hdr_total_length buf ->
    read_result malloc buf len sd_p h0 (Done WIMLIB_ERR_INVALID_RESOURCE_SIZE h0)
| RR_overrun (j : nat) :
    hdr_total_length buf <= len ->
    hdr_num_entries buf <> 0 ->
    (j <= Z.to_nat (hdr_num_entries buf))%nat ->
    (forall k, (k < j)%nat -> accumulated buf k <= hdr_total_length buf) ->
    hdr_total_length buf < accumulated buf j < U64_MODULUS ->
    read_result malloc buf len sd_p h0 (Done WIMLIB_ERR_INVALID_RESOURCE_SIZE h0)
| RR_wrapped (j : nat) :
    hdr_total_length buf <= len ->
    hdr_num_entries buf <> 0 ->
    (j < Z.to_nat (hdr_num_entries buf))%nat ->
    (forall k, (k <= j)%nat -> accumulated buf k <= hdr_total_length buf) ->
    U64_MODULUS <= accumulated buf (S j) ->
    read_result malloc buf len sd_p h0 Undefined
| RR_success sd h :
    hdr_total_length buf <= len ->
    (forall k, hdr_num_entries buf <> 0 ->
       accumulated buf k <= hdr_total_length buf) ->
    h0 !! sd = None ->
    h !! sd_p = Some (BSdPtr (Some sd)) ->
    (forall l, h0 !! l <> None -> l <> sd_p -> h !! l = h0 !! l) ->
    (exists s, h !! sd = Some (BSecData s) /\ refcnt s = 1) ->
    table_at h sd = Some (Build_sd_table
      (accumulated buf (Z.to_nat (hdr_num_entries buf)))
      (hdr_num_entries buf) (hdr_sizes buf) (hdr_descriptors buf)) ->
    read_result malloc buf len sd_p h0 (Done WIMLIB_ERR_SUCCESS h).

(** ** Concrete inputs *)

(** A heap that holds only the caller's pointer variable, at address 0. *)
Definition caller_heap : heap := {[ 0%nat := BSdPtr None ]}.

(** [total_length = 20, num_entries = 1, sizes = [4]] and 4 bytes. *)
Definition exact_fit_buf : list byte :=
  [x14; x00; x00; x00] ++ [x01; x00; x00; x00]
    ++ [x04; x00; x00; x00; x00; x00; x00; x00] ++ [x01; x02; x03; x04].

Definition exact_fit_table : sd_table :=
  Build_sd_table 20 1 [4] [[x01; x02; x03; x04]].

(** [total_length = 20, num_entries = 1, sizes = [20]] and 4 bytes. *)
Definition overrun_buf : list byte :=
  [x14; x00; x00; x00] ++ [x01; x00; x00; x00]
    ++ [x14; x00; x00; x00; x00; x00; x00; x00] ++ [x01; x02; x03; x04].

(** [total_length = 16, num_entries = 1, sizes = [2^64 - 1]]. *)
Definition overflow_buf : list byte :=
  [x10; x00; x00; x00] ++ [x01; x00; x00; x00]
    ++ [xff; xff; xff; xff; xff; xff; xff; xff].

(** [total_length = 5, num_entries = 0]. *)
Definition zero_entries_buf : list byte :=
  [x05; x00; x00; x00] ++ [x00; x00; x00; x00].

(** [total_length = 100, num_entries = 0], in 8 bytes. *)
Definition zero_entries_long_buf : list byte :=
  [x64; x00; x00; x00] ++ [x00; x00; x00; x00].

(** The table of [exact_fit_buf] in memory, shared by two images. *)
Definition shared_sd : wim_security_data :=
  Build_wim_security_data 20 1 (Some 2%nat) (Some 3%nat) 2.

(** A table that was released once too often. *)
Definition released_heap : heap :=
  {[ 1%nat := BSecData (Build_wim_security_data 8 0 None None 0) ]}.

Definition shared_heap : heap :=
  <[1%nat:=BSecData shared_sd]>
    (<[2%nat:=BU64s [4]]>
       (<[3%nat:=BPtrs [Some 4%nat]]>
          (<[4%nat:=BBytes [x01; x02; x03; x04]]> ∅))).

(** ** Successive releases *)

Definition set_refcnt (s : wim_security_data) (r : Z) : wim_security_data :=
  Build_wim_security_data (total_length s) (num_entries s) (sizes s)
    (descriptors s) r.

(** [k] calls of [free_security_data] on the same table, one after the other,
    as when the images that share it are released in turn. *)
Fixpoint free_security_data_times (k : nat) (sd : ptr) : M unit :=
  match k with
  | O => ret tt
  | S k' => free_security_data sd ;;; free_security_data_times k' sd
  end.

(** ** util.c: strings

    A character string is an array of [tchar] with a terminator; what lies
    after the terminator is part of the array, not of the string.  Reading or
    writing past the end of the array is undefined ([None]).

    Modelled from the spec: [tchar] and [T] are declared in a header that is
    not in the sources.  As in the builds other than Windows, a [tchar] is a
    [char], and [tstrlen] and [tstrchr] are [strlen] and [strchr]. *)

Abbreviation tchar := byte.
Definition T_NUL : tchar := x00.        (* T('\0') *)
Definition T_SLASH : tchar := x2f.      (* T('/') *)
Definition T_COLON : tchar := x3a.      (* T(':') *)
Definition T_BACKSLASH : tchar := x5c.  (* T('\\') *)

(** [tstrlen(s)]: the index of the terminator. *)
Fixpoint tstrlen (s : list tchar) : option nat :=
  match s with
  | [] => None
  | c :: s' => if Byte.eqb c T_NUL then Some O else S <$> tstrlen s'
  end.

(** [tstrchr(s, c)]: [NULL] ([Some None]), or the index of the first [c]. *)
Fixpoint tstrchr (s : list tchar) (c : tchar) : option (option nat) :=
  match s with
  | [] => None
  | x :: s' =>
      if Byte.eqb x c then Some (Some O)
      else if Byte.eqb x T_NUL then Some None
      else match tstrchr s' c with
           | Some (Some i) => Some (Some (S i))
           | r => r
           end
  end.

(** The string that starts at the beginning of an array. *)
Definition tstring (s : list tchar) : option (list tchar) :=
  match tstrlen s with
  | Some n => Some (take n s)
  | None => None
  end.

(** What [path_basename_with_len] returns: the literal [T("")], or a pointer
    into [path], as an offset. *)
Inductive tstr_ptr :=
| PtrEmptyLiteral
| PtrAt (off : nat).

(** The first loop of [path_basename_with_len], over the trailing slashes,
    with [k = p - path + 1]: [Some None] when [p == path - 1] is reached,
    [Some (Some k)] at the [break]. *)
Fixpoint skip_trailing_slashes (path : list tchar) (k : nat) : option (option nat) :=
  match k with
  | O => Some None
  | S k' =>
      match path !! k' with
      | None => None
      | Some c =>
          if Byte.eqb c T_SLASH then skip_trailing_slashes path k'
          else Some (Some k)
      end
  end.

(** The second loop, with [k = p - path + 1]; the result is [p + 1 - path]. *)
Fixpoint find_component_start (path : list tchar) (k : nat) : option nat :=
  match k with
  | O => Some O
  | S k' =>
      match path !! k' with
      | None => None
      | Some c =>
          if Byte.eqb c T_SLASH then Some k
          else find_component_start path k'
      end
  end.

Definition path_basename_with_len (path : list tchar) (len : nat) : option tstr_ptr :=
  match skip_trailing_slashes path len with
  | None => None
  | Some None => Some PtrEmptyLiteral
  | Some (Some k) => PtrAt <$> find_component_start path k
  end.

Definition path_basename (path : list tchar) : option tstr_ptr :=
  match tstrlen path with
  | Some len => path_basename_with_len path len
  | None => None
  end.

(** The string that the result of [path_basename] points to. *)
Definition tstring_at (path : list tchar) (p : tstr_ptr) : option (list tchar) :=
  match p with
  | PtrEmptyLiteral => Some []
  | PtrAt off => tstring (drop off path)
  end.

(** [path_stream_name]: [NULL] ([Some None]) or an offset into [path]. *)
Definition path_stream_name (path : list tchar) : option (option nat) :=
  match path_basename path with
  | None => None
  | Some PtrEmptyLiteral => Some None
  | Some (PtrAt base) =>
      match tstrchr (drop base path) T_COLON with
      | None => None
      | Some None => Some None
      | Some (Some stream_name) => Some (Some (base + stream_name + 1)%nat)
      end
  end.

Definition zap_char (c : tchar) : tchar :=
  if Byte.eqb c T_BACKSLASH then T_SLASH else c.

(** The loop of [zap_backslashes]: the array after the walk. *)
Fixpoint zap_backslashes_loop (s : list tchar) : option (list tchar) :=
  match s with
  | [] => None
  | c :: s' =>
      if Byte.eqb c T_NUL then Some s
      else match zap_backslashes_loop s' with
           | Some r => Some (zap_char c :: r)
           | None => None
           end
  end.

(** [zap_backslashes(s)], [s] being [NULL] or an array. *)
Definition zap_backslashes (s : option (list tchar)) : option (option (list tchar)) :=
  match s with
  | None => Some None
  | Some a => Some <$> zap_backslashes_loop a
  end.

(** [utf16le_strlen]: the array is one of 16-bit units; the result is a
    count of bytes, of type [size_t]. *)
Fixpoint utf16le_units (s : list Z) : option nat :=
  match s with
  | [] => None
  | c :: s' => if c =? 0 then Some O else S <$> utf16le_units s'
  end.

Definition utf16le_strlen (s : list Z) : option Z :=
  (fun n => (Z.of_nat n * 2) mod U64_MODULUS) <$> utf16le_units s.

(** ** util.c: random characters

    [rand k] is what the [k]-th call of [rand()] returns, whatever the seed
    makes it; the state is the flag [seeded] and the counts of the calls of
    [srand()] and of [rand()] made so far. *)

Record rng := Build_rng {
  seeded : bool;
  srand_calls : nat;
  rand_calls : nat
}.

Definition seed_random (g : rng) : rng :=
  Build_rng true (S (srand_calls g)) (rand_calls g).

Definition alnum_of (r : Z) : tchar :=
  if r <? 26 then byte_of_Z (r + 97)          (* r + 'a' *)
  else if r <? 52 then byte_of_Z (r - 26 + 65) (* r - 26 + 'A' *)
  else byte_of_Z (r - 52 + 48).               (* r - 52 + '0' *)

(** The loop [while (n--)], which returns the characters written and the
    count of calls of [rand()]. *)
Fixpoint randomize_alnum_loop (rand : nat -> Z) (n : nat) (calls : nat) :
    list tchar * nat :=
  match n with
  | O => ([], calls)
  | S n' =>
      let r := Z.rem (rand calls) 62 in
      let '(cs, calls') := randomize_alnum_loop rand n' (S calls) in
      (alnum_of r :: cs, calls')
  end.

Definition randomize_char_array_with_alnum (rand : nat -> Z)
    (p : list tchar) (n : nat) (g : rng) : option (list tchar * rng) :=
  let g := if seeded g then g else seed_random g in
  if (n <=? length p)%nat then
    let '(cs, calls) := randomize_alnum_loop rand n (rand_calls g) in
    Some (cs ++ drop n p, Build_rng (seeded g) (srand_calls g) calls)
  else None.

(** The loop of [randomize_byte_array]: an [int] stored in a [u8] keeps its
    low 8 bits. *)
Fixpoint randomize_byte_loop (rand : nat -> Z) (n : nat) (calls : nat) :
    list byte * nat :=
  match n with
  | O => ([], calls)
  | S n' =>
      let '(cs, calls') := randomize_byte_loop rand n' (S calls) in
      (byte_of_Z (rand calls) :: cs, calls')
  end.

Definition randomize_byte_array (rand : nat -> Z)
    (p : list byte) (n : nat) (g : rng) : option (list byte * rng) :=
  let g := if seeded g then g else seed_random g in
  if (n <=? length p)%nat then
    let '(cs, calls) := randomize_byte_loop rand n (rand_calls g) in
    Some (cs ++ drop n p, Build_rng (seeded g) (srand_calls g) calls)
  else None.

Definition is_alnum (c : tchar) : bool :=
  let z := byte_to_Z c in
  ((97 <=? z) && (z <=? 122)) || ((65 <=? z) && (z <=? 90))
  || ((48 <=? z) && (z <=? 57)).

(** ** util.c: wimlib_strdup *)

(** [str] points to the start of an array of [char]. *)
Definition wimlib_strdup (malloc : heap -> Z -> ptr) (str : loc) : M ptr :=
  fun h =>
    match h !! str with
    | Some (BBytes v) =>
        match tstrlen v with
        | Some size =>
            (do p <- MALLOC malloc ((Z.of_nat size + 1) mod U64_MODULUS);
             match p with
             | Some l => store l (BBytes (take (size + 1) v)) ;;; ret p
             | None => ret None
             end) h
        | None => Undefined
        end
    | _ => Undefined
    end.

(** ** More concrete inputs *)

(** The heap after [exact_fit_buf] was read from [caller_heap]. *)
Definition exact_fit_heap : heap :=
  match read_security_data first_fit exact_fit_buf 20 0%nat caller_heap with
  | Done _ h => h
  | _ => ∅
  end.

(** [total_length = 8, num_entries = 1] and one size: the declared total
    length does not even cover the array of sizes. *)
Definition short_header_buf : list byte :=
  [x08; x00; x00; x00] ++ [x01; x00; x00; x00]
    ++ [x00; x00; x00; x00; x00; x00; x00; x00].

(** The table of [shared_heap] with a total length of 24 where 20 is due. *)
Definition misdeclared_table : sd_table :=
  Build_sd_table 24 1 [4] [[x01; x02; x03; x04]].

Definition misdeclared_heap : heap :=
  <[1%nat:=BSecData (Build_wim_security_data 24 1 (Some 2%nat) (Some 3%nat) 1)]>
    shared_heap.

(** "usr/lib//" and its parts, and "dir/file:strm". *)
Definition usr_dir : list tchar := [x75; x73; x72; x2f].
Definition lib_name : list tchar := [x6c; x69; x62].
Definition file_name : list tchar := [x66; x69; x6c; x65].
Definition strm_name : list tchar := [x73; x74; x72; x6d].
Definition two_slashes : list tchar := [x2f; x2f].
Definition junk_bytes : list tchar := [xaa; x5c; x00].

(** "C:\\dir\\" as typed on Windows, with backslashes. *)
Definition win_dir : list tchar := [x43; x3a; x5c; x64; x69; x72; x5c].

(** "hi" in UTF-16LE units. *)
Definition hi_units : list Z := [104; 105].

Definition sample_rand (k : nat) : Z := Z.of_nat k * 7919 + 41.

Definition unseeded : rng := Build_rng false 0 0.

(** A heap with the string "lib" in an array of seven bytes. *)
Definition string_heap : heap :=
  {[ 1%nat := BBytes (lib_name ++ T_NUL :: junk_bytes) ]}.

(** ** Little-endian integers *)

Lemma byte_to_Z_range b : 0 <= byte_to_Z b < 256.
Proof.
  unfold byte_to_Z. pose proof (Byte.to_N_bounded b) as Hb.
  lia.
Qed.

Lemma byte_to_of_Z z : byte_to_Z (byte_of_Z z) = z mod 256.
Proof.
  unfold byte_of_Z, byte_to_Z.
  pose proof (Z.mod_pos_bound z 256 ltac:(lia)) as Hr.
  destruct (Byte.of_N (Z.to_N (z mod 256))) as [b|] eqn:E.
  - apply Byte.to_of_N in E. rewrite E. lia.
  - apply Byte.of_N_None_iff in E. lia.
Qed.

Lemma le_to_Z_range bs : 0 <= le_to_Z bs < 256 ^ Z.of_nat (length bs).
Proof.
  induction bs as [|b bs IH]; simpl length; [simpl; lia|].
  rewrite Nat2Z.inj_succ, Z.pow_succ_r by lia.
  cbn [le_to_Z]. pose proof (byte_to_Z_range b). lia.
Qed.

Lemma Z_to_le_length n z : length (Z_to_le n z) = n.
Proof. revert z; induction n as [|n IH]; intros z; simpl; [|rewrite IH]; reflexivity. Qed.

Lemma le_to_Z_to_le n z :
  0 <= z < 256 ^ Z.of_nat n -> le_to_Z (Z_to_le n z) = z.
Proof.
  revert z; induction n as [|n IH]; intros z Hz.
  - simpl in *. lia.
  - rewrite Nat2Z.inj_succ, Z.pow_succ_r in Hz by lia.
    cbn [Z_to_le le_to_Z]. rewrite byte_to_of_Z, IH.
    + pose proof (Z.div_mod z 256 ltac:(lia)). lia.
    + split; [apply Z.div_pos; lia | apply Z.div_lt_upper_bound; lia].
Qed.


(** ** Running computations *)

Lemma bind_Done {A B} (c : M A) (k : A -> M B) h a h' :
  c h = Done a h' -> bind c k h = k a h'.
Proof. intros Hc. unfold bind. rewrite Hc. reflexivity. Qed.

Lemma load_sd_eq (h : heap) sd s :
  h !! sd = Some (BSecData s) -> load_sd sd h = Done s h.
Proof. intros Hsd. unfold load_sd. rewrite Hsd. reflexivity. Qed.

Lemma load_u64_eq (h : heap) l v i x :
  h !! l = Some (BU64s v) -> v !! Z.to_nat i = Some x ->
  load_u64 (Some l) i h = Done x h.
Proof. intros Hl Hx. unfold load_u64. rewrite Hl, Hx. reflexivity. Qed.

Lemma load_ptr_eq (h : heap) l v i x :
  h !! l = Some (BPtrs v) -> v !! Z.to_nat i = Some x ->
  load_ptr (Some l) i h = Done x h.
Proof. intros Hl Hx. unfold load_ptr. rewrite Hl, Hx. reflexivity. Qed.

Lemma store_eq (h : heap) l b :
  is_Some (h !! l) -> store l b h = Done tt (<[l:=b]> h).
Proof. intros [b' Hl]. unfold store. rewrite Hl. reflexivity. Qed.

Lemma FREE_eq (h : heap) l :
  is_Some (h !! l) -> FREE (Some l) h = Done tt (delete l h).
Proof. intros [b' Hl]. unfold FREE. rewrite Hl. reflexivity. Qed.

(** ** Freeing a list of blocks *)

Lemma lookup_free_all ls (h : heap) l :
  free_all ls h !! l = if decide (l ∈ ls) then None else h !! l.
Proof.
  induction ls as [|x ls IH]; cbn [free_all foldr].
  - destruct (decide (l ∈ [])) as [Hin|_]; [|reflexivity].
    apply elem_of_nil in Hin. contradiction.
  - fold (free_all ls h).
    destruct (decide (x = l)) as [->|Hne].
    + rewrite lookup_delete_eq.
      destruct (decide (l ∈ l :: ls)) as [_|Hnin]; [reflexivity|].
      exfalso. apply Hnin, list_elem_of_here.
    + rewrite lookup_delete_ne, IH by exact Hne.
      destruct (decide (l ∈ ls)) as [Hin|Hnin];
        destruct (decide (l ∈ x :: ls)) as [Hin'|Hnin']; try reflexivity.
      * exfalso. apply Hnin', list_elem_of_further, Hin.
      * apply elem_of_cons in Hin' as [->|Hin']; tauto.
Qed.

Lemma free_all_delete ls (h : heap) l :
  free_all ls (delete l h) = delete l (free_all ls h).
Proof.
  apply map_eq. intros k. rewrite lookup_free_all.
  destruct (decide (l = k)) as [->|Hne].
  - rewrite !lookup_delete_eq. destruct (decide (k ∈ ls)); reflexivity.
  - rewrite !lookup_delete_ne, lookup_free_all by exact Hne. reflexivity.
Qed.

Lemma free_all_app ls1 ls2 (h : heap) :
  free_all (ls1 ++ ls2) h = free_all ls1 (free_all ls2 h).
Proof. unfold free_all. apply foldr_app. Qed.

Lemma free_all_live_cons l ls (h : heap) :
  NoDup (l :: ls) ->
  Forall (fun k => is_Some (h !! k)) (l :: ls) ->
  Forall (fun k => is_Some (delete l h !! k)) ls.
Proof.
  intros Hnd Hlive. apply NoDup_cons in Hnd as [Hnin _].
  apply Forall_cons in Hlive as [_ Hlive].
  rewrite Forall_forall in Hlive. apply Forall_forall. intros k Hk.
  rewrite lookup_delete_ne; [apply Hlive, Hk|].
  intros ->. exact (Hnin Hk).
Qed.

Section SecurityProofs.

Variable malloc : heap -> Z -> ptr.
Hypothesis malloc_fresh : forall h n l, malloc h n = Some l -> h !! l = None.

(** ** free_security_data *)

(** The walk over the pointer array frees every block it names. *)
Lemma free_descriptors_spec dsl ptrs n : forall (i : nat) (h : heap),
  h !! dsl = Some (BPtrs ptrs) ->
  length ptrs = (i + n)%nat ->
  NoDup (omap id (drop i ptrs)) ->
  dsl ∉ omap id (drop i ptrs) ->
  Forall (fun l => is_Some (h !! l)) (omap id (drop i ptrs)) ->
  free_descriptors n (Some dsl) (Z.of_nat i) h
  = Done tt (free_all (omap id (drop i ptrs)) h).
Proof.
  induction n as [|n IH]; intros i h Hds Hlen Hnd Hnin Hlive.
  - rewrite drop_ge by lia. reflexivity.
  - destruct (lookup_lt_is_Some_2 ptrs i ltac:(lia)) as [d Hd].
    rewrite (drop_S _ _ _ Hd) in *.
    cbn [free_descriptors].
    rewrite (bind_Done _ _ _ _ _ (load_ptr_eq h dsl ptrs (Z.of_nat i) d Hds
               ltac:(rewrite Nat2Z.id; exact Hd))).
    replace (Z.of_nat i + 1) with (Z.of_nat (S i)) by lia.
    destruct d as [l|]; cbn [omap id] in *.
    + simpl in Hnd, Hnin, Hlive |- *.
      pose proof (free_all_live_cons _ _ _ Hnd Hlive) as Hlive'.
      apply Forall_cons in Hlive as [Hl _].
      apply NoDup_cons in Hnd as [Hl_nin Hnd].
      apply not_elem_of_cons in Hnin as [Hne Hnin].
      rewrite (bind_Done _ _ _ _ _ (FREE_eq h l Hl)).
      rewrite IH; try assumption; try lia.
      * rewrite free_all_delete. reflexivity.
      * rewrite lookup_delete_ne by congruence. exact Hds.
    + simpl in Hnd, Hnin, Hlive |- *.
      unfold bind at 1. cbn [FREE].
      apply IH; try assumption; lia.
Qed.

Lemma FREE_ptr_eq (h : heap) p :
  Forall (fun l => is_Some (h !! l)) (ptr_locs p) ->
  FREE p h = Done tt (free_all (ptr_locs p) h).
Proof.
  destruct p as [l|]; intros Hlive; [|reflexivity].
  apply Forall_cons in Hlive as [Hl _]. exact (FREE_eq h l Hl).
Qed.

Lemma free_all_comm ls1 ls2 (h : heap) :
  free_all ls1 (free_all ls2 h) = free_all ls2 (free_all ls1 h).
Proof.
  apply map_eq. intros k. rewrite !lookup_free_all.
  destruct (decide (k ∈ ls1)), (decide (k ∈ ls2)); reflexivity.
Qed.

Lemma live_free_all ls ls' (h : heap) :
  Forall (fun l => is_Some (h !! l)) ls ->
  (forall x, x ∈ ls -> x ∉ ls') ->
  Forall (fun l => is_Some (free_all ls' h !! l)) ls.
Proof.
  rewrite !Forall_forall. intros Hlive Hdisj x Hx.
  rewrite lookup_free_all, decide_False by (apply Hdisj, Hx).
  apply Hlive, Hx.
Qed.

(** Releasing the last reference frees every block of the table. *)
Lemma free_security_data_last (h : heap) sd s ptrs :
  owns_table h sd s ptrs ->
  refcnt s = 1 ->
  free_security_data (Some sd) h
  = Done tt (free_all (owned_blocks sd s ptrs) h).
Proof.
  intros [Hsd Hptrs Hnd Hlive] Hrc.
  unfold owned_blocks in *.
  apply NoDup_app in Hnd as (HndA & HdA & Hnd).
  apply NoDup_app in Hnd as (HndB & HdB & Hnd).
  apply NoDup_app in Hnd as (HndC & HdC & HndD).
  apply Forall_app in Hlive as [HlA Hlive].
  apply Forall_app in Hlive as [HlB Hlive].
  apply Forall_app in Hlive as [HlC HlD].
  unfold free_security_data.
  rewrite (bind_Done _ _ _ _ _ (load_sd_eq h sd s Hsd)).
  rewrite Hrc. change (1 <=? 1) with true. change (1 =? 1) with true.
  unfold bind at 1. cbn [wimlib_assert]. cbv iota.
  assert (Hfd :
    (match descriptors s with
     | Some _ => free_descriptors (Z.to_nat (num_entries s)) (descriptors s) 0
     | None => ret tt
     end) h = Done tt (free_all (omap id ptrs) h)).
  { destruct (descriptors s) as [dsl|] eqn:Eds.
    - destruct Hptrs as [Hds Hlen].
      change 0 with (Z.of_nat 0).
      rewrite (free_descriptors_spec dsl ptrs); rewrite ?drop_0; try assumption.
      + reflexivity.
      + intros Hin. apply HdA in Hin. apply Hin.
        apply elem_of_app. right. apply elem_of_app. left.
        apply list_elem_of_here.
    - subst ptrs. reflexivity. }
  rewrite (bind_Done _ _ _ _ _ Hfd).
  assert (HlB' : Forall (fun l => is_Some (free_all (omap id ptrs) h !! l))
                   (ptr_locs (sizes s))).
  { apply live_free_all; [exact HlB|]. intros x Hx Hin.
    apply HdA in Hin. apply Hin, elem_of_app. left. exact Hx. }
  rewrite (bind_Done _ _ _ _ _ (FREE_ptr_eq _ _ HlB')).
  assert (HlC' : Forall (fun l => is_Some
                   (free_all (ptr_locs (sizes s)) (free_all (omap id ptrs) h) !! l))
                   (ptr_locs (descriptors s))).
  { apply live_free_all; [apply live_free_all; [exact HlC|]|].
    - intros x Hx Hin. apply HdA in Hin. apply Hin, elem_of_app. right.
      apply elem_of_app. left. exact Hx.
    - intros x Hx Hin. apply HdB in Hin. apply Hin, elem_of_app. left. exact Hx. }
  rewrite (bind_Done _ _ _ _ _ (FREE_ptr_eq _ _ HlC')).
  change (Some sd) with (Some sd : ptr).
  assert (HlD' : Forall (fun l => is_Some
                   (free_all (ptr_locs (descriptors s))
                      (free_all (ptr_locs (sizes s)) (free_all (omap id ptrs) h)) !! l))
                   (ptr_locs (Some sd))).
  { apply live_free_all; [apply live_free_all; [apply live_free_all; [exact HlD|]|]|].
    - intros x Hx Hin. apply HdA in Hin. apply Hin, elem_of_app. right.
      apply elem_of_app. right. exact Hx.
    - intros x Hx Hin. apply HdB in Hin. apply Hin, elem_of_app. right.
      exact Hx.
    - intros x Hx Hin. apply HdC in Hin. apply Hin. exact Hx. }
  rewrite (FREE_ptr_eq _ _ HlD'). f_equal.
  rewrite !free_all_app. cbn [ptr_locs].
  rewrite (free_all_comm [sd]), (free_all_comm [sd]), (free_all_comm [sd]).
  rewrite (free_all_comm (ptr_locs (descriptors s))),
          (free_all_comm (ptr_locs (descriptors s))).
  rewrite (free_all_comm (ptr_locs (sizes s))).
  reflexivity.
Qed.

(** Releasing one of several references only decrements the counter. *)
Lemma free_security_data_shared (h : heap) sd s :
  h !! sd = Some (BSecData s) ->
  1 < refcnt s < U32_MODULUS ->
  free_security_data (Some sd) h
  = Done tt (<[sd:=BSecData (Build_wim_security_data
               (total_length s) (num_entries s) (sizes s) (descriptors s)
               (refcnt s - 1))]> h).
Proof.
  intros Hsd Hrc. unfold free_security_data.
  rewrite (bind_Done _ _ _ _ _ (load_sd_eq h sd s Hsd)).
  replace (1 <=? refcnt s) with true by (symmetry; apply Z.leb_le; lia).
  unfold bind at 1. cbn [wimlib_assert].
  replace (refcnt s =? 1) with false by (symmetry; apply Z.eqb_neq; lia).
  rewrite store_eq by (rewrite Hsd; eexists; reflexivity).
  unfold to_u32. rewrite Z.mod_small by lia. reflexivity.
Qed.

(** ** The pointer array and the chunks of the buffer *)

Lemma omap_id_ptrs (dl : list loc) k :
  omap id ((Some <$> dl) ++ replicate k (None : ptr)) = dl.
Proof.
  rewrite omap_app.
  assert (H1 : omap id (Some <$> dl) = dl).
  { induction dl as [|l dl IH]; [reflexivity|]. cbn. rewrite IH. reflexivity. }
  assert (H2 : omap id (replicate k (None : ptr)) = ([] : list loc)).
  { induction k as [|k IH]; [reflexivity|]. cbn. exact IH. }
  rewrite H1, H2. apply app_nil_r.
Qed.

Lemma ptrs_lookup_next (dl : list loc) k :
  ((Some <$> dl) ++ replicate (S k) (None : ptr)) !! length dl = Some None.
Proof.
  rewrite lookup_app_r by (rewrite length_fmap; lia).
  rewrite length_fmap, Nat.sub_diag. reflexivity.
Qed.

Lemma ptrs_insert_next (dl : list loc) k d :
  <[length dl := Some d]> ((Some <$> dl) ++ replicate (S k) (None : ptr))
  = (Some <$> (dl ++ [d])) ++ replicate k None.
Proof.
  rewrite insert_app_r_alt by (rewrite length_fmap; lia).
  rewrite length_fmap, Nat.sub_diag, fmap_app, <- app_assoc. reflexivity.
Qed.

Lemma sum_sizes_app l1 l2 : sum_sizes (l1 ++ l2) = sum_sizes l1 + sum_sizes l2.
Proof.
  unfold sum_sizes. induction l1 as [|x l1 IH]; simpl; [reflexivity|].
  rewrite IH. lia.
Qed.

Lemma sum_sizes_take_S (szs : list Z) i s :
  szs !! i = Some s ->
  sum_sizes (take (S i) szs) = sum_sizes (take i szs) + s.
Proof.
  intros Hs. rewrite (take_S_r _ _ _ Hs), sum_sizes_app.
  unfold sum_sizes at 2. simpl. lia.
Qed.

Lemma sum_sizes_nonneg l : Forall (fun s => 0 <= s) l -> 0 <= sum_sizes l.
Proof.
  unfold sum_sizes. induction 1 as [|x l Hx _ IH]; simpl; lia.
Qed.

Lemma sum_sizes_take_mono (l : list Z) i j :
  Forall (fun s => 0 <= s) l -> (i <= j)%nat ->
  sum_sizes (take i l) <= sum_sizes (take j l).
Proof.
  intros Hl Hij.
  replace j with (i + (j - i))%nat by lia.
  rewrite <- take_take_drop, sum_sizes_app.
  assert (0 <= sum_sizes (take (j - i) (drop i l))); [|lia].
  apply sum_sizes_nonneg, Forall_take, Forall_drop, Hl.
Qed.

Lemma split_sizes_app l1 l2 bs :
  Forall (fun s => 0 <= s) l1 ->
  split_sizes (l1 ++ l2) bs
  = split_sizes l1 bs ++ split_sizes l2 (drop (Z.to_nat (sum_sizes l1)) bs).
Proof.
  intros Hl1. revert bs. induction Hl1 as [|x l1 Hx Hl1 IH]; intros bs.
  - reflexivity.
  - cbn [app split_sizes]. rewrite IH. f_equal. f_equal. f_equal.
    rewrite drop_drop. f_equal.
    pose proof (sum_sizes_nonneg _ Hl1).
    unfold sum_sizes in *. simpl. lia.
Qed.

Lemma split_sizes_take_S (szs : list Z) i s bs :
  Forall (fun s => 0 <= s) szs ->
  szs !! i = Some s ->
  split_sizes (take (S i) szs) bs
  = split_sizes (take i szs) bs
    ++ [take (Z.to_nat s) (drop (Z.to_nat (sum_sizes (take i szs))) bs)].
Proof.
  intros Hszs Hs. rewrite (take_S_r _ _ _ Hs).
  rewrite split_sizes_app by (apply Forall_take, Hszs). reflexivity.
Qed.

(** ** The loop invariant *)

Lemma loop_inv_owns h0 sd szl dsl tl ne szs dl dbs (h : heap) :
  loop_inv h0 sd szl dsl tl ne szs dl dbs h ->
  owns_table h sd (Build_wim_security_data tl ne (Some szl) (Some dsl) 1)
    ((Some <$> dl) ++ replicate (Z.to_nat ne - length dl) None).
Proof.
  intros [Hsd Hsz Hds Hlen Hbytes Hnd Hframe].
  split; cbn [descriptors sizes num_entries];
    unfold owned_blocks; cbn [descriptors sizes ptr_locs app];
    rewrite ?omap_id_ptrs.
  - exact Hsd.
  - split; [exact Hds|].
    rewrite length_app, length_fmap, length_replicate. lia.
  - exact Hnd.
  - apply Forall_app. split.
    + clear -Hbytes. induction Hbytes as [|l bs dl dbs Hl _ IH]; constructor.
      * rewrite Hl. eexists; reflexivity.
      * exact IH.
    + repeat constructor; [rewrite Hsz | rewrite Hds | rewrite Hsd];
        eexists; reflexivity.
Qed.

Lemma out_free_sd_inv h0 sd szl dsl tl ne szs dl dbs (h : heap) r :
  loop_inv h0 sd szl dsl tl ne szs dl dbs h ->
  out_free_sd sd r h = Done r h0.
Proof.
  intros Hinv. pose proof (loop_inv_owns _ _ _ _ _ _ _ _ _ _ Hinv) as Hown.
  unfold out_free_sd.
  rewrite (bind_Done _ _ _ _ _ (free_security_data_last _ _ _ _ Hown eq_refl)).
  unfold owned_blocks. cbn [descriptors sizes ptr_locs app].
  rewrite omap_id_ptrs. rewrite (inv_frame _ _ _ _ _ _ _ _ _ _ Hinv).
  reflexivity.
Qed.

Lemma loop_inv_live h0 sd szl dsl tl ne szs dl dbs (h : heap) :
  loop_inv h0 sd szl dsl tl ne szs dl dbs h ->
  forall l, l ∈ dl ++ [szl; dsl; sd] -> is_Some (h !! l).
Proof.
  intros Hinv l Hl.
  pose proof (owns_live _ _ _ _ (loop_inv_owns _ _ _ _ _ _ _ _ _ _ Hinv)) as Hlive.
  unfold owned_blocks in Hlive. cbn [descriptors sizes ptr_locs app] in Hlive.
  rewrite omap_id_ptrs in Hlive. rewrite Forall_forall in Hlive.
  apply Hlive, Hl.
Qed.

(** Blocks of the initial heap are not touched. *)
Lemma loop_inv_outside h0 sd szl dsl tl ne szs dl dbs (h : heap) l :
  loop_inv h0 sd szl dsl tl ne szs dl dbs h ->
  h0 !! l <> None ->
  (l ∉ dl ++ [szl; dsl; sd]) /\ h !! l = h0 !! l.
Proof.
  intros Hinv Hl. pose proof (inv_frame _ _ _ _ _ _ _ _ _ _ Hinv) as Hframe.
  rewrite <- Hframe in Hl. rewrite <- Hframe.
  rewrite lookup_free_all in Hl. rewrite lookup_free_all.
  destruct (decide (l ∈ dl ++ [szl; dsl; sd])) as [Hin|Hnin]; [congruence|].
  split; [exact Hnin | reflexivity].
Qed.

(** One more descriptor: a fresh block [d] is linked in slot [length dl] and
    filled with [bs]. *)
Lemma loop_inv_step h0 sd szl dsl tl ne szs dl dbs (h : heap) d s bs :
  loop_inv h0 sd szl dsl tl ne szs dl dbs h ->
  (length dl < Z.to_nat ne)%nat ->
  h !! d = None ->
  loop_inv h0 sd szl dsl tl ne szs (dl ++ [d]) (dbs ++ [bs])
    (<[d:=BBytes bs]>
       (<[dsl:=BPtrs (<[length dl:=Some d]>
                 ((Some <$> dl) ++ replicate (Z.to_nat ne - length dl) None))]>
          (<[d:=BUninit s]> h))).
Proof.
  intros Hinv Hlt Hd.
  pose proof (loop_inv_live _ _ _ _ _ _ _ _ _ _ Hinv) as Hlive.
  assert (Hdnin : d ∉ dl ++ [szl; dsl; sd]).
  { intros Hin. apply Hlive in Hin as [b Hb]. congruence. }
  destruct Hinv as [Hsd Hsz Hds Hlen Hbytes Hnd Hframe].
  assert (Hd_sd : d <> sd) by (intros ->; congruence).
  assert (Hd_sz : d <> szl) by (intros ->; congruence).
  assert (Hd_ds : d <> dsl) by (intros ->; congruence).
  assert (Hds_sd : dsl <> sd) by (intros ->; congruence).
  assert (Hds_sz : dsl <> szl) by (intros ->; congruence).
  split.
  - rewrite !lookup_insert_ne by congruence. exact Hsd.
  - rewrite !lookup_insert_ne by congruence. exact Hsz.
  - rewrite lookup_insert_ne, lookup_insert_eq by congruence.
    replace (Z.to_nat ne - length dl)%nat
      with (S (Z.to_nat ne - length (dl ++ [d])))%nat
      by (rewrite length_app; simpl; lia).
    rewrite ptrs_insert_next. reflexivity.
  - rewrite length_app. simpl. lia.
  - apply Forall2_app.
    + eapply Forall2_impl; [exact Hbytes|]. intros l bs' Hl. cbv beta in *.
      rewrite !lookup_insert_ne by (intros ->; congruence). exact Hl.
    + constructor; [|constructor]. apply lookup_insert_eq.
  - rewrite <- app_assoc. cbn [app].
    apply NoDup_app in Hnd as (Hnd1 & Hdisj & Hnd2).
    apply NoDup_app. split; [exact Hnd1|]. split.
    + intros x Hx Hin. apply elem_of_cons in Hin as [->|Hin].
      * apply Hdnin, elem_of_app. left. exact Hx.
      * exact (Hdisj x Hx Hin).
    + apply NoDup_cons. split; [|exact Hnd2].
      intros Hin. apply Hdnin, elem_of_app. right. exact Hin.
  - rewrite <- Hframe. apply map_eq. intros k. rewrite !lookup_free_all.
    destruct (decide (k ∈ (dl ++ [d]) ++ [szl; dsl; sd])) as [Hin|Hnin];
      destruct (decide (k ∈ dl ++ [szl; dsl; sd])) as [Hin'|Hnin'];
      try reflexivity.
    + assert (k = d) as ->; [|symmetry; exact Hd].
      rewrite !elem_of_app in Hin. rewrite elem_of_app in Hnin'.
      destruct Hin as [[Hin|Hin]|Hin]; try tauto.
      apply list_elem_of_singleton in Hin. exact Hin.
    + exfalso. apply Hnin. rewrite !elem_of_app. rewrite elem_of_app in Hin'.
      tauto.
    + assert (k <> d).
      { intros ->. apply Hnin. rewrite !elem_of_app.
        left. right. apply list_elem_of_here. }
      assert (k <> dsl).
      { intros ->. apply Hnin'. rewrite elem_of_app. right.
        apply list_elem_of_further, list_elem_of_here. }
      rewrite !lookup_insert_ne by congruence. reflexivity.
Qed.

(** ** The loop of read_security_data *)

Lemma store_ptr_eq (h : heap) l v i p :
  h !! l = Some (BPtrs v) ->
  (i < length v)%nat ->
  store_ptr (Some l) (Z.of_nat i) p h = Done tt (<[l:=BPtrs (<[i:=p]> v)]> h).
Proof.
  intros Hl Hi. unfold store_ptr. rewrite Hl.
  replace (Z.of_nat i <? Z.of_nat (length v)) with true
    by (symmetry; apply Z.ltb_lt; lia).
  rewrite Nat2Z.id. reflexivity.
Qed.

Lemma get_bytes_eq buf p n (h : heap) :
  p + n <= Z.of_nat (length buf) ->
  get_bytes buf p n h = Done (take (Z.to_nat n) (drop (Z.to_nat p) buf)) h.
Proof.
  intros Hle. unfold get_bytes.
  replace (p + n <=? Z.of_nat (length buf)) with true
    by (symmetry; apply Z.leb_le; lia).
  reflexivity.
Qed.

Lemma get_bytes_undefined buf p n (h : heap) :
  Z.of_nat (length buf) < p + n ->
  get_bytes buf p n h = Undefined.
Proof.
  intros Hlt. unfold get_bytes.
  replace (p + n <=? Z.of_nat (length buf)) with false
    by (symmetry; apply Z.leb_gt; lia).
  reflexivity.
Qed.

Lemma MALLOC_Some (h : heap) n l :
  malloc h n = Some l -> MALLOC malloc n h = Done (Some l) (<[l:=BUninit n]> h).
Proof. intros Hm. unfold MALLOC. rewrite Hm. reflexivity. Qed.

Lemma MALLOC_None (h : heap) n :
  malloc h n = None -> MALLOC malloc n h = Done None h.
Proof. intros Hm. unfold MALLOC. rewrite Hm. reflexivity. Qed.

(** The overflow test has no effect. *)
Lemma overflow_test_skip {A} (b : bool) (k : unit -> M A) (h : heap) :
  bind (if b then ERROR else ret tt) k h = k tt h.
Proof. destruct b; reflexivity. Qed.

Lemma acc_from_S base (szs : list Z) i s :
  szs !! i = Some s -> acc_from base szs (S i) = acc_from base szs i + s.
Proof. intros Hs. unfold acc_from. rewrite (sum_sizes_take_S _ _ _ Hs). lia. Qed.

Lemma loop_result_weaken buf h0 sd szl dsl sd_p tl ne szs i i' o :
  (i <= i')%nat ->
  loop_result malloc buf h0 sd szl dsl sd_p tl ne szs i' o ->
  loop_result malloc buf h0 sd szl dsl sd_p tl ne szs i o.
Proof.
  intros Hi [h n Hm | j Hj Ha1 Ha2 | j Hj Ha1 Ha2 | dl hf Ha Hf Hl].
  - exact (LR_nomem _ _ _ _ _ _ _ _ _ _ _ h n Hm).
  - apply (LR_overrun _ _ _ _ _ _ _ _ _ _ _ j); [lia|assumption..].
  - apply (LR_wrapped _ _ _ _ _ _ _ _ _ _ _ j); [lia|assumption..].
  - apply LR_success with (dl := dl); assumption.
Qed.

Lemma read_descriptors_cases buf h0 sd szl dsl sd_p tl ne szs :
  Z.of_nat (length buf) < U64_MODULUS ->
  tl <= Z.of_nat (length buf) ->
  tl < U32_MODULUS ->
  0 <= ne ->
  length szs = Z.to_nat ne ->
  Forall (fun s => 0 <= s < U64_MODULUS) szs ->
  h0 !! sd_p <> None ->
  forall n dl (h : heap),
    loop_inv h0 sd szl dsl tl ne szs dl
      (split_sizes (take (length dl) szs) (drop (Z.to_nat (8 + 8 * ne)) buf)) h ->
    (length dl + n = Z.to_nat ne)%nat ->
    acc_from (8 + 8 * ne) szs (length dl) <= tl ->
    loop_result malloc buf h0 sd szl dsl sd_p tl ne szs (length dl)
      (read_descriptors malloc buf sd sd_p n (Z.of_nat (length dl))
         (acc_from (8 + 8 * ne) szs (length dl))
         (acc_from (8 + 8 * ne) szs (length dl)) h).
Proof.
  intros Hbuf Htl Htl32 Hne Hlen Hszs Hsd_p.
  assert (Hnonneg : Forall (fun s => 0 <= s) szs).
  { eapply Forall_impl; [exact Hszs|]. intros s Hs. cbv beta in Hs. lia. }
  induction n as [|n IH]; intros dl h Hinv Hn Hacc.
  - (* the label out *)
    assert (Hdl : length dl = Z.to_nat ne) by lia.
    rewrite Hdl in *. rewrite take_ge in Hinv by lia.
    cbn [read_descriptors]. unfold out.
    pose proof (inv_sd _ _ _ _ _ _ _ _ _ _ Hinv) as Hsd.
    destruct (loop_inv_outside _ _ _ _ _ _ _ _ _ _ sd_p Hinv Hsd_p) as [Hout Hlk].
    rewrite (bind_Done _ _ _ _ _ (load_sd_eq h sd _ Hsd)).
    cbn [num_entries sizes descriptors refcnt].
    assert (Hne_p : sd <> sd_p).
    { intros ->. apply Hout. rewrite elem_of_app. right.
      do 2 apply list_elem_of_further. apply list_elem_of_here. }
    erewrite bind_Done; [|apply store_eq; rewrite Hsd; eexists; reflexivity].
    erewrite bind_Done;
      [|apply store_eq; rewrite lookup_insert_ne, Hlk by exact Hne_p;
        destruct (h0 !! sd_p); [eexists; reflexivity | congruence]].
    unfold ret, to_u32.
    assert (0 <= sum_sizes (take (Z.to_nat ne) szs))
      by (apply sum_sizes_nonneg, Forall_take, Hnonneg).
    rewrite Z.mod_small by (unfold acc_from in *; lia).
    apply LR_success with (dl := dl); assumption.
  - (* one iteration *)
    destruct (lookup_lt_is_Some_2 szs (length dl) ltac:(lia)) as [s Hs].
    pose proof (proj1 (Forall_lookup _ _) Hszs _ _ Hs) as Hs64. cbv beta in Hs64.
    assert (Hsum : 0 <= sum_sizes (take (length dl) szs))
      by (apply sum_sizes_nonneg, Forall_take, Hnonneg).
    pose proof (acc_from_S (8 + 8 * ne) szs _ s Hs) as HaccS.
    pose proof Hinv as [Hsd Hsz Hds Hdl_len Hbytes Hnd Hframe].
    cbn [read_descriptors].
    rewrite (bind_Done _ _ _ _ _ (load_sd_eq h sd _ Hsd)).
    cbn [total_length sizes descriptors].
    rewrite (bind_Done _ _ _ _ _ (load_u64_eq h szl szs _ s Hsz
               ltac:(rewrite Nat2Z.id; exact Hs))).
    rewrite overflow_test_skip. cbv zeta.
    assert (Hslot : (length dl <
      length ((Some <$> dl) ++ replicate (Z.to_nat ne - length dl) (None : ptr)))%nat).
    { rewrite length_app, length_fmap, length_replicate. lia. }
    assert (Hnomem : malloc h s = None ->
      (do d <- MALLOC malloc s;
       store_ptr (Some dsl) (Z.of_nat (length dl)) d ;;;
       match d with
       | None => out_free_sd sd WIMLIB_ERR_NOMEM
       | Some dl0 =>
           do bs <- get_bytes buf (acc_from (8 + 8 * ne) szs (length dl)) s;
           store dl0 (BBytes bs) ;;;
           read_descriptors malloc buf sd sd_p n (Z.of_nat (length dl) + 1)
             (acc_from (8 + 8 * ne) szs (length dl) + s)
             (u64_add (acc_from (8 + 8 * ne) szs (length dl)) s)
       end) h = Done WIMLIB_ERR_NOMEM h0).
    { intros Hm.
      rewrite (bind_Done _ _ _ _ _ (MALLOC_None h s Hm)).
      rewrite (bind_Done _ _ _ _ _ (store_ptr_eq h dsl _ _ None Hds Hslot)).
      rewrite list_insert_id
        by (replace (Z.to_nat ne - length dl)%nat
              with (S (Z.to_nat ne - S (length dl)))%nat by lia;
            apply ptrs_lookup_next).
      rewrite (insert_id h dsl _ Hds).
      exact (out_free_sd_inv _ _ _ _ _ _ _ _ _ _ _ Hinv). }
    destruct (Z_lt_ge_dec (acc_from (8 + 8 * ne) szs (length dl) + s) U64_MODULUS)
      as [Hnowrap|Hwrap].
    + (* the sum is exact *)
      assert (Hadd : u64_add (acc_from (8 + 8 * ne) szs (length dl)) s
                     = acc_from (8 + 8 * ne) szs (S (length dl))).
      { unfold u64_add. rewrite Z.mod_small; [lia|]. unfold acc_from in *. lia. }
      rewrite Hadd.
      destruct (Z.gtb_spec (acc_from (8 + 8 * ne) szs (S (length dl))) tl)
        as [Hgt|Hle].
      * rewrite (out_free_sd_inv _ _ _ _ _ _ _ _ _ _ _ Hinv).
        apply (LR_overrun _ _ _ _ _ _ _ _ _ _ _ (length dl)); lia.
      * destruct (malloc h s) as [d|] eqn:Hm.
        2:{ rewrite <- Hadd. rewrite (Hnomem eq_refl).
            exact (LR_nomem _ _ _ _ _ _ _ _ _ _ _ h s Hm). }
        pose proof (malloc_fresh _ _ _ Hm) as Hd.
        assert (Hd_ds : d <> dsl) by (intros ->; congruence).
        rewrite (bind_Done _ _ _ _ _ (MALLOC_Some h s d Hm)).
        erewrite bind_Done;
          [|apply store_ptr_eq;
            [rewrite lookup_insert_ne by exact Hd_ds; exact Hds | exact Hslot]].
        erewrite bind_Done; [|apply get_bytes_eq; lia].
        erewrite bind_Done;
          [|apply store_eq; rewrite lookup_insert_ne, lookup_insert_eq by congruence;
            eexists; reflexivity].
        pose proof (loop_inv_step _ _ _ _ _ _ _ _ _ _ d s
          (take (Z.to_nat s)
             (drop (Z.to_nat (acc_from (8 + 8 * ne) szs (length dl))) buf))
          Hinv ltac:(lia) Hd) as Hinv'.
        rewrite <- HaccS.
        replace (Z.of_nat (length dl) + 1) with (Z.of_nat (length (dl ++ [d])))
          by (rewrite length_app; simpl; lia).
        replace (S (length dl)) with (length (dl ++ [d])) in *
          by (rewrite length_app; simpl; lia).
        assert (Hres : loop_result malloc buf h0 sd szl dsl sd_p tl ne szs
                  (length (dl ++ [d]))
                  (read_descriptors malloc buf sd sd_p n
                     (Z.of_nat (length (dl ++ [d])))
                     (acc_from (8 + 8 * ne) szs (length (dl ++ [d])))
                     (acc_from (8 + 8 * ne) szs (length (dl ++ [d])))
                     (<[d:=BBytes (take (Z.to_nat s)
                          (drop (Z.to_nat (acc_from (8 + 8 * ne) szs (length dl))) buf))]>
                        (<[dsl:=BPtrs (<[length dl:=Some d]>
                            ((Some <$> dl) ++ replicate (Z.to_nat ne - length dl) None))]>
                           (<[d:=BUninit s]> h))))).
        { apply IH.
          - replace (length (dl ++ [d])) with (S (length dl))
              by (rewrite length_app; simpl; lia).
            rewrite (split_sizes_take_S _ _ _ _ Hnonneg Hs).
            rewrite drop_drop.
            replace (Z.to_nat (8 + 8 * ne) + Z.to_nat (sum_sizes (take (length dl) szs)))%nat
              with (Z.to_nat (acc_from (8 + 8 * ne) szs (length dl)))
              by (unfold acc_from; lia).
            exact Hinv'.
          - rewrite length_app. simpl. lia.
          - lia. }
        assert (Hlen' : length (dl ++ [d]) = S (length dl))
          by (rewrite length_app; simpl; lia).
        revert Hres. apply loop_result_weaken. lia.
    + (* the sum wraps around: the test of the total length passes *)
      assert (Hadd : u64_add (acc_from (8 + 8 * ne) szs (length dl)) s
                     = acc_from (8 + 8 * ne) szs (length dl) + s - U64_MODULUS).
      { unfold u64_add.
        rewrite <- (Z.mod_small (acc_from (8 + 8 * ne) szs (length dl) + s - U64_MODULUS)
                      U64_MODULUS) by (unfold acc_from, U64_MODULUS, U32_MODULUS in *; lia).
        replace (acc_from (8 + 8 * ne) szs (length dl) + s)
          with (acc_from (8 + 8 * ne) szs (length dl) + s - U64_MODULUS
                + 1 * U64_MODULUS) at 1 by lia.
        apply Z.mod_add. unfold U64_MODULUS. lia. }
      replace (u64_add (acc_from (8 + 8 * ne) szs (length dl)) s >? tl) with false
        by (symmetry; rewrite Hadd, Z.gtb_ltb; apply Z.ltb_ge;
            unfold U64_MODULUS in *; lia).
      destruct (malloc h s) as [d|] eqn:Hm.
      2:{ rewrite (Hnomem eq_refl).
          exact (LR_nomem _ _ _ _ _ _ _ _ _ _ _ h s Hm). }
      pose proof (malloc_fresh _ _ _ Hm) as Hd.
      assert (Hd_ds : d <> dsl) by (intros ->; congruence).
      rewrite (bind_Done _ _ _ _ _ (MALLOC_Some h s d Hm)).
      erewrite bind_Done;
        [|apply store_ptr_eq;
          [rewrite lookup_insert_ne by exact Hd_ds; exact Hds | exact Hslot]].
      unfold bind at 1. rewrite get_bytes_undefined by lia.
      apply (LR_wrapped _ _ _ _ _ _ _ _ _ _ _ (length dl)); lia.
Qed.

(** ** The header of the buffer *)

Lemma le_to_Z_take_range n (bs : list byte) :
  0 <= le_to_Z (take n bs) < 256 ^ Z.of_nat n.
Proof.
  pose proof (le_to_Z_range (take n bs)) as Hr.
  assert (256 ^ Z.of_nat (length (take n bs)) <= 256 ^ Z.of_nat n).
  { apply Z.pow_le_mono_r; [lia|]. rewrite length_take. lia. }
  lia.
Qed.

Lemma hdr_total_length_u32 buf : is_u32 (hdr_total_length buf).
Proof. apply (le_to_Z_take_range 4). Qed.

Lemma hdr_num_entries_u32 buf : is_u32 (hdr_num_entries buf).
Proof. apply (le_to_Z_take_range 4). Qed.

Lemma le64_array_length n bs : length (le64_array n bs) = n.
Proof.
  revert bs. induction n as [|n IH]; intros bs; simpl; [|rewrite IH]; reflexivity.
Qed.

Lemma le64_array_range n bs :
  Forall (fun s => 0 <= s < U64_MODULUS) (le64_array n bs).
Proof.
  revert bs. induction n as [|n IH]; intros bs; simpl; constructor.
  - apply (le_to_Z_take_range 8).
  - apply IH.
Qed.

Lemma hdr_sizes_length buf :
  length (hdr_sizes buf) = Z.to_nat (hdr_num_entries buf).
Proof. apply le64_array_length. Qed.

Lemma hdr_sizes_range buf :
  Forall (fun s => 0 <= s < U64_MODULUS) (hdr_sizes buf).
Proof. apply le64_array_range. Qed.

Lemma accumulated_mono buf i j :
  (i <= j)%nat -> accumulated buf i <= accumulated buf j.
Proof.
  intros Hij. unfold accumulated.
  assert (sum_sizes (take i (hdr_sizes buf)) <= sum_sizes (take j (hdr_sizes buf)));
    [|lia].
  apply sum_sizes_take_mono; [|exact Hij].
  eapply Forall_impl; [apply hdr_sizes_range|]. intros s Hs. cbv beta in Hs. lia.
Qed.

Lemma get_u32_eq buf p (h : heap) :
  0 <= p -> p + 4 <= Z.of_nat (length buf) ->
  get_u32 buf p h = Done (le_to_Z (take 4 (drop (Z.to_nat p) buf))) h.
Proof.
  intros Hp Hle. unfold get_u32.
  rewrite (bind_Done _ _ _ _ _ (get_bytes_eq buf p 4 h Hle)). reflexivity.
Qed.

(** ** Leaving read_security_data *)

Lemma frame_intro ls (h h0 : heap) :
  (forall k, k ∈ ls -> h0 !! k = None) ->
  (forall k, k ∉ ls -> h !! k = h0 !! k) ->
  free_all ls h = h0.
Proof.
  intros Hin Hout. apply map_eq. intros k. rewrite lookup_free_all.
  destruct (decide (k ∈ ls)) as [Hk|Hk]; [symmetry; apply Hin, Hk | apply Hout, Hk].
Qed.

Lemma out_free_sd_owned (h h0 : heap) sd s ptrs r :
  owns_table h sd s ptrs ->
  refcnt s = 1 ->
  free_all (owned_blocks sd s ptrs) h = h0 ->
  out_free_sd sd r h = Done r h0.
Proof.
  intros Hown Hrc Hframe. unfold out_free_sd.
  rewrite (bind_Done _ _ _ _ _ (free_security_data_last _ _ _ _ Hown Hrc)).
  rewrite Hframe. reflexivity.
Qed.

(** Failure before the array of pointers exists: the table owns itself and
    perhaps the array of sizes. *)
Lemma out_free_sd_early (h0 : heap) sd tl ne sz b r :
  h0 !! sd = None ->
  match sz with Some szl => h0 !! szl = None /\ szl <> sd | None => True end ->
  out_free_sd sd r
    (<[sd:=BSecData (Build_wim_security_data tl ne sz None 1)]>
       (match sz with Some szl => <[szl:=b]> h0 | None => h0 end))
  = Done r h0.
Proof.
  intros Hsd Hsz.
  apply out_free_sd_owned with
    (s := Build_wim_security_data tl ne sz None 1) (ptrs := []).
  - split; cbn [descriptors sizes owned_blocks omap].
    + apply lookup_insert_eq.
    + reflexivity.
    + unfold owned_blocks. cbn [descriptors sizes ptr_locs omap list_omap app].
      destruct sz as [szl|]; cbn [ptr_locs app].
      * destruct Hsz as [_ Hne]. apply NoDup_cons. split.
        -- intros Hin. apply list_elem_of_singleton in Hin. contradiction.
        -- apply NoDup_singleton.
      * apply NoDup_singleton.
    + unfold owned_blocks. cbn [descriptors sizes ptr_locs omap list_omap app].
      destruct sz as [szl|]; cbn [ptr_locs app].
      * destruct Hsz as [_ Hne]. repeat constructor.
        -- rewrite lookup_insert_ne, lookup_insert_eq by congruence.
           eexists; reflexivity.
        -- rewrite lookup_insert_eq. eexists; reflexivity.
      * repeat constructor. rewrite lookup_insert_eq. eexists; reflexivity.
  - reflexivity.
  - unfold owned_blocks. cbn [descriptors sizes ptr_locs omap list_omap app].
    apply frame_intro.
    + intros k Hk. destruct sz as [szl|]; cbn [ptr_locs app] in Hk.
      * destruct Hsz as [Hszl _].
        apply elem_of_cons in Hk as [->|Hk]; [exact Hszl|].
        apply list_elem_of_singleton in Hk as ->. exact Hsd.
      * apply list_elem_of_singleton in Hk as ->. exact Hsd.
    + intros k Hk. destruct sz as [szl|]; cbn [ptr_locs app] in Hk.
      * apply not_elem_of_cons in Hk as [Hk1 Hk].
        apply not_elem_of_cons in Hk as [Hk2 _].
        rewrite !lookup_insert_ne by congruence. reflexivity.
      * apply not_elem_of_cons in Hk as [Hk1 _].
        rewrite !lookup_insert_ne by congruence. reflexivity.
Qed.

(** The table that a completed loop leaves in the heap. *)
Lemma table_at_final h0 sd szl dsl sd_p tl ne szs dl dbs (hf : heap) t :
  loop_inv h0 sd szl dsl tl ne szs dl dbs hf ->
  length dl = Z.to_nat ne ->
  sd_p ∉ dl ++ [szl; dsl; sd] ->
  table_at
    (<[sd_p:=BSdPtr (Some sd)]>
       (<[sd:=BSecData (Build_wim_security_data t ne (Some szl) (Some dsl) 1)]> hf))
    sd
  = Some (Build_sd_table t ne szs dbs).
Proof.
  intros [Hsd Hsz Hds Hlen Hbytes Hnd Hframe] Hdl Hout.
  rewrite elem_of_app in Hout.
  assert (Hp_sd : sd_p <> sd).
  { intros ->. apply Hout. right. do 2 apply list_elem_of_further.
    apply list_elem_of_here. }
  assert (Hp_ds : sd_p <> dsl).
  { intros ->. apply Hout. right. apply list_elem_of_further, list_elem_of_here. }
  assert (Hp_sz : sd_p <> szl).
  { intros ->. apply Hout. right. apply list_elem_of_here. }
  assert (Hsd_ds : sd <> dsl) by (intros ->; congruence).
  assert (Hsd_sz : sd <> szl) by (intros ->; congruence).
  unfold table_at.
  rewrite lookup_insert_ne, lookup_insert_eq by exact Hp_sd.
  cbn [sizes descriptors total_length num_entries sizes_at descriptors_at].
  rewrite !(lookup_insert_ne _ _ szl), Hsz by congruence.
  rewrite !(lookup_insert_ne _ _ dsl), Hds by congruence.
  rewrite Hdl, Nat.sub_diag, app_nil_r.
  erewrite mapM_Some_2; [reflexivity|].
  apply Forall2_fmap_l.
  assert (Hdl_p : sd_p ∉ dl) by tauto.
  clear -Hbytes Hsd Hdl_p.
  induction Hbytes as [|l bs dl dbs Hl _ IH]; constructor.
  - apply not_elem_of_cons in Hdl_p as [Hne _].
    unfold compose. cbn [bytes_at].
    rewrite !lookup_insert_ne, Hl by (try congruence; intros ->; congruence).
    reflexivity.
  - apply IH. apply not_elem_of_cons in Hdl_p as [_ Hnin]. exact Hnin.
Qed.

(** ** Every run of read_security_data *)

Ltac heap_lookup :=
  repeat first [rewrite lookup_insert_eq | rewrite lookup_insert_ne by congruence].

Ltac heap_live := heap_lookup; eexists; reflexivity.

Lemma accumulated_acc_from buf k :
  accumulated buf k = acc_from (8 + 8 * hdr_num_entries buf) (hdr_sizes buf) k.
Proof. reflexivity. Qed.

Theorem read_security_data_cases buf len sd_p (h0 : heap) :
  8 <= Z.of_nat (length buf) ->
  len <= Z.of_nat (length buf) ->
  Z.of_nat (length buf) < U64_MODULUS ->
  h0 !! sd_p <> None ->
  read_result malloc buf len sd_p h0 (read_security_data malloc buf len sd_p h0).
Proof.
  intros H8 Hlen Hbuf Hp.
  pose proof (hdr_total_length_u32 buf) as [Htl0 Htl32].
  pose proof (hdr_num_entries_u32 buf) as [Hne0 Hne32].
  unfold read_security_data.
  destruct (malloc h0 SIZEOF_SD) as [sd|] eqn:Hm.
  2:{ rewrite (bind_Done _ _ _ _ _ (MALLOC_None _ _ Hm)).
      exact (RR_nomem _ _ _ _ _ h0 _ Hm). }
  pose proof (malloc_fresh _ _ _ Hm) as Hsd.
  assert (Hsd_p : sd <> sd_p) by (intros ->; congruence).
  rewrite (bind_Done _ _ _ _ _ (MALLOC_Some _ _ _ Hm)).
  erewrite bind_Done; [|apply get_u32_eq; lia].
  erewrite bind_Done; [|apply get_u32_eq; lia].
  change (Z.to_nat 0) with 0%nat. change (Z.to_nat 4) with 4%nat. rewrite drop_0.
  fold (hdr_total_length buf). fold (hdr_num_entries buf).
  erewrite bind_Done; [|apply store_eq; heap_live].
  rewrite insert_insert_eq.
  erewrite bind_Done; [|apply load_sd_eq, lookup_insert_eq].
  cbn [total_length num_entries]. cbv zeta.
  destruct (Z.gtb_spec (hdr_total_length buf) len) as [Hgt|Hle].
  { pose proof (out_free_sd_early h0 sd (hdr_total_length buf)
                  (hdr_num_entries buf) None (BUninit 0)
                  WIMLIB_ERR_INVALID_RESOURCE_SIZE Hsd I) as Hfree.
    cbv iota in Hfree. rewrite Hfree. apply RR_too_long. lia. }
  destruct (Z.eqb_spec (hdr_num_entries buf) 0) as [Hz|Hnz].
  { (* no security data *)
    unfold out.
    erewrite bind_Done; [|apply load_sd_eq, lookup_insert_eq].
    cbn [num_entries sizes descriptors refcnt].
    erewrite bind_Done; [|apply store_eq; heap_live].
    rewrite insert_insert_eq.
    erewrite bind_Done;
      [|apply store_eq; rewrite lookup_insert_ne by exact Hsd_p;
        destruct (h0 !! sd_p); [eexists; reflexivity | congruence]].
    unfold ret. change (to_u32 8) with 8.
    apply RR_success with (sd := sd).
    - exact Hle.
    - intros k Hk. contradiction.
    - exact Hsd.
    - apply lookup_insert_eq.
    - intros l Hl Hlp.
      rewrite !lookup_insert_ne by congruence. reflexivity.
    - eexists. split; [heap_lookup; reflexivity | reflexivity].
    - unfold table_at. heap_lookup.
      cbn [sizes descriptors total_length num_entries sizes_at descriptors_at].
      unfold accumulated, hdr_descriptors, hdr_sizes. rewrite Hz. reflexivity. }
  unfold SIZEOF_U64, SIZEOF_PTR.
  rewrite (Z.mod_small (hdr_num_entries buf * 8))
    by (unfold U64_MODULUS, U32_MODULUS in *; lia).
  assert (Hbase : u64_add 8 (hdr_num_entries buf * 8) = accumulated buf 0).
  { unfold u64_add, accumulated. rewrite take_0.
    rewrite Z.mod_small by (unfold U64_MODULUS, U32_MODULUS in *; lia).
    unfold sum_sizes. simpl. lia. }
  assert (Hp0 : 8 + hdr_num_entries buf * 8 = accumulated buf 0).
  { unfold accumulated. rewrite take_0. unfold sum_sizes. simpl. lia. }
  rewrite Hbase, Hp0.
  destruct (Z.gtb_spec (accumulated buf 0) (hdr_total_length buf)) as [Hgt|Hle0].
  { pose proof (out_free_sd_early h0 sd (hdr_total_length buf)
                  (hdr_num_entries buf) None (BUninit 0)
                  WIMLIB_ERR_INVALID_RESOURCE_SIZE Hsd I) as Hfree.
    cbv iota in Hfree. rewrite Hfree.
    apply (RR_overrun _ _ _ _ _ 0%nat); try lia.
    rewrite <- Hp0. unfold U64_MODULUS, U32_MODULUS in *. lia. }
  set (S0 := Build_wim_security_data (hdr_total_length buf) (hdr_num_entries buf)
               None None 1).
  destruct (malloc (<[sd:=BSecData S0]> h0) (hdr_num_entries buf * 8))
    as [szl|] eqn:Hm2.
  2:{ rewrite (bind_Done _ _ _ _ _ (MALLOC_None _ _ Hm2)).
      erewrite bind_Done; [|apply store_eq; heap_live].
      rewrite insert_insert_eq.
      pose proof (out_free_sd_early h0 sd (hdr_total_length buf)
                    (hdr_num_entries buf) None (BUninit 0)
                    WIMLIB_ERR_NOMEM Hsd I) as Hfree.
      cbv iota in Hfree. rewrite Hfree.
      exact (RR_nomem _ _ _ _ _ _ _ Hm2). }
  pose proof (malloc_fresh _ _ _ Hm2) as Hszl.
  assert (Hszl_sd : szl <> sd).
  { intros ->. rewrite lookup_insert_eq in Hszl. discriminate. }
  rewrite lookup_insert_ne in Hszl by congruence.
  rewrite (bind_Done _ _ _ _ _ (MALLOC_Some _ _ _ Hm2)).
  erewrite bind_Done; [|apply store_eq; heap_live].
  erewrite bind_Done;
    [|apply get_bytes_eq; unfold accumulated in Hle0;
      pose proof (sum_sizes_nonneg (take 0 (hdr_sizes buf)) ltac:(rewrite take_0; constructor));
      lia].
  erewrite bind_Done; [|apply store_eq; heap_live].
  change (Z.to_nat 8) with 8%nat. fold (hdr_sizes buf).
  set (S1 := Build_wim_security_data (hdr_total_length buf) (hdr_num_entries buf)
               (Some szl) None 1).
  match goal with
  | |- read_result _ _ _ _ _ (bind (CALLOC _ _ _) _ ?h) => set (h4 := h)
  end.
  assert (Hh4 : h4 = <[sd:=BSecData S1]> (<[szl:=BU64s (hdr_sizes buf)]> h0)).
  { subst h4. apply map_eq. intros k.
    destruct (decide (k = sd)) as [->|Hk1]; [heap_lookup; reflexivity|].
    destruct (decide (k = szl)) as [->|Hk2]; heap_lookup; reflexivity. }
  clearbody h4. subst h4.
  unfold CALLOC.
  rewrite (Z.mod_small (hdr_num_entries buf * 8))
    by (unfold U64_MODULUS, U32_MODULUS in *; lia).
  destruct (malloc (<[sd:=BSecData S1]> (<[szl:=BU64s (hdr_sizes buf)]> h0))
              (hdr_num_entries buf * 8)) as [dsl|] eqn:Hm3.
  2:{ erewrite (bind_Done (bind _ _));
        [|rewrite (bind_Done _ _ _ _ _ (MALLOC_None _ _ Hm3)); unfold ret; reflexivity].
      erewrite bind_Done; [|apply store_eq; heap_live].
      rewrite insert_insert_eq.
      pose proof (out_free_sd_early h0 sd (hdr_total_length buf)
                    (hdr_num_entries buf) (Some szl) (BU64s (hdr_sizes buf))
                    WIMLIB_ERR_NOMEM Hsd (conj Hszl Hszl_sd)) as Hfree.
      cbv iota in Hfree. rewrite Hfree.
      exact (RR_nomem _ _ _ _ _ _ _ Hm3). }
  pose proof (malloc_fresh _ _ _ Hm3) as Hdsl.
  assert (Hdsl_sd : dsl <> sd).
  { intros ->. rewrite lookup_insert_eq in Hdsl. discriminate. }
  assert (Hdsl_sz : dsl <> szl).
  { intros ->. rewrite lookup_insert_ne, lookup_insert_eq in Hdsl by congruence.
    discriminate. }
  rewrite !lookup_insert_ne in Hdsl by congruence.
  erewrite (bind_Done (bind _ _)).
  2:{ rewrite (bind_Done _ _ _ _ _ (MALLOC_Some _ _ _ Hm3)).
      erewrite bind_Done; [|apply store_eq; heap_live].
      unfold ret. reflexivity. }
  erewrite bind_Done; [|apply store_eq; heap_live].
  set (S2 := Build_wim_security_data (hdr_total_length buf) (hdr_num_entries buf)
               (Some szl) (Some dsl) 1).
  match goal with
  | |- read_result _ _ _ _ _ (read_descriptors _ _ _ _ _ _ _ _ ?h) => set (h7 := h)
  end.
  assert (Hinv : loop_inv h0 sd szl dsl (hdr_total_length buf)
                   (hdr_num_entries buf) (hdr_sizes buf) []
                   (split_sizes (take (length ([] : list loc)) (hdr_sizes buf))
                      (drop (Z.to_nat (8 + 8 * hdr_num_entries buf)) buf)) h7).
  { subst h7. split.
    - heap_lookup. reflexivity.
    - heap_lookup. reflexivity.
    - heap_lookup. cbn [fmap list_fmap app length]. rewrite Nat.sub_0_r. reflexivity.
    - simpl. lia.
    - simpl. constructor.
    - cbn [app].
      apply NoDup_cons; split;
        [rewrite !elem_of_cons, elem_of_nil; intros [?|[?|[]]]; congruence|].
      apply NoDup_cons; split;
        [rewrite elem_of_cons, elem_of_nil; intros [?|[]]; congruence|].
      apply NoDup_singleton.
    - cbn [app]. apply frame_intro.
      + intros k Hk. rewrite !elem_of_cons, elem_of_nil in Hk.
        destruct Hk as [->|[->|[->|[]]]]; assumption.
      + intros k Hk. rewrite !not_elem_of_cons in Hk.
        destruct Hk as (Hk1 & Hk2 & Hk3 & _).
        heap_lookup. reflexivity. }
  clearbody h7.
  pose proof (read_descriptors_cases buf h0 sd szl dsl sd_p
    (hdr_total_length buf) (hdr_num_entries buf) (hdr_sizes buf)
    Hbuf ltac:(lia) Htl32 Hne0 (hdr_sizes_length buf) (hdr_sizes_range buf) Hp
    (Z.to_nat (hdr_num_entries buf)) [] h7 Hinv ltac:(simpl; lia)
    ltac:(rewrite <- accumulated_acc_from; exact Hle0)) as Hres.
  cbn [length] in Hres. rewrite <- !accumulated_acc_from in Hres.
  change (Z.of_nat 0) with 0 in Hres.
  inversion Hres as [h' n' Hm' Ho | j Hj Ha1 Ha2 Ho | j Hj Ha1 Ha2 Ho
                    | dl hf Ha Hf Hl Ho]; clear Hres.
  - exact (RR_nomem _ _ _ _ _ h' n' Hm').
  - rewrite <- accumulated_acc_from in Ha1, Ha2.
    apply (RR_overrun _ _ _ _ _ (S j)); try assumption; try lia.
    intros k Hk. etransitivity; [apply (accumulated_mono buf k j); lia | exact Ha1].
  - rewrite <- accumulated_acc_from in Ha1, Ha2.
    apply (RR_wrapped _ _ _ _ _ j); try assumption; try lia.
    intros k Hk. etransitivity; [apply (accumulated_mono buf k j); lia | exact Ha1].
  - rewrite <- accumulated_acc_from in Ha |- *.
    destruct (loop_inv_outside _ _ _ _ _ _ _ _ _ _ sd_p Hf Hp) as [Hout Hlk].
    apply RR_success with (sd := sd).
    + exact Hle.
    + intros k _.
      destruct (Nat.le_ge_cases k (Z.to_nat (hdr_num_entries buf))) as [Hk|Hk].
      * etransitivity; [apply (accumulated_mono buf k _ Hk) | exact Ha].
      * unfold accumulated in *. rewrite take_ge by (rewrite hdr_sizes_length; lia).
        rewrite take_ge in Ha by (rewrite hdr_sizes_length; lia). exact Ha.
    + exact Hsd.
    + apply lookup_insert_eq.
    + intros l Hl0 Hlp.
      destruct (loop_inv_outside _ _ _ _ _ _ _ _ _ _ l Hf Hl0) as [Hlout Hllk].
      assert (l <> sd).
      { intros ->. apply Hlout. rewrite elem_of_app. right.
        do 2 apply list_elem_of_further. apply list_elem_of_here. }
      rewrite !lookup_insert_ne by congruence. exact Hllk.
    + eexists. split; [heap_lookup; reflexivity | reflexivity].
    + apply (table_at_final _ _ _ _ _ _ _ _ _ _ _ _ Hf Hl Hout).
Qed.

(** ** The header checks *)

Ltac read_header Hm :=
  unfold read_security_data;
  rewrite (bind_Done _ _ _ _ _ (MALLOC_Some _ _ _ Hm));
  (erewrite bind_Done; [|apply get_u32_eq; lia]);
  (erewrite bind_Done; [|apply get_u32_eq; lia]);
  change (Z.to_nat 0) with 0%nat; change (Z.to_nat 4) with 4%nat; rewrite drop_0;
  match goal with
  | |- context [le_to_Z (take 4 ?b)] => fold (hdr_total_length b)
  end;
  match goal with
  | |- context [le_to_Z (take 4 (drop 4 ?b))] => fold (hdr_num_entries b)
  end;
  (erewrite bind_Done; [|apply store_eq; heap_live]);
  rewrite insert_insert_eq;
  (erewrite bind_Done; [|apply load_sd_eq, lookup_insert_eq]);
  cbn [total_length num_entries]; cbv zeta.

(** C8: with a buffer of at least 8 bytes, when the first four bytes declare a
    total length greater than [metadata_resource_len], [read_security_data]
    returns [WIMLIB_ERR_INVALID_RESOURCE_SIZE] (once the table itself has been
    allocated), and the heap is as it was. *)
Theorem read_security_data_total_length_too_long
    buf len sd_p (h0 : heap) sd :
  8 <= Z.of_nat (length buf) ->
  malloc h0 SIZEOF_SD = Some sd ->
  len < hdr_total_length buf ->
  read_security_data malloc buf len sd_p h0
  = Done WIMLIB_ERR_INVALID_RESOURCE_SIZE h0.
Proof.
  intros H8 Hm Hgt.
  pose proof (malloc_fresh _ _ _ Hm) as Hsd.
  read_header Hm.
  replace (hdr_total_length buf >? len) with true
    by (symmetry; rewrite Z.gtb_ltb; apply Z.ltb_lt; exact Hgt).
  exact (out_free_sd_early h0 sd (hdr_total_length buf) (hdr_num_entries buf)
           None (BUninit 0) WIMLIB_ERR_INVALID_RESOURCE_SIZE Hsd I).
Qed.

(** C3, as amended: with a buffer of at least 8 bytes whose count of entries
    is 0 and whose declared total length does not exceed
    [metadata_resource_len], [read_security_data] succeeds (once the table
    itself has been allocated) and stores through [sd_p] a table with no
    entries, no sizes, no descriptors and total length 8, whatever total
    length the buffer declared. *)
Theorem read_security_data_zero_entries
    buf len sd_p (h0 : heap) sd :
  8 <= Z.of_nat (length buf) ->
  malloc h0 SIZEOF_SD = Some sd ->
  h0 !! sd_p <> None ->
  hdr_num_entries buf = 0 ->
  hdr_total_length buf <= len ->
  exists h,
    read_security_data malloc buf len sd_p h0 = Done WIMLIB_ERR_SUCCESS h
    /\ h !! sd_p = Some (BSdPtr (Some sd))
    /\ h !! sd = Some (BSecData (Build_wim_security_data 8 0 None None 1))
    /\ table_at h sd = Some (Build_sd_table 8 0 [] []).
Proof.
  intros H8 Hm Hp Hz Hle.
  pose proof (malloc_fresh _ _ _ Hm) as Hsd.
  assert (Hsd_p : sd <> sd_p) by (intros ->; congruence).
  read_header Hm.
  replace (hdr_total_length buf >? len) with false
    by (symmetry; rewrite Z.gtb_ltb; apply Z.ltb_ge; exact Hle).
  rewrite Hz. change (0 =? 0) with true. cbv iota.
  unfold out.
  erewrite bind_Done; [|apply load_sd_eq, lookup_insert_eq].
  cbn [num_entries sizes descriptors refcnt].
  erewrite bind_Done; [|apply store_eq; heap_live].
  rewrite insert_insert_eq.
  erewrite bind_Done;
    [|apply store_eq; rewrite lookup_insert_ne by exact Hsd_p;
      destruct (h0 !! sd_p); [eexists; reflexivity | congruence]].
  unfold ret. change (to_u32 8) with 8.
  eexists. split; [reflexivity|]. split; [apply lookup_insert_eq|].
  split; [heap_lookup; reflexivity|].
  unfold table_at. heap_lookup. reflexivity.
Qed.

(** ** Consequences of the case analysis *)

(** C6: when [read_security_data] returns an error code, the heap is the one
    it started from: nothing was stored through [sd_p], and the table, the
    array of sizes, the array of pointers and every descriptor allocated so
    far have been freed. *)
Theorem read_security_data_failure_releases
    buf len sd_p (h0 h : heap) e :
  8 <= Z.of_nat (length buf) ->
  len <= Z.of_nat (length buf) ->
  Z.of_nat (length buf) < U64_MODULUS ->
  h0 !! sd_p <> None ->
  read_security_data malloc buf len sd_p h0 = Done e h ->
  e <> WIMLIB_ERR_SUCCESS ->
  h = h0.
Proof.
  intros H8 Hlen Hbuf Hp Hrun He.
  pose proof (read_security_data_cases buf len sd_p h0 H8 Hlen Hbuf Hp) as Hres.
  rewrite Hrun in Hres.
  inversion Hres; subst; try reflexivity. contradiction.
Qed.

(** A successful run leaves the exact sum in [total_length]: a run in which the
    accumulated length wrapped around does not succeed. *)
Lemma read_security_data_success buf len sd_p (h0 h : heap) :
  8 <= Z.of_nat (length buf) ->
  len <= Z.of_nat (length buf) ->
  Z.of_nat (length buf) < U64_MODULUS ->
  h0 !! sd_p <> None ->
  read_security_data malloc buf len sd_p h0 = Done WIMLIB_ERR_SUCCESS h ->
  exists sd,
    h !! sd_p = Some (BSdPtr (Some sd))
    /\ table_at h sd = Some (Build_sd_table
         (accumulated buf (Z.to_nat (hdr_num_entries buf)))
         (hdr_num_entries buf) (hdr_sizes buf) (hdr_descriptors buf))
    /\ accumulated buf (Z.to_nat (hdr_num_entries buf)) < U32_MODULUS.
Proof.
  intros H8 Hlen Hbuf Hp Hrun.
  pose proof (read_security_data_cases buf len sd_p h0 H8 Hlen Hbuf Hp) as Hres.
  rewrite Hrun in Hres.
  inversion Hres as [| | | | sd h' Hle Hacc Hsd Hptr Hframe Hrc Htab]; subst.
  exists sd. split; [exact Hptr|]. split; [exact Htab|].
  pose proof (hdr_total_length_u32 buf) as [_ Htl].
  destruct (Z.eq_dec (hdr_num_entries buf) 0) as [Hz|Hnz].
  - unfold accumulated, hdr_sizes. rewrite Hz. unfold U32_MODULUS. simpl. lia.
  - specialize (Hacc (Z.to_nat (hdr_num_entries buf)) Hnz). lia.
Qed.

(** C4: the table that a successful [read_security_data] stores through
    [sd_p] has a total length equal to 8 + 8 * num_entries + the sum of the
    sizes, narrowed to 32 bits, whatever the buffer declared; the narrowing
    loses nothing when this sum is at most 2^32 - 1. *)
Theorem read_security_data_total_length
    buf len sd_p (h0 h : heap) :
  8 <= Z.of_nat (length buf) ->
  len <= Z.of_nat (length buf) ->
  Z.of_nat (length buf) < U64_MODULUS ->
  h0 !! sd_p <> None ->
  read_security_data malloc buf len sd_p h0 = Done WIMLIB_ERR_SUCCESS h ->
  exists sd T,
    h !! sd_p = Some (BSdPtr (Some sd))
    /\ table_at h sd = Some T
    /\ tbl_total_length T
       = to_u32 (8 + 8 * tbl_num_entries T + sum_sizes (tbl_sizes T))
    /\ (8 + 8 * tbl_num_entries T + sum_sizes (tbl_sizes T) <= U32_MODULUS - 1 ->
        tbl_total_length T
        = 8 + 8 * tbl_num_entries T + sum_sizes (tbl_sizes T)).
Proof.
  intros H8 Hlen Hbuf Hp Hrun.
  destruct (read_security_data_success buf len sd_p h0 h H8 Hlen Hbuf Hp Hrun)
    as (sd & Hptr & Htab & Hlt).
  exists sd. eexists. split; [exact Hptr|]. split; [exact Htab|].
  cbn [tbl_total_length tbl_num_entries tbl_sizes].
  assert (Hexact : accumulated buf (Z.to_nat (hdr_num_entries buf))
                   = 8 + 8 * hdr_num_entries buf + sum_sizes (hdr_sizes buf)).
  { unfold accumulated. rewrite take_ge by (rewrite hdr_sizes_length; lia).
    reflexivity. }
  pose proof (hdr_num_entries_u32 buf) as [Hne0 _].
  assert (0 <= sum_sizes (hdr_sizes buf)).
  { apply sum_sizes_nonneg. eapply Forall_impl; [apply hdr_sizes_range|].
    intros s Hs. cbv beta in Hs. lia. }
  split.
  - rewrite <- Hexact. unfold to_u32. rewrite Z.mod_small; [reflexivity|].
    rewrite Hexact in *. lia.
  - intros _. exact Hexact.
Qed.

(** C9: when no allocation fails and the header checks pass with a nonzero
    count of entries, if at some index [i] the accumulated length 8 + 8 *
    num_entries + sizes[0] + ... + sizes[i] exceeds the declared total length
    without wrapping around, [read_security_data] returns
    [WIMLIB_ERR_INVALID_RESOURCE_SIZE]. *)
Theorem read_security_data_overrun
    buf len sd_p (h0 : heap) (i : nat) :
  (forall h n, malloc h n <> None) ->
  8 <= Z.of_nat (length buf) ->
  len <= Z.of_nat (length buf) ->
  Z.of_nat (length buf) < U64_MODULUS ->
  h0 !! sd_p <> None ->
  hdr_total_length buf <= len ->
  hdr_num_entries buf <> 0 ->
  8 + 8 * hdr_num_entries buf <= hdr_total_length buf ->
  (i < Z.to_nat (hdr_num_entries buf))%nat ->
  hdr_total_length buf < accumulated buf (S i) < U64_MODULUS ->
  read_security_data malloc buf len sd_p h0
  = Done WIMLIB_ERR_INVALID_RESOURCE_SIZE h0.
Proof.
  intros Htotal H8 Hlen Hbuf Hp Hle Hnz Hhdr Hi Hover.
  pose proof (read_security_data_cases buf len sd_p h0 H8 Hlen Hbuf Hp) as Hres.
  inversion Hres as [h n Hm | | j | j _ _ Hj Hacc Hwrap | sd h _ Hacc]; subst;
    try reflexivity.
  - exfalso. exact (Htotal h n Hm).
  - exfalso. destruct (Nat.le_gt_cases (S i) j) as [Hij|Hij].
    + specialize (Hacc (S i) Hij). lia.
    + pose proof (accumulated_mono buf (S j) (S i) ltac:(lia)). lia.
  - exfalso. specialize (Hacc (S i) Hnz). lia.
Qed.

(** C1, what the code does: when the accumulated length wraps around at entry
    [j], every earlier test having passed, [read_security_data] does not
    return [WIMLIB_ERR_INVALID_RESOURCE_SIZE]: it goes on with the wrapped
    value, and either the allocation of the descriptor fails
    ([WIMLIB_ERR_NOMEM]) or it reads past the end of the buffer. *)
Theorem read_security_data_overflow_not_rejected
    buf len sd_p (h0 : heap) (j : nat) :
  8 <= Z.of_nat (length buf) ->
  len <= Z.of_nat (length buf) ->
  Z.of_nat (length buf) < U64_MODULUS ->
  h0 !! sd_p <> None ->
  hdr_total_length buf <= len ->
  hdr_num_entries buf <> 0 ->
  (j < Z.to_nat (hdr_num_entries buf))%nat ->
  accumulated buf j <= hdr_total_length buf ->
  U64_MODULUS <= accumulated buf (S j) ->
  read_security_data malloc buf len sd_p h0 = Done WIMLIB_ERR_NOMEM h0
  \/ read_security_data malloc buf len sd_p h0 = Undefined.
Proof.
  intros H8 Hlen Hbuf Hp Hle Hnz Hj Hacc Hwrap.
  pose proof (hdr_total_length_u32 buf) as [_ Htl].
  pose proof (read_security_data_cases buf len sd_p h0 H8 Hlen Hbuf Hp) as Hres.
  inversion Hres as [h n Hm | Hlong | j' _ _ Hj' Hacc' Hover | j' | sd h _ Hacc'];
    subst; try (left; reflexivity); try (right; reflexivity); exfalso.
  - lia.
  - destruct (Nat.le_gt_cases j' j) as [Hjj|Hjj].
    + pose proof (accumulated_mono buf j' j Hjj). lia.
    + pose proof (accumulated_mono buf (S j) j' ltac:(lia)). lia.
  - specialize (Hacc' (S j) Hnz). unfold U64_MODULUS, U32_MODULUS in *. lia.
Qed.

(** ** write_security_data *)

Lemma sizes_at_lookup (h : heap) a szs :
  sizes_at h a = Some szs -> szs <> [] ->
  exists l, a = Some l /\ h !! l = Some (BU64s szs).
Proof.
  unfold sizes_at. destruct a as [l|]; [|intros [= <-]; contradiction].
  destruct (h !! l) as [[| |v| | |]|] eqn:Hl; try discriminate.
  intros [= <-] _. exists l. split; [reflexivity | exact Hl].
Qed.

Lemma write_sizes_spec (h : heap) s szs n : forall (i : nat) p,
  sizes_at h (sizes s) = Some szs ->
  (i + n = length szs)%nat ->
  write_sizes s n (Z.of_nat i) p h
  = Done (p ++ flat_map (Z_to_le 8) (drop i szs)) h.
Proof.
  induction n as [|n IH]; intros i p Hsz Hlen.
  - rewrite drop_ge by lia. simpl. rewrite app_nil_r. reflexivity.
  - destruct (lookup_lt_is_Some_2 szs i ltac:(lia)) as [x Hx].
    destruct (sizes_at_lookup h _ szs Hsz ltac:(intros ->; discriminate))
      as (l & Hl & Hhl).
    cbn [write_sizes]. rewrite Hl.
    rewrite (bind_Done _ _ _ _ _ (load_u64_eq h l szs (Z.of_nat i) x Hhl
               ltac:(rewrite Nat2Z.id; exact Hx))).
    replace (Z.of_nat i + 1) with (Z.of_nat (S i)) by lia.
    rewrite IH by (assumption || lia).
    rewrite (drop_S _ _ _ Hx). unfold put_u64. cbn [flat_map].
    rewrite <- app_assoc. reflexivity.
Qed.

Lemma write_descriptors_spec (h : heap) s szs ds n : forall (i : nat) p,
  sizes_at h (sizes s) = Some szs ->
  descriptors_at h (descriptors s) = Some ds ->
  Forall2 (fun sz d => sz = Z.of_nat (length d)) szs ds ->
  (i + n = length szs)%nat ->
  write_descriptors s n (Z.of_nat i) p h = Done (p ++ concat (drop i ds)) h.
Proof.
  induction n as [|n IH]; intros i p Hsz Hds Hall Hlen.
  - rewrite drop_ge by (rewrite <- (Forall2_length _ _ _ Hall); lia).
    simpl. rewrite app_nil_r. reflexivity.
  - destruct (lookup_lt_is_Some_2 szs i ltac:(lia)) as [x Hx].
    destruct (Forall2_lookup_l _ _ _ _ _ Hall Hx) as (d & Hd & Hxd).
    destruct (sizes_at_lookup h _ szs Hsz ltac:(intros ->; discriminate))
      as (l & Hl & Hhl).
    unfold descriptors_at in Hds.
    destruct (descriptors s) as [dsl|] eqn:Edsl;
      [|injection Hds as <-; rewrite lookup_nil in Hd; discriminate].
    destruct (h !! dsl) as [[| | |v| |]|] eqn:Hdsl; try discriminate.
    apply mapM_Some_1 in Hds.
    destruct (Forall2_lookup_r _ _ _ _ _ Hds Hd) as (pi & Hpi & Hbytes).
    unfold bytes_at in Hbytes. destruct pi as [li|]; [|discriminate].
    destruct (h !! li) as [[| | | |bs|]|] eqn:Hli; try discriminate.
    injection Hbytes as ->.
    cbn [write_descriptors]. rewrite Hl, Edsl.
    rewrite (bind_Done _ _ _ _ _ (load_u64_eq h l szs (Z.of_nat i) x Hhl
               ltac:(rewrite Nat2Z.id; exact Hx))).
    rewrite (bind_Done _ _ _ _ _ (load_ptr_eq h dsl v (Z.of_nat i) (Some li) Hdsl
               ltac:(rewrite Nat2Z.id; exact Hpi))).
    assert (Hload : load_bytes (Some li) x h = Done d h).
    { unfold load_bytes. rewrite Hli.
      replace ((0 <=? x) && (x <=? Z.of_nat (length d))) with true
        by (symmetry; apply andb_true_intro; split; apply Z.leb_le; lia).
      rewrite take_ge by lia. reflexivity. }
    rewrite (bind_Done _ _ _ _ _ Hload).
    replace (Z.of_nat i + 1) with (Z.of_nat (S i)) by lia.
    rewrite IH; try assumption; try lia.
    + rewrite (drop_S _ _ _ Hd). unfold put_bytes. cbn [concat].
      rewrite <- app_assoc. reflexivity.
    + unfold descriptors_at. rewrite Hdsl. apply mapM_Some_2. exact Hds.
Qed.

Lemma flat_map_le64_length (szs : list Z) :
  length (flat_map (Z_to_le 8) szs) = (8 * length szs)%nat.
Proof.
  induction szs as [|x szs IH]; [reflexivity|].
  cbn [flat_map]. rewrite length_app, Z_to_le_length, IH. simpl. lia.
Qed.

Lemma concat_length_sizes (szs : list Z) (ds : list (list byte)) :
  Forall2 (fun sz d => sz = Z.of_nat (length d)) szs ds ->
  Z.of_nat (length (concat ds)) = sum_sizes szs.
Proof.
  induction 1 as [|x d szs ds Hx _ IH]; [reflexivity|].
  cbn [concat]. rewrite length_app. unfold sum_sizes in *. simpl. lia.
Qed.

Lemma encode_table_length T :
  valid_table T -> Z.of_nat (length (encode_table T)) = tbl_total_length T.
Proof.
  intros [Hne Hszs Hds Hall Htl32 Htl]. unfold encode_table.
  rewrite !length_app, !Z_to_le_length, flat_map_le64_length.
  pose proof (concat_length_sizes _ _ Hall). lia.
Qed.

(** What [write_security_data] writes, and that its assertion holds. *)
Lemma write_security_data_encode (h : heap) sd T :
  table_at h sd = Some T ->
  valid_table T ->
  write_security_data sd h = Done (encode_table T) h.
Proof.
  intros Htab Hvalid.
  pose proof (encode_table_length T Hvalid) as Hlen.
  destruct Hvalid as [Hne Hszs Hds Hall Htl32 Htl].
  unfold table_at in Htab.
  destruct (h !! sd) as [[|s| | | |]|] eqn:Hsd; try discriminate.
  destruct (sizes_at h (sizes s)) as [szs|] eqn:Esz; [|discriminate].
  destruct (descriptors_at h (descriptors s)) as [ds|] eqn:Eds; [|discriminate].
  injection Htab as <-.
  cbn [tbl_total_length tbl_num_entries tbl_sizes tbl_descriptors] in *.
  unfold write_security_data.
  rewrite (bind_Done _ _ _ _ _ (load_sd_eq h sd s Hsd)). cbv zeta.
  change 0 with (Z.of_nat 0).
  rewrite (bind_Done _ _ _ _ _
             (write_sizes_spec h s szs (Z.to_nat (num_entries s)) 0%nat _ Esz
                ltac:(lia))).
  rewrite (bind_Done _ _ _ _ _
             (write_descriptors_spec h s szs ds (Z.to_nat (num_entries s)) 0%nat _
                Esz Eds Hall ltac:(lia))).
  rewrite !drop_0. unfold put_u32. cbn [app].
  assert (Henc : ((Z_to_le 4 (total_length s) ++ Z_to_le 4 (num_entries s))
                    ++ flat_map (Z_to_le 8) szs) ++ concat ds
                 = encode_table (Build_sd_table (total_length s) (num_entries s) szs ds)).
  { unfold encode_table. cbn [tbl_total_length tbl_num_entries tbl_sizes tbl_descriptors].
    rewrite <- !app_assoc. reflexivity. }
  rewrite Henc, Hlen. cbn [tbl_total_length].
  rewrite Z.eqb_refl. unfold bind, wimlib_assert, ret. reflexivity.
Qed.

(** C5: for a table that satisfies the structural invariants,
    [write_security_data] writes the header, the sizes as little-endian
    64-bit integers, then the descriptors, in index order; these are exactly
    [total_length] bytes, so that the assertion at the end of the function
    holds. *)
Theorem write_security_data_length (h : heap) sd T :
  table_at h sd = Some T ->
  valid_table T ->
  write_security_data sd h
  = Done (Z_to_le 4 (tbl_total_length T) ++ Z_to_le 4 (tbl_num_entries T)
            ++ flat_map (Z_to_le 8) (tbl_sizes T) ++ concat (tbl_descriptors T)) h
  /\ Z.of_nat (length (Z_to_le 4 (tbl_total_length T) ++ Z_to_le 4 (tbl_num_entries T)
                         ++ flat_map (Z_to_le 8) (tbl_sizes T)
                         ++ concat (tbl_descriptors T)))
     = tbl_total_length T.
Proof.
  intros Htab Hvalid. split.
  - exact (write_security_data_encode h sd T Htab Hvalid).
  - exact (encode_table_length T Hvalid).
Qed.

(** ** Reading back what was written *)

Lemma sum_sizes_elem (l : list Z) x :
  Forall (fun s => 0 <= s) l -> x ∈ l -> x <= sum_sizes l.
Proof.
  unfold sum_sizes. induction 1 as [|y l Hy Hl IH]; intros Hin.
  - apply elem_of_nil in Hin. contradiction.
  - pose proof (sum_sizes_nonneg l Hl) as Hs. unfold sum_sizes in Hs.
    apply elem_of_cons in Hin as [->|Hin]; simpl; [lia|].
    specialize (IH Hin). lia.
Qed.

Lemma valid_table_sizes_nonneg T :
  valid_table T -> Forall (fun s => 0 <= s) (tbl_sizes T).
Proof.
  intros Hvalid. pose proof (valid_descriptor_sizes T Hvalid) as Hall.
  induction Hall as [|x d szs ds Hx _ IH]; constructor; [lia | exact IH].
Qed.

Lemma valid_table_sizes_u64 T :
  valid_table T -> Forall (fun s => 0 <= s < U64_MODULUS) (tbl_sizes T).
Proof.
  intros Hvalid. pose proof (valid_table_sizes_nonneg T Hvalid) as Hnn.
  destruct Hvalid as [[Hne0 _] _ _ _ [_ Htl32] Htl].
  apply Forall_forall. intros x Hx.
  pose proof (sum_sizes_elem _ x Hnn Hx).
  rewrite Forall_forall in Hnn. specialize (Hnn x Hx).
  unfold U64_MODULUS, U32_MODULUS in *. lia.
Qed.

Lemma le64_array_flat_map (szs : list Z) rest :
  Forall (fun s => 0 <= s < U64_MODULUS) szs ->
  le64_array (length szs) (flat_map (Z_to_le 8) szs ++ rest) = szs.
Proof.
  induction 1 as [|x szs Hx _ IH]; [reflexivity|].
  cbn [length le64_array flat_map]. rewrite <- app_assoc.
  rewrite (take_app_length' (Z_to_le 8 x)) by (rewrite Z_to_le_length; reflexivity).
  rewrite (drop_app_length' (Z_to_le 8 x)) by (rewrite Z_to_le_length; reflexivity).
  rewrite le_to_Z_to_le by exact Hx. rewrite IH. reflexivity.
Qed.

Lemma split_sizes_concat (szs : list Z) (ds : list (list byte)) :
  Forall2 (fun sz d => sz = Z.of_nat (length d)) szs ds ->
  split_sizes szs (concat ds) = ds.
Proof.
  induction 1 as [|x d szs ds Hx _ IH]; [reflexivity|].
  cbn [split_sizes concat]. subst x. rewrite Nat2Z.id.
  rewrite take_app_length, drop_app_length, IH. reflexivity.
Qed.

Section Encoded.

Variable T : sd_table.
Hypothesis T_valid : valid_table T.

Lemma hdr_total_length_encode :
  hdr_total_length (encode_table T) = tbl_total_length T.
Proof.
  unfold hdr_total_length, encode_table.
  rewrite take_app_length' by (rewrite Z_to_le_length; reflexivity).
  apply le_to_Z_to_le. exact (valid_total_length_u32 T T_valid).
Qed.

Lemma hdr_num_entries_encode :
  hdr_num_entries (encode_table T) = tbl_num_entries T.
Proof.
  unfold hdr_num_entries, encode_table.
  rewrite drop_app_length' by (rewrite Z_to_le_length; reflexivity).
  rewrite take_app_length' by (rewrite Z_to_le_length; reflexivity).
  apply le_to_Z_to_le. exact (valid_num_entries T T_valid).
Qed.

Lemma hdr_sizes_encode : hdr_sizes (encode_table T) = tbl_sizes T.
Proof.
  unfold hdr_sizes. rewrite hdr_num_entries_encode. unfold encode_table.
  pose proof (valid_sizes_length T T_valid) as Hlen.
  rewrite app_assoc.
  rewrite (drop_app_length' (Z_to_le 4 _ ++ Z_to_le 4 _))
    by (rewrite length_app, !Z_to_le_length; reflexivity).
  rewrite take_app_length' by (rewrite flat_map_le64_length; lia).
  replace (Z.to_nat (tbl_num_entries T)) with (length (tbl_sizes T)) by lia.
  rewrite <- (app_nil_r (flat_map _ _)).
  apply le64_array_flat_map, valid_table_sizes_u64, T_valid.
Qed.

Lemma hdr_descriptors_encode :
  hdr_descriptors (encode_table T) = tbl_descriptors T.
Proof.
  unfold hdr_descriptors. rewrite hdr_sizes_encode, hdr_num_entries_encode.
  unfold encode_table.
  pose proof (valid_sizes_length T T_valid) as Hlen.
  pose proof (valid_num_entries T T_valid) as [Hne0 _].
  rewrite !app_assoc.
  rewrite (drop_app_length' ((Z_to_le 4 _ ++ Z_to_le 4 _) ++ flat_map _ _))
    by (rewrite !length_app, !Z_to_le_length, flat_map_le64_length; lia).
  apply split_sizes_concat, (valid_descriptor_sizes T T_valid).
Qed.

Lemma accumulated_encode k :
  accumulated (encode_table T) k <= tbl_total_length T.
Proof.
  unfold accumulated. rewrite hdr_sizes_encode, hdr_num_entries_encode.
  rewrite (valid_total_length T T_valid).
  pose proof (valid_table_sizes_nonneg T T_valid) as Hnn.
  destruct (Nat.le_ge_cases k (length (tbl_sizes T))) as [Hk|Hk].
  - pose proof (sum_sizes_take_mono (tbl_sizes T) k (length (tbl_sizes T)) Hnn Hk)
      as Hmono.
    rewrite firstn_all in Hmono. lia.
  - rewrite take_ge by lia. lia.
Qed.

Lemma accumulated_encode_all :
  accumulated (encode_table T) (Z.to_nat (hdr_num_entries (encode_table T)))
  = tbl_total_length T.
Proof.
  unfold accumulated. rewrite hdr_sizes_encode, hdr_num_entries_encode.
  rewrite (valid_total_length T T_valid).
  pose proof (valid_sizes_length T T_valid) as Hlen.
  rewrite take_ge by lia. reflexivity.
Qed.

End Encoded.

(** C2: for a table [T] that satisfies the structural invariants,
    [write_security_data] produces [total_length] bytes and, when no
    allocation fails, [read_security_data] on these bytes, with a buffer
    length equal to the total length of [T], succeeds and stores through
    [sd_p] a table equal to [T]: the same count, the same sizes, the same
    descriptors byte for byte, the same total length. *)
Theorem security_data_round_trip (h h1 : heap) sd sd_p T :
  (forall h' n, malloc h' n <> None) ->
  table_at h sd = Some T ->
  valid_table T ->
  h1 !! sd_p <> None ->
  exists bytes h2 sd',
    write_security_data sd h = Done bytes h
    /\ Z.of_nat (length bytes) = tbl_total_length T
    /\ read_security_data malloc bytes (tbl_total_length T) sd_p h1
       = Done WIMLIB_ERR_SUCCESS h2
    /\ h2 !! sd_p = Some (BSdPtr (Some sd'))
    /\ table_at h2 sd' = Some T.
Proof.
  intros Htotal Htab Hvalid Hp.
  pose proof (write_security_data_encode h sd T Htab Hvalid) as Hwrite.
  pose proof (encode_table_length T Hvalid) as Hlen.
  pose proof (valid_total_length_u32 T Hvalid) as [_ Htl32].
  pose proof (valid_num_entries T Hvalid) as [Hne0 _].
  pose proof (sum_sizes_nonneg _ (valid_table_sizes_nonneg T Hvalid)) as Hsum.
  pose proof (valid_total_length T Hvalid) as Htl.
  assert (H8 : 8 <= Z.of_nat (length (encode_table T))) by lia.
  pose proof (read_security_data_cases (encode_table T) (tbl_total_length T)
                sd_p h1 H8 ltac:(lia)
                ltac:(unfold U64_MODULUS, U32_MODULUS in *; lia) Hp) as Hres.
  exists (encode_table T).
  inversion Hres as [h' n Hm | Hlong | j _ _ _ _ Hover | j _ _ _ _ Hwrap
                    | sd' h2 _ _ _ Hptr _ _ Htab2]; subst.
  - exfalso. exact (Htotal h' n Hm).
  - exfalso. rewrite hdr_total_length_encode in Hlong by exact Hvalid. lia.
  - exfalso. pose proof (accumulated_encode T Hvalid j).
    rewrite hdr_total_length_encode in Hover by exact Hvalid. lia.
  - exfalso. pose proof (accumulated_encode T Hvalid (S j)).
    unfold U64_MODULUS, U32_MODULUS in *. lia.
  - exists h2, sd'. repeat split; try assumption; try reflexivity.
    rewrite Htab2. f_equal.
    rewrite accumulated_encode_all, hdr_num_entries_encode, hdr_sizes_encode,
      hdr_descriptors_encode by exact Hvalid.
    destruct T; reflexivity.
Qed.

(** ** free_security_data and the reference count *)

(** C7: releasing a table whose count is above 1 only decrements the count,
    and every block stays as it is; releasing a table whose count is 1 frees
    every descriptor, the array of sizes, the array of pointers and the table
    itself, and nothing else. *)
Theorem free_security_data_refcount (h : heap) sd s ptrs :
  owns_table h sd s ptrs ->
  (1 < refcnt s < U32_MODULUS ->
   free_security_data (Some sd) h
   = Done tt (<[sd:=BSecData (Build_wim_security_data
                (total_length s) (num_entries s) (sizes s) (descriptors s)
                (refcnt s - 1))]> h))
  /\ (refcnt s = 1 ->
      exists h',
        free_security_data (Some sd) h = Done tt h'
        /\ (forall l, l ∈ owned_blocks sd s ptrs -> h' !! l = None)
        /\ (forall l, l ∉ owned_blocks sd s ptrs -> h' !! l = h !! l)).
Proof.
  intros Hown. split.
  - intros Hrc. apply free_security_data_shared; [exact (owns_sd _ _ _ _ Hown) | exact Hrc].
  - intros Hrc. exists (free_all (owned_blocks sd s ptrs) h).
    split; [exact (free_security_data_last h sd s ptrs Hown Hrc)|].
    split; intros l Hl; rewrite lookup_free_all.
    + rewrite decide_True by exact Hl. reflexivity.
    + rewrite decide_False by exact Hl. reflexivity.
Qed.

(** C10: [free_security_data(NULL)] returns at once: the heap is unchanged,
    whatever it holds, so that nothing is freed and no counter is decremented;
    and the assertion on the count is not evaluated, which for a table whose
    count is 0 would fail. *)
Theorem free_security_data_null (h : heap) :
  free_security_data None h = Done tt h
  /\ (forall sd s,
        h !! sd = Some (BSecData s) -> refcnt s < 1 ->
        free_security_data (Some sd) h = AssertionFailed).
Proof.
  split; [reflexivity|].
  intros sd s Hsd Hrc. unfold free_security_data.
  rewrite (bind_Done _ _ _ _ _ (load_sd_eq h sd s Hsd)).
  replace (1 <=? refcnt s) with false by (symmetry; apply Z.leb_gt; exact Hrc).
  reflexivity.
Qed.

(** ** More about read_security_data *)

(** With a nonzero count of entries, a declared total length too short to
    hold the header and the array of sizes is rejected, and nothing is left
    allocated. *)
Theorem read_security_data_header_too_short
    buf len sd_p (h0 : heap) sd :
  8 <= Z.of_nat (length buf) ->
  malloc h0 SIZEOF_SD = Some sd ->
  hdr_total_length buf <= len ->
  hdr_num_entries buf <> 0 ->
  hdr_total_length buf < 8 + 8 * hdr_num_entries buf ->
  read_security_data malloc buf len sd_p h0
  = Done WIMLIB_ERR_INVALID_RESOURCE_SIZE h0.
Proof.
  intros H8 Hm Hle Hnz Hshort.
  pose proof (malloc_fresh _ _ _ Hm) as Hsd.
  pose proof (hdr_num_entries_u32 buf) as [Hne0 Hne32].
  read_header Hm.
  replace (hdr_total_length buf >? len) with false
    by (symmetry; rewrite Z.gtb_ltb; apply Z.ltb_ge; exact Hle).
  replace (hdr_num_entries buf =? 0) with false
    by (symmetry; apply Z.eqb_neq; exact Hnz).
  unfold SIZEOF_U64, u64_add.
  rewrite (Z.mod_small (hdr_num_entries buf * 8))
    by (unfold U64_MODULUS, U32_MODULUS in *; lia).
  rewrite Z.mod_small by (unfold U64_MODULUS, U32_MODULUS in *; lia).
  replace (8 + hdr_num_entries buf * 8 >? hdr_total_length buf) with true
    by (symmetry; rewrite Z.gtb_ltb; apply Z.ltb_lt; lia).
  exact (out_free_sd_early h0 sd (hdr_total_length buf) (hdr_num_entries buf)
           None (BUninit 0) WIMLIB_ERR_INVALID_RESOURCE_SIZE Hsd I).
Qed.


(** When no allocation fails, [read_security_data] succeeds exactly when the
    declared total length fits in the resource and, unless there is no
    entry, the header, the sizes and all the descriptors fit in the declared
    total length. *)
Theorem read_security_data_accepts_iff
    buf len sd_p (h0 : heap) :
  (forall h n, malloc h n <> None) ->
  8 <= Z.of_nat (length buf) ->
  len <= Z.of_nat (length buf) ->
  Z.of_nat (length buf) < U64_MODULUS ->
  h0 !! sd_p <> None ->
  (exists h, read_security_data malloc buf len sd_p h0 = Done WIMLIB_ERR_SUCCESS h)
  <-> hdr_total_length buf <= len
      /\ (hdr_num_entries buf = 0
          \/ accumulated buf (Z.to_nat (hdr_num_entries buf))
             <= hdr_total_length buf).
Proof.
  intros Htotal H8 Hlen Hbuf Hp.
  pose proof (hdr_total_length_u32 buf) as [_ Htl].
  pose proof (read_security_data_cases buf len sd_p h0 H8 Hlen Hbuf Hp) as Hres.
  split.
  - intros [h Hrun]. rewrite Hrun in Hres.
    inversion Hres as [| | | | sd h' Hle Hacc]; subst.
    split; [exact Hle|].
    destruct (Z.eq_dec (hdr_num_entries buf) 0) as [Hz|Hnz]; [left; exact Hz|].
    right. apply Hacc, Hnz.
  - intros [Hle Hfit].
    inversion Hres as [h n Hm | Hlong | j _ Hnz Hj Hacc Hover
                      | j _ Hnz Hj Hacc Hwrap | sd h _ _ _ _ _ _ _ Ho]; subst.
    + exfalso. exact (Htotal h n Hm).
    + exfalso. lia.
    + exfalso. destruct Hfit as [Hz|Hfit]; [contradiction|].
      pose proof (accumulated_mono buf j _ Hj). lia.
    + exfalso. destruct Hfit as [Hz|Hfit]; [contradiction|].
      pose proof (accumulated_mono buf (S j) (Z.to_nat (hdr_num_entries buf))
                    ltac:(lia)).
      unfold U64_MODULUS, U32_MODULUS in *. lia.
    + exists h. reflexivity.
Qed.

(** ** Where the decoded table comes from in the buffer *)

Lemma le64_array_lookup n bs i :
  (i < n)%nat ->
  le64_array n bs !! i = Some (le_to_Z (take 8 (drop (8 * i) bs))).
Proof.
  revert bs i. induction n as [|n IH]; intros bs i Hi; [lia|].
  destruct i as [|i]; cbn [le64_array lookup list_lookup].
  - rewrite Nat.mul_0_r, drop_0. reflexivity.
  - rewrite IH by lia. rewrite drop_drop.
    replace (8 + 8 * i)%nat with (8 * S i)%nat by lia. reflexivity.
Qed.

Lemma hdr_sizes_lookup buf i :
  (i < Z.to_nat (hdr_num_entries buf))%nat ->
  hdr_sizes buf !! i = Some (le_to_Z (take 8 (drop (8 + 8 * i) buf))).
Proof.
  intros Hi. unfold hdr_sizes. rewrite le64_array_lookup by exact Hi.
  pose proof (hdr_num_entries_u32 buf) as [Hne0 _].
  rewrite take_drop_commute, take_take.
  rewrite Nat.min_l by lia.
  rewrite <- take_drop_commute, drop_drop. reflexivity.
Qed.

Lemma split_sizes_lookup (szs : list Z) : forall bs i sz,
  Forall (fun s => 0 <= s) szs ->
  szs !! i = Some sz ->
  split_sizes szs bs !! i
  = Some (take (Z.to_nat sz) (drop (Z.to_nat (sum_sizes (take i szs))) bs)).
Proof.
  induction szs as [|x szs IH]; intros bs i sz Hnn Hsz.
  - rewrite lookup_nil in Hsz. discriminate.
  - apply Forall_cons in Hnn as [Hx Hnn].
    destruct i as [|i]; cbn [split_sizes lookup list_lookup] in *.
    + injection Hsz as ->. rewrite take_0. reflexivity.
    + rewrite (IH _ _ _ Hnn Hsz), drop_drop. cbn [take].
      assert (Hs : 0 <= sum_sizes (take i szs))
        by (apply sum_sizes_nonneg, Forall_take, Hnn).
      unfold sum_sizes in *. cbn [foldr].
      replace (Z.to_nat (x + foldr Z.add 0 (take i szs)))
        with (Z.to_nat x + Z.to_nat (foldr Z.add 0%Z (take i szs)))%nat by lia.
      reflexivity.
Qed.

Lemma hdr_sizes_nonneg buf : Forall (fun s => 0 <= s) (hdr_sizes buf).
Proof.
  eapply Forall_impl; [apply hdr_sizes_range|]. intros s Hs. cbv beta in Hs. lia.
Qed.

Lemma hdr_descriptors_lookup buf i sz :
  hdr_sizes buf !! i = Some sz ->
  hdr_descriptors buf !! i
  = Some (take (Z.to_nat sz) (drop (Z.to_nat (accumulated buf i)) buf)).
Proof.
  intros Hsz. unfold hdr_descriptors.
  rewrite (split_sizes_lookup _ _ _ _ (hdr_sizes_nonneg buf) Hsz), drop_drop.
  pose proof (hdr_num_entries_u32 buf) as [Hne0 _].
  assert (Hs : 0 <= sum_sizes (take i (hdr_sizes buf)))
    by (apply sum_sizes_nonneg, Forall_take, hdr_sizes_nonneg).
  unfold accumulated.
  replace (Z.to_nat (8 + 8 * hdr_num_entries buf + sum_sizes (take i (hdr_sizes buf))))
    with (Z.to_nat (8 + 8 * hdr_num_entries buf)
          + Z.to_nat (sum_sizes (take i (hdr_sizes buf))))%nat by lia.
  reflexivity.
Qed.

(** The table of a successful run is laid out in the buffer as follows: the
    count of entries is the 32-bit integer at offset 4; size [i] is the 64-bit
    integer at offset 8 + 8 * i; descriptor [i] is made of the [sizes[i]] bytes
    at offset 8 + 8 * num_entries + sizes[0] + ... + sizes[i-1]. *)
Theorem read_security_data_layout
    buf len sd_p (h0 h : heap) :
  8 <= Z.of_nat (length buf) ->
  len <= Z.of_nat (length buf) ->
  Z.of_nat (length buf) < U64_MODULUS ->
  h0 !! sd_p <> None ->
  read_security_data malloc buf len sd_p h0 = Done WIMLIB_ERR_SUCCESS h ->
  exists sd T,
    h !! sd_p = Some (BSdPtr (Some sd))
    /\ table_at h sd = Some T
    /\ tbl_num_entries T = le_to_Z (take 4 (drop 4 buf))
    /\ Z.of_nat (length (tbl_sizes T)) = tbl_num_entries T
    /\ Z.of_nat (length (tbl_descriptors T)) = tbl_num_entries T
    /\ forall i, (i < length (tbl_sizes T))%nat ->
         exists sz,
           sz = le_to_Z (take 8 (drop (8 + 8 * i) buf))
           /\ tbl_sizes T !! i = Some sz
           /\ tbl_descriptors T !! i
              = Some (take (Z.to_nat sz)
                        (drop (Z.to_nat (8 + 8 * tbl_num_entries T
                                         + sum_sizes (take i (tbl_sizes T)))) buf)).
Proof.
  intros H8 Hlen Hbuf Hp Hrun.
  destruct (read_security_data_success buf len sd_p h0 h H8 Hlen Hbuf Hp Hrun)
    as (sd & Hptr & Htab & _).
  pose proof (hdr_num_entries_u32 buf) as [Hne0 _].
  exists sd. eexists. split; [exact Hptr|]. split; [exact Htab|].
  cbn [tbl_num_entries tbl_sizes tbl_descriptors].
  split; [reflexivity|].
  split; [rewrite hdr_sizes_length; lia|].
  split.
  { unfold hdr_descriptors.
    assert (Hsl : forall szs bs, length (split_sizes szs bs) = length szs).
    { induction szs as [|x szs IH]; intros bs; simpl; [|rewrite IH]; reflexivity. }
    rewrite Hsl, hdr_sizes_length. lia. }
  intros i Hi. rewrite hdr_sizes_length in Hi.
  eexists. split; [reflexivity|].
  split; [exact (hdr_sizes_lookup buf i Hi)|].
  exact (hdr_descriptors_lookup buf i _ (hdr_sizes_lookup buf i Hi)).
Qed.

(** A successful run changes no block of the caller but the pointer variable
    behind [sd_p]; the table it returns is a new block, with a count of 1. *)
Theorem read_security_data_preserves_caller_blocks
    buf len sd_p (h0 h : heap) :
  8 <= Z.of_nat (length buf) ->
  len <= Z.of_nat (length buf) ->
  Z.of_nat (length buf) < U64_MODULUS ->
  h0 !! sd_p <> None ->
  read_security_data malloc buf len sd_p h0 = Done WIMLIB_ERR_SUCCESS h ->
  exists sd s,
    h !! sd_p = Some (BSdPtr (Some sd))
    /\ h0 !! sd = None
    /\ h !! sd = Some (BSecData s)
    /\ refcnt s = 1
    /\ forall l, h0 !! l <> None -> l <> sd_p -> h !! l = h0 !! l.
Proof.
  intros H8 Hlen Hbuf Hp Hrun.
  pose proof (read_security_data_cases buf len sd_p h0 H8 Hlen Hbuf Hp) as Hres.
  rewrite Hrun in Hres.
  inversion Hres as [| | | | sd h' _ _ Hsd Hptr Hframe (s & Hs & Hrc) _]; subst.
  exists sd, s. repeat split; assumption.
Qed.

(** ** Writing what was read *)

Lemma split_sizes_length (szs : list Z) bs :
  length (split_sizes szs bs) = length szs.
Proof.
  revert bs. induction szs as [|x szs IH]; intros bs; simpl; [|rewrite IH];
    reflexivity.
Qed.

Lemma split_sizes_chunks (szs : list Z) : forall bs,
  Forall (fun s => 0 <= s) szs ->
  sum_sizes szs <= Z.of_nat (length bs) ->
  Forall2 (fun sz d => sz = Z.of_nat (length d)) szs (split_sizes szs bs)
  /\ concat (split_sizes szs bs) = take (Z.to_nat (sum_sizes szs)) bs.
Proof.
  induction szs as [|x szs IH]; intros bs Hnn Hsum.
  - split; [constructor | reflexivity].
  - apply Forall_cons in Hnn as [Hx Hnn].
    pose proof (sum_sizes_nonneg _ Hnn) as Hs.
    assert (Hcons : sum_sizes (x :: szs) = x + sum_sizes szs) by reflexivity.
    rewrite Hcons in *.
    destruct (IH (drop (Z.to_nat x) bs) Hnn) as [Hall Hcat].
    { rewrite length_drop. lia. }
    cbn [split_sizes concat]. split.
    + constructor; [|exact Hall]. rewrite length_take. lia.
    + rewrite Hcat.
      replace (Z.to_nat (x + sum_sizes szs))
        with (Z.to_nat x + Z.to_nat (sum_sizes szs))%nat by lia.
      apply take_take_drop.
Qed.

Lemma Z_to_le_of_bytes bs : Z_to_le (length bs) (le_to_Z bs) = bs.
Proof.
  induction bs as [|b bs IH]; [reflexivity|].
  cbn [length Z_to_le le_to_Z].
  pose proof (byte_to_Z_range b) as Hb.
  assert (Hlow : byte_of_Z (byte_to_Z b + 256 * le_to_Z bs) = b).
  { unfold byte_of_Z.
    replace ((byte_to_Z b + 256 * le_to_Z bs) mod 256) with (byte_to_Z b)
      by (rewrite Z.mul_comm, Z.mod_add, Z.mod_small by lia; reflexivity).
    unfold byte_to_Z. rewrite N2Z.id, Byte.of_to_N. reflexivity. }
  assert (Hhigh : (byte_to_Z b + 256 * le_to_Z bs) / 256 = le_to_Z bs).
  { rewrite Z.mul_comm, Z.div_add, Z.div_small by lia. lia. }
  rewrite Hlow, Hhigh, IH. reflexivity.
Qed.

Lemma flat_map_le64_array n : forall bs,
  length bs = (8 * n)%nat ->
  flat_map (Z_to_le 8) (le64_array n bs) = bs.
Proof.
  induction n as [|n IH]; intros bs Hlen.
  - destruct bs; [reflexivity | discriminate].
  - cbn [le64_array flat_map].
    rewrite IH by (rewrite length_drop; lia).
    replace 8%nat with (length (take 8 bs)) at 1 by (rewrite length_take; lia).
    rewrite Z_to_le_of_bytes. apply take_drop.
Qed.

(** The table that the buffer holds satisfies the structural invariants as
    soon as the tests of [read_security_data] pass. *)
Lemma decoded_table_valid buf :
  8 <= Z.of_nat (length buf) ->
  hdr_total_length buf <= Z.of_nat (length buf) ->
  (hdr_num_entries buf <> 0 ->
   accumulated buf (Z.to_nat (hdr_num_entries buf)) <= hdr_total_length buf) ->
  valid_table (Build_sd_table
    (accumulated buf (Z.to_nat (hdr_num_entries buf)))
    (hdr_num_entries buf) (hdr_sizes buf) (hdr_descriptors buf))
  /\ encode_table (Build_sd_table
       (accumulated buf (Z.to_nat (hdr_num_entries buf)))
       (hdr_num_entries buf) (hdr_sizes buf) (hdr_descriptors buf))
     = Z_to_le 4 (accumulated buf (Z.to_nat (hdr_num_entries buf)))
       ++ take (Z.to_nat (accumulated buf (Z.to_nat (hdr_num_entries buf))) - 4)
            (drop 4 buf).
Proof.
  intros H8 Htl Hfit.
  pose proof (hdr_num_entries_u32 buf) as [Hne0 Hne32].
  pose proof (hdr_total_length_u32 buf) as [_ Htl32].
  pose proof (sum_sizes_nonneg _ (hdr_sizes_nonneg buf)) as Hsum.
  assert (Hacc : accumulated buf (Z.to_nat (hdr_num_entries buf))
                 = 8 + 8 * hdr_num_entries buf + sum_sizes (hdr_sizes buf)).
  { unfold accumulated. rewrite take_ge by (rewrite hdr_sizes_length; lia).
    reflexivity. }
  assert (Hroom : sum_sizes (hdr_sizes buf)
                  <= Z.of_nat (length (drop (Z.to_nat (8 + 8 * hdr_num_entries buf)) buf))
                  /\ 8 + 8 * hdr_num_entries buf + sum_sizes (hdr_sizes buf)
                     < U32_MODULUS).
  { destruct (Z.eq_dec (hdr_num_entries buf) 0) as [Hz|Hnz].
    - unfold hdr_sizes. rewrite Hz. unfold U32_MODULUS. simpl. lia.
    - specialize (Hfit Hnz). rewrite length_drop. lia. }
  destruct Hroom as [Hroom Hu32].
  destruct (split_sizes_chunks (hdr_sizes buf)
              (drop (Z.to_nat (8 + 8 * hdr_num_entries buf)) buf)
              (hdr_sizes_nonneg buf) Hroom) as [Hall Hcat].
  fold (hdr_descriptors buf) in Hall, Hcat.
  split.
  - split; cbn [tbl_total_length tbl_num_entries tbl_sizes tbl_descriptors].
    + split; assumption.
    + rewrite hdr_sizes_length. lia.
    + unfold hdr_descriptors. rewrite split_sizes_length, hdr_sizes_length. lia.
    + exact Hall.
    + unfold is_u32. lia.
    + exact Hacc.
  - unfold encode_table.
    cbn [tbl_total_length tbl_num_entries tbl_sizes tbl_descriptors].
    f_equal.
    assert (Hne : Z_to_le 4 (hdr_num_entries buf) = take 4 (drop 4 buf)).
    { unfold hdr_num_entries.
      replace 4%nat with (length (take 4 (drop 4 buf))) at 1
        by (rewrite length_take, length_drop; lia).
      apply Z_to_le_of_bytes. }
    assert (Hszs : flat_map (Z_to_le 8) (hdr_sizes buf)
                   = take (8 * Z.to_nat (hdr_num_entries buf)) (drop 8 buf)).
    { unfold hdr_sizes.
      replace (Z.to_nat (hdr_num_entries buf * 8))
        with (8 * Z.to_nat (hdr_num_entries buf))%nat by lia.
      apply flat_map_le64_array.
      rewrite length_take, length_drop.
      rewrite length_drop in Hroom. lia. }
    rewrite Hne, Hszs, Hcat.
    replace (drop 8 buf) with (drop 4 (drop 4 buf)) by (rewrite drop_drop; reflexivity).
    replace (drop (Z.to_nat (8 + 8 * hdr_num_entries buf)) buf)
      with (drop (8 * Z.to_nat (hdr_num_entries buf)) (drop 4 (drop 4 buf)))
      by (rewrite !drop_drop; f_equal; lia).
    rewrite !take_take_drop.
    f_equal. lia.
Qed.

(** A table that [read_security_data] returns satisfies the structural
    invariants, each descriptor holding exactly [sizes[i]] bytes, and
    [write_security_data] on it runs to the end, its assertion holding.  It
    writes the first [total_length] bytes of the buffer again, with the
    repaired total length in the first four. *)
Theorem write_after_read_security_data
    buf len sd_p (h0 h : heap) :
  8 <= Z.of_nat (length buf) ->
  len <= Z.of_nat (length buf) ->
  Z.of_nat (length buf) < U64_MODULUS ->
  h0 !! sd_p <> None ->
  read_security_data malloc buf len sd_p h0 = Done WIMLIB_ERR_SUCCESS h ->
  exists sd T,
    h !! sd_p = Some (BSdPtr (Some sd))
    /\ table_at h sd = Some T
    /\ valid_table T
    /\ write_security_data sd h
       = Done (Z_to_le 4 (tbl_total_length T)
                 ++ take (Z.to_nat (tbl_total_length T) - 4) (drop 4 buf)) h.
Proof.
  intros H8 Hlen Hbuf Hp Hrun.
  pose proof (read_security_data_cases buf len sd_p h0 H8 Hlen Hbuf Hp) as Hres.
  rewrite Hrun in Hres.
  inversion Hres as [| | | | sd h' Hle Hacc _ Hptr _ _ Htab]; subst.
  destruct (decoded_table_valid buf H8 ltac:(lia)
              (Hacc (Z.to_nat (hdr_num_entries buf)))) as [Hvalid Henc].
  exists sd. eexists. split; [exact Hptr|]. split; [exact Htab|].
  split; [exact Hvalid|].
  rewrite (write_security_data_encode h sd _ Htab Hvalid), Henc. reflexivity.
Qed.

(** When the total length that the buffer declares is the exact one,
    writing the table that was read gives back the first [total_length] bytes
    of the buffer. *)
Theorem write_after_read_security_data_exact
    buf len sd_p (h0 h : heap) :
  8 <= Z.of_nat (length buf) ->
  len <= Z.of_nat (length buf) ->
  Z.of_nat (length buf) < U64_MODULUS ->
  h0 !! sd_p <> None ->
  hdr_total_length buf = accumulated buf (Z.to_nat (hdr_num_entries buf)) ->
  read_security_data malloc buf len sd_p h0 = Done WIMLIB_ERR_SUCCESS h ->
  exists sd,
    h !! sd_p = Some (BSdPtr (Some sd))
    /\ write_security_data sd h
       = Done (take (Z.to_nat (hdr_total_length buf)) buf) h.
Proof.
  intros H8 Hlen Hbuf Hp Hexact Hrun.
  pose proof (read_security_data_cases buf len sd_p h0 H8 Hlen Hbuf Hp) as Hres.
  rewrite Hrun in Hres.
  inversion Hres as [| | | | sd h' Hle Hacc _ Hptr _ _ Htab]; subst.
  destruct (decoded_table_valid buf H8 ltac:(lia)
              (Hacc (Z.to_nat (hdr_num_entries buf)))) as [Hvalid Henc].
  exists sd. split; [exact Hptr|].
  rewrite (write_security_data_encode h sd _ Htab Hvalid), Henc.
  rewrite <- Hexact. f_equal.
  pose proof (hdr_num_entries_u32 buf) as [Hne0 _].
  assert (H8' : 8 <= hdr_total_length buf).
  { rewrite Hexact. unfold accumulated.
    assert (0 <= sum_sizes (take (Z.to_nat (hdr_num_entries buf)) (hdr_sizes buf)))
      by (apply sum_sizes_nonneg, Forall_take, hdr_sizes_nonneg).
    lia. }
  assert (Htl : Z_to_le 4 (hdr_total_length buf) = take 4 buf).
  { unfold hdr_total_length.
    replace 4%nat with (length (take 4 buf)) at 1 by (rewrite length_take; lia).
    apply Z_to_le_of_bytes. }
  rewrite Htl, take_take_drop. f_equal. lia.
Qed.

(** ** A table followed by other data *)

Lemma split_sizes_concat_app (szs : list Z) (ds : list (list byte)) rest :
  Forall2 (fun sz d => sz = Z.of_nat (length d)) szs ds ->
  split_sizes szs (concat ds ++ rest) = ds.
Proof.
  induction 1 as [|x d szs ds Hx _ IH]; [reflexivity|].
  cbn [split_sizes concat]. subst x. rewrite Nat2Z.id, <- app_assoc.
  rewrite take_app_length, drop_app_length, IH. reflexivity.
Qed.

Section Embedded.

Variable T : sd_table.
Variable rest : list byte.
Hypothesis T_valid : valid_table T.

Lemma encode_table_app :
  encode_table T ++ rest
  = Z_to_le 4 (tbl_total_length T) ++ Z_to_le 4 (tbl_num_entries T)
      ++ flat_map (Z_to_le 8) (tbl_sizes T) ++ concat (tbl_descriptors T) ++ rest.
Proof. unfold encode_table. rewrite <- !app_assoc. reflexivity. Qed.

Lemma hdr_total_length_embedded :
  hdr_total_length (encode_table T ++ rest) = tbl_total_length T.
Proof.
  unfold hdr_total_length. rewrite encode_table_app.
  rewrite take_app_length' by (rewrite Z_to_le_length; reflexivity).
  apply le_to_Z_to_le. exact (valid_total_length_u32 T T_valid).
Qed.

Lemma hdr_num_entries_embedded :
  hdr_num_entries (encode_table T ++ rest) = tbl_num_entries T.
Proof.
  unfold hdr_num_entries. rewrite encode_table_app.
  rewrite drop_app_length' by (rewrite Z_to_le_length; reflexivity).
  rewrite take_app_length' by (rewrite Z_to_le_length; reflexivity).
  apply le_to_Z_to_le. exact (valid_num_entries T T_valid).
Qed.

Lemma hdr_sizes_embedded : hdr_sizes (encode_table T ++ rest) = tbl_sizes T.
Proof.
  unfold hdr_sizes. rewrite hdr_num_entries_embedded, encode_table_app.
  pose proof (valid_sizes_length T T_valid) as Hlen.
  rewrite app_assoc.
  rewrite (drop_app_length' (Z_to_le 4 _ ++ Z_to_le 4 _))
    by (rewrite length_app, !Z_to_le_length; reflexivity).
  rewrite take_app_length' by (rewrite flat_map_le64_length; lia).
  replace (Z.to_nat (tbl_num_entries T)) with (length (tbl_sizes T)) by lia.
  rewrite <- (app_nil_r (flat_map _ _)).
  apply le64_array_flat_map, valid_table_sizes_u64, T_valid.
Qed.

Lemma hdr_descriptors_embedded :
  hdr_descriptors (encode_table T ++ rest) = tbl_descriptors T.
Proof.
  unfold hdr_descriptors. rewrite hdr_sizes_embedded, hdr_num_entries_embedded.
  rewrite encode_table_app.
  pose proof (valid_sizes_length T T_valid) as Hlen.
  pose proof (valid_num_entries T T_valid) as [Hne0 _].
  rewrite !app_assoc.
  rewrite <- (app_assoc _ (concat _) rest).
  rewrite (drop_app_length' ((Z_to_le 4 _ ++ Z_to_le 4 _) ++ flat_map _ _))
    by (rewrite !length_app, !Z_to_le_length, flat_map_le64_length; lia).
  apply split_sizes_concat_app, (valid_descriptor_sizes T T_valid).
Qed.

Lemma accumulated_embedded k :
  accumulated (encode_table T ++ rest) k <= tbl_total_length T.
Proof.
  unfold accumulated. rewrite hdr_sizes_embedded, hdr_num_entries_embedded.
  rewrite (valid_total_length T T_valid).
  pose proof (valid_table_sizes_nonneg T T_valid) as Hnn.
  destruct (Nat.le_ge_cases k (length (tbl_sizes T))) as [Hk|Hk].
  - pose proof (sum_sizes_take_mono (tbl_sizes T) k (length (tbl_sizes T)) Hnn Hk)
      as Hmono.
    rewrite firstn_all in Hmono. lia.
  - rewrite take_ge by lia. lia.
Qed.

Lemma accumulated_embedded_all :
  accumulated (encode_table T ++ rest)
    (Z.to_nat (hdr_num_entries (encode_table T ++ rest)))
  = tbl_total_length T.
Proof.
  unfold accumulated. rewrite hdr_sizes_embedded, hdr_num_entries_embedded.
  rewrite (valid_total_length T T_valid).
  pose proof (valid_sizes_length T T_valid) as Hlen.
  rewrite take_ge by lia. reflexivity.
Qed.

End Embedded.

(** The bytes that follow the table in the resource do not matter: when no
    allocation fails, reading what [write_security_data] wrote, followed by
    any other data, with any resource length that covers the table, gives
    back the table. *)
Theorem security_data_round_trip_embedded (h h1 : heap) sd sd_p T rest len :
  (forall h' n, malloc h' n <> None) ->
  table_at h sd = Some T ->
  valid_table T ->
  h1 !! sd_p <> None ->
  tbl_total_length T <= len ->
  len <= tbl_total_length T + Z.of_nat (length rest) ->
  tbl_total_length T + Z.of_nat (length rest) < U64_MODULUS ->
  exists bytes h2 sd',
    write_security_data sd h = Done bytes h
    /\ read_security_data malloc (bytes ++ rest) len sd_p h1
       = Done WIMLIB_ERR_SUCCESS h2
    /\ h2 !! sd_p = Some (BSdPtr (Some sd'))
    /\ table_at h2 sd' = Some T.
Proof.
  intros Htotal Htab Hvalid Hp Hlen1 Hlen2 Hlen3.
  pose proof (write_security_data_encode h sd T Htab Hvalid) as Hwrite.
  pose proof (encode_table_length T Hvalid) as Hlen.
  pose proof (valid_total_length_u32 T Hvalid) as [_ Htl32].
  pose proof (valid_num_entries T Hvalid) as [Hne0 _].
  pose proof (sum_sizes_nonneg _ (valid_table_sizes_nonneg T Hvalid)) as Hsum.
  pose proof (valid_total_length T Hvalid) as Htl.
  assert (Hlength : Z.of_nat (length (encode_table T ++ rest))
                    = tbl_total_length T + Z.of_nat (length rest))
    by (rewrite length_app; lia).
  pose proof (read_security_data_cases (encode_table T ++ rest) len
                sd_p h1 ltac:(lia) ltac:(lia) ltac:(lia) Hp) as Hres.
  exists (encode_table T).
  inversion Hres as [h' n Hm | Hlong | j _ _ _ _ Hover | j _ _ _ _ Hwrap
                    | sd' h2 _ _ _ Hptr _ _ Htab2]; subst.
  - exfalso. exact (Htotal h' n Hm).
  - exfalso. rewrite hdr_total_length_embedded in Hlong by exact Hvalid. lia.
  - exfalso. pose proof (accumulated_embedded T rest Hvalid j).
    rewrite hdr_total_length_embedded in Hover by exact Hvalid. lia.
  - exfalso. pose proof (accumulated_embedded T rest Hvalid (S j)).
    unfold U64_MODULUS, U32_MODULUS in *. lia.
  - exists h2, sd'.
    repeat split; try assumption; try reflexivity; try (symmetry; assumption).
    rewrite Htab2. f_equal.
    rewrite accumulated_embedded_all, hdr_num_entries_embedded, hdr_sizes_embedded,
      hdr_descriptors_embedded by exact Hvalid.
    destruct T; reflexivity.
Qed.

(** ** The assertion of write_security_data *)

Lemma encode_table_length_arrays T :
  Forall2 (fun sz d => sz = Z.of_nat (length d)) (tbl_sizes T) (tbl_descriptors T) ->
  Z.of_nat (length (encode_table T))
  = 8 + 8 * Z.of_nat (length (tbl_sizes T)) + sum_sizes (tbl_sizes T).
Proof.
  intros Hall. unfold encode_table.
  rewrite !length_app, !Z_to_le_length, flat_map_le64_length.
  pose proof (concat_length_sizes _ _ Hall). lia.
Qed.

(** On a table whose arrays are as the count of entries says,
    [write_security_data] returns normally when [total_length] is 8 + 8 *
    num_entries + the sum of the sizes, and fails its assertion, after having
    written everything, when it is any other value. *)
Theorem write_security_data_assertion (h : heap) sd T :
  table_at h sd = Some T ->
  Z.of_nat (length (tbl_sizes T)) = tbl_num_entries T ->
  Forall2 (fun sz d => sz = Z.of_nat (length d)) (tbl_sizes T) (tbl_descriptors T) ->
  (tbl_total_length T = 8 + 8 * tbl_num_entries T + sum_sizes (tbl_sizes T) ->
   write_security_data sd h = Done (encode_table T) h)
  /\ (tbl_total_length T <> 8 + 8 * tbl_num_entries T + sum_sizes (tbl_sizes T) ->
      write_security_data sd h = AssertionFailed).
Proof.
  intros Htab Hszs Hall.
  pose proof (encode_table_length_arrays T Hall) as Hlen.
  unfold table_at in Htab.
  destruct (h !! sd) as [[|s| | | |]|] eqn:Hsd; try discriminate.
  destruct (sizes_at h (sizes s)) as [szs|] eqn:Esz; [|discriminate].
  destruct (descriptors_at h (descriptors s)) as [ds|] eqn:Eds; [|discriminate].
  injection Htab as <-.
  cbn [tbl_total_length tbl_num_entries tbl_sizes tbl_descriptors] in *.
  unfold write_security_data.
  rewrite (bind_Done _ _ _ _ _ (load_sd_eq h sd s Hsd)). cbv zeta.
  change 0 with (Z.of_nat 0).
  rewrite (bind_Done _ _ _ _ _
             (write_sizes_spec h s szs (Z.to_nat (num_entries s)) 0%nat _ Esz
                ltac:(lia))).
  rewrite (bind_Done _ _ _ _ _
             (write_descriptors_spec h s szs ds (Z.to_nat (num_entries s)) 0%nat _
                Esz Eds Hall ltac:(lia))).
  rewrite !drop_0. unfold put_u32. cbn [app].
  assert (Henc : ((Z_to_le 4 (total_length s) ++ Z_to_le 4 (num_entries s))
                    ++ flat_map (Z_to_le 8) szs) ++ concat ds
                 = encode_table (Build_sd_table (total_length s) (num_entries s) szs ds)).
  { unfold encode_table. cbn [tbl_total_length tbl_num_entries tbl_sizes tbl_descriptors].
    rewrite <- !app_assoc. reflexivity. }
  rewrite Henc, Hlen. split; intros Htl.
  - replace (8 + 8 * Z.of_nat (length szs) + sum_sizes szs =? total_length s)
      with true by (symmetry; apply Z.eqb_eq; lia).
    reflexivity.
  - replace (8 + 8 * Z.of_nat (length szs) + sum_sizes szs =? total_length s)
      with false by (symmetry; apply Z.eqb_neq; lia).
    reflexivity.
Qed.

(** ** Successive releases *)

Lemma owns_table_set_refcnt (h : heap) sd s ptrs r :
  owns_table h sd s ptrs ->
  owns_table (<[sd:=BSecData (set_refcnt s r)]> h) sd (set_refcnt s r) ptrs.
Proof.
  intros [Hsd Hptrs Hnd Hlive].
  assert (Hown : owned_blocks sd (set_refcnt s r) ptrs = owned_blocks sd s ptrs)
    by reflexivity.
  split; rewrite ?Hown.
  - apply lookup_insert_eq.
  - cbn [set_refcnt descriptors num_entries].
    destruct (descriptors s) as [l|] eqn:El; [|exact Hptrs].
    destruct Hptrs as [Hl Hlen]. split; [|exact Hlen].
    rewrite lookup_insert_ne; [exact Hl|].
    intros <-. unfold owned_blocks in Hnd. rewrite El in Hnd.
    apply NoDup_app in Hnd as (_ & _ & Hnd).
    apply NoDup_app in Hnd as (_ & _ & Hnd).
    cbn [ptr_locs app] in Hnd. apply NoDup_cons in Hnd as [Hnin _].
    apply Hnin, list_elem_of_here.
  - exact Hnd.
  - rewrite Forall_forall in Hlive. apply Forall_forall. intros l Hl.
    destruct (decide (l = sd)) as [->|Hne].
    + rewrite lookup_insert_eq. eexists; reflexivity.
    + rewrite lookup_insert_ne by congruence. apply Hlive, Hl.
Qed.

Lemma set_refcnt_set s r r' : set_refcnt (set_refcnt s r) r' = set_refcnt s r'.
Proof. reflexivity. Qed.

Lemma free_security_data_times_shared k : forall (h : heap) sd s ptrs,
  owns_table h sd s ptrs ->
  Z.of_nat k < refcnt s < U32_MODULUS ->
  free_security_data_times k (Some sd) h
  = Done tt (<[sd:=BSecData (set_refcnt s (refcnt s - Z.of_nat k))]> h).
Proof.
  induction k as [|k IH]; intros h sd s ptrs Hown Hrc.
  - cbn [free_security_data_times]. unfold ret. f_equal.
    rewrite Z.sub_0_r. symmetry. apply insert_id.
    rewrite (owns_sd _ _ _ _ Hown). destruct s; reflexivity.
  - cbn [free_security_data_times].
    rewrite (bind_Done _ _ _ _ _
               (free_security_data_shared h sd s (owns_sd _ _ _ _ Hown) ltac:(lia))).
    fold (set_refcnt s (refcnt s - 1)).
    rewrite (IH _ sd _ ptrs (owns_table_set_refcnt h sd s ptrs _ Hown))
      by (cbn [set_refcnt refcnt]; lia).
    rewrite insert_insert_eq, set_refcnt_set. cbn [set_refcnt refcnt].
    do 4 f_equal. lia.
Qed.

Lemma free_all_insert_owned ls (h : heap) l b :
  l ∈ ls -> free_all ls (<[l:=b]> h) = free_all ls h.
Proof.
  intros Hl. apply map_eq. intros k. rewrite !lookup_free_all.
  destruct (decide (k ∈ ls)) as [Hk|Hk]; [reflexivity|].
  rewrite lookup_insert_ne; [reflexivity|]. intros ->. exact (Hk Hl).
Qed.

(** A table whose count is [n] survives [k < n] releases, which only lower
    the count by [k], and is freed, with all its blocks, by the [n]-th. *)
Theorem free_security_data_times_spec (n : nat) (h : heap) sd s ptrs :
  owns_table h sd s ptrs ->
  refcnt s = Z.of_nat n ->
  (0 < n)%nat ->
  Z.of_nat n < U32_MODULUS ->
  (forall k, (k < n)%nat ->
     free_security_data_times k (Some sd) h
     = Done tt (<[sd:=BSecData (set_refcnt s (Z.of_nat (n - k)))]> h))
  /\ free_security_data_times n (Some sd) h
     = Done tt (free_all (owned_blocks sd s ptrs) h).
Proof.
  intros Hown Hrc Hpos Hn. split.
  - intros k Hk.
    rewrite (free_security_data_times_shared k h sd s ptrs Hown) by lia.
    do 4 f_equal. lia.
  - revert h s Hown Hrc. induction n as [|n IH]; intros h s Hown Hrc; [lia|].
    cbn [free_security_data_times].
    destruct n as [|n].
    + rewrite (bind_Done _ _ _ _ _ (free_security_data_last h sd s ptrs Hown Hrc)).
      reflexivity.
    + rewrite (bind_Done _ _ _ _ _
                 (free_security_data_shared h sd s (owns_sd _ _ _ _ Hown) ltac:(lia))).
      fold (set_refcnt s (refcnt s - 1)).
      rewrite (IH ltac:(lia) ltac:(lia) _ _
                 (owns_table_set_refcnt h sd s ptrs _ Hown))
        by (cbn [set_refcnt refcnt]; lia).
      f_equal.
      change (owned_blocks sd (set_refcnt s (refcnt s - 1)) ptrs)
        with (owned_blocks sd s ptrs).
      apply free_all_insert_owned.
      unfold owned_blocks. rewrite !elem_of_app. do 3 right.
      apply list_elem_of_here.
Qed.

(** ** Releasing a table that was read *)

(** Up to the loop: the run has failed and freed everything, or it has
    succeeded with no entry, or it enters the loop with the table and its two
    arrays in place. *)
Lemma read_security_data_prologue buf len sd_p (h0 : heap) :
  8 <= Z.of_nat (length buf) ->
  len <= Z.of_nat (length buf) ->
  h0 !! sd_p <> None ->
  (exists e, e <> WIMLIB_ERR_SUCCESS
     /\ read_security_data malloc buf len sd_p h0 = Done e h0)
  \/ (exists sd,
        h0 !! sd = None
        /\ read_security_data malloc buf len sd_p h0
           = Done WIMLIB_ERR_SUCCESS
               (<[sd_p:=BSdPtr (Some sd)]>
                  (<[sd:=BSecData (Build_wim_security_data 8
                           (hdr_num_entries buf) None None 1)]> h0)))
  \/ (exists sd szl dsl h7,
        accumulated buf 0 <= hdr_total_length buf
        /\ hdr_total_length buf <= len
        /\ loop_inv h0 sd szl dsl (hdr_total_length buf) (hdr_num_entries buf)
             (hdr_sizes buf) []
             (split_sizes (take (length ([] : list loc)) (hdr_sizes buf))
                (drop (Z.to_nat (8 + 8 * hdr_num_entries buf)) buf)) h7
        /\ read_security_data malloc buf len sd_p h0
           = read_descriptors malloc buf sd sd_p
               (Z.to_nat (hdr_num_entries buf)) 0
               (accumulated buf 0) (accumulated buf 0) h7).
Proof.
  intros H8 Hlen Hp.
  pose proof (hdr_total_length_u32 buf) as [Htl0 Htl32].
  pose proof (hdr_num_entries_u32 buf) as [Hne0 Hne32].
  destruct (malloc h0 SIZEOF_SD) as [sd|] eqn:Hm.
  2:{ left. exists WIMLIB_ERR_NOMEM. split; [discriminate|].
      unfold read_security_data.
      rewrite (bind_Done _ _ _ _ _ (MALLOC_None _ _ Hm)). reflexivity. }
  pose proof (malloc_fresh _ _ _ Hm) as Hsd.
  assert (Hsd_p : sd <> sd_p) by (intros ->; congruence).
  read_header Hm.
  destruct (Z.gtb_spec (hdr_total_length buf) len) as [Hgt|Hle].
  { left. exists WIMLIB_ERR_INVALID_RESOURCE_SIZE. split; [discriminate|].
    exact (out_free_sd_early h0 sd _ _ None (BUninit 0) _ Hsd I). }
  destruct (Z.eqb_spec (hdr_num_entries buf) 0) as [Hz|Hnz].
  { right. left. exists sd. split; [exact Hsd|].
    unfold out.
    erewrite bind_Done; [|apply load_sd_eq, lookup_insert_eq].
    cbn [num_entries sizes descriptors refcnt].
    erewrite bind_Done; [|apply store_eq; heap_live].
    rewrite insert_insert_eq.
    erewrite bind_Done;
      [|apply store_eq; rewrite lookup_insert_ne by exact Hsd_p;
        destruct (h0 !! sd_p); [eexists; reflexivity | congruence]].
    reflexivity. }
  unfold SIZEOF_U64, SIZEOF_PTR.
  rewrite (Z.mod_small (hdr_num_entries buf * 8))
    by (unfold U64_MODULUS, U32_MODULUS in *; lia).
  assert (Hbase : u64_add 8 (hdr_num_entries buf * 8) = accumulated buf 0).
  { unfold u64_add, accumulated. rewrite take_0.
    rewrite Z.mod_small by (unfold U64_MODULUS, U32_MODULUS in *; lia).
    unfold sum_sizes. simpl. lia. }
  assert (Hp0 : 8 + hdr_num_entries buf * 8 = accumulated buf 0).
  { unfold accumulated. rewrite take_0. unfold sum_sizes. simpl. lia. }
  rewrite Hbase, Hp0.
  destruct (Z.gtb_spec (accumulated buf 0) (hdr_total_length buf)) as [Hgt|Hle0].
  { left. exists WIMLIB_ERR_INVALID_RESOURCE_SIZE. split; [discriminate|].
    exact (out_free_sd_early h0 sd _ _ None (BUninit 0) _ Hsd I). }
  set (S0 := Build_wim_security_data (hdr_total_length buf) (hdr_num_entries buf)
               None None 1).
  destruct (malloc (<[sd:=BSecData S0]> h0) (hdr_num_entries buf * 8))
    as [szl|] eqn:Hm2.
  2:{ left. exists WIMLIB_ERR_NOMEM. split; [discriminate|].
      rewrite (bind_Done _ _ _ _ _ (MALLOC_None _ _ Hm2)).
      erewrite bind_Done; [|apply store_eq; heap_live].
      rewrite insert_insert_eq.
      exact (out_free_sd_early h0 sd _ _ None (BUninit 0) _ Hsd I). }
  pose proof (malloc_fresh _ _ _ Hm2) as Hszl.
  assert (Hszl_sd : szl <> sd).
  { intros ->. rewrite lookup_insert_eq in Hszl. discriminate. }
  rewrite lookup_insert_ne in Hszl by congruence.
  rewrite (bind_Done _ _ _ _ _ (MALLOC_Some _ _ _ Hm2)).
  erewrite bind_Done; [|apply store_eq; heap_live].
  erewrite bind_Done;
    [|apply get_bytes_eq; unfold accumulated in Hle0;
      pose proof (sum_sizes_nonneg (take 0 (hdr_sizes buf)) ltac:(rewrite take_0; constructor));
      lia].
  erewrite bind_Done; [|apply store_eq; heap_live].
  change (Z.to_nat 8) with 8%nat. fold (hdr_sizes buf).
  set (S1 := Build_wim_security_data (hdr_total_length buf) (hdr_num_entries buf)
               (Some szl) None 1).
  match goal with
  | |- context [bind (CALLOC _ _ _) _ ?h] => set (h4 := h)
  end.
  assert (Hh4 : h4 = <[sd:=BSecData S1]> (<[szl:=BU64s (hdr_sizes buf)]> h0)).
  { subst h4. apply map_eq. intros k.
    destruct (decide (k = sd)) as [->|Hk1]; [heap_lookup; reflexivity|].
    destruct (decide (k = szl)) as [->|Hk2]; heap_lookup; reflexivity. }
  clearbody h4. subst h4.
  unfold CALLOC.
  rewrite (Z.mod_small (hdr_num_entries buf * 8))
    by (unfold U64_MODULUS, U32_MODULUS in *; lia).
  destruct (malloc (<[sd:=BSecData S1]> (<[szl:=BU64s (hdr_sizes buf)]> h0))
              (hdr_num_entries buf * 8)) as [dsl|] eqn:Hm3.
  2:{ left. exists WIMLIB_ERR_NOMEM. split; [discriminate|].
      erewrite (bind_Done (bind _ _));
        [|rewrite (bind_Done _ _ _ _ _ (MALLOC_None _ _ Hm3)); unfold ret; reflexivity].
      erewrite bind_Done; [|apply store_eq; heap_live].
      rewrite insert_insert_eq.
      exact (out_free_sd_early h0 sd _ _ (Some szl) (BU64s (hdr_sizes buf)) _
               Hsd (conj Hszl Hszl_sd)). }
  pose proof (malloc_fresh _ _ _ Hm3) as Hdsl.
  assert (Hdsl_sd : dsl <> sd).
  { intros ->. rewrite lookup_insert_eq in Hdsl. discriminate. }
  assert (Hdsl_sz : dsl <> szl).
  { intros ->. rewrite lookup_insert_ne, lookup_insert_eq in Hdsl by congruence.
    discriminate. }
  rewrite !lookup_insert_ne in Hdsl by congruence.
  erewrite (bind_Done (bind _ _)).
  2:{ rewrite (bind_Done _ _ _ _ _ (MALLOC_Some _ _ _ Hm3)).
      erewrite bind_Done; [|apply store_eq; heap_live].
      unfold ret. reflexivity. }
  erewrite bind_Done; [|apply store_eq; heap_live].
  right. right. exists sd, szl, dsl. eexists.
  split; [exact Hle0|]. split; [exact Hle|]. split; [|reflexivity].
  split.
  - heap_lookup. reflexivity.
  - heap_lookup. reflexivity.
  - heap_lookup. cbn [fmap list_fmap app length]. rewrite Nat.sub_0_r. reflexivity.
  - simpl. lia.
  - simpl. constructor.
  - cbn [app].
    apply NoDup_cons; split;
      [rewrite !elem_of_cons, elem_of_nil; intros [?|[?|[]]]; congruence|].
    apply NoDup_cons; split;
      [rewrite elem_of_cons, elem_of_nil; intros [?|[]]; congruence|].
    apply NoDup_singleton.
  - cbn [app]. apply frame_intro.
    + intros k Hk. rewrite !elem_of_cons, elem_of_nil in Hk.
      destruct Hk as [->|[->|[->|[]]]]; assumption.
    + intros k Hk. rewrite !not_elem_of_cons in Hk.
      destruct Hk as (Hk1 & Hk2 & Hk3 & _).
      heap_lookup. reflexivity.
Qed.

(** What a successful run leaves: the table owns its blocks, and freeing
    them gives back the initial heap, but for the pointer stored through
    [sd_p]. *)
Lemma read_security_data_success_owns buf len sd_p (h0 h : heap) :
  8 <= Z.of_nat (length buf) ->
  len <= Z.of_nat (length buf) ->
  Z.of_nat (length buf) < U64_MODULUS ->
  h0 !! sd_p <> None ->
  read_security_data malloc buf len sd_p h0 = Done WIMLIB_ERR_SUCCESS h ->
  exists sd s ptrs,
    h !! sd_p = Some (BSdPtr (Some sd))
    /\ owns_table h sd s ptrs
    /\ refcnt s = 1
    /\ free_all (owned_blocks sd s ptrs) h = <[sd_p:=BSdPtr (Some sd)]> h0.
Proof.
  intros H8 Hlen Hbuf Hp Hrun.
  pose proof (hdr_total_length_u32 buf) as [Htl0 Htl32].
  pose proof (hdr_num_entries_u32 buf) as [Hne0 Hne32].
  destruct (read_security_data_prologue buf len sd_p h0 H8 Hlen Hp)
    as [(e & He & Hfail) | [(sd & Hsd & Hzero)
        | (sd & szl & dsl & h7 & Hle0 & Hle & Hinv & Hloop)]].
  - rewrite Hfail in Hrun. congruence.
  - rewrite Hzero in Hrun. injection Hrun as <-.
    assert (Hsd_p : sd <> sd_p) by (intros ->; congruence).
    exists sd, (Build_wim_security_data 8 (hdr_num_entries buf) None None 1), [].
    split; [apply lookup_insert_eq|].
    split; [|split; [reflexivity|]].
    + split.
      * heap_lookup. reflexivity.
      * reflexivity.
      * apply NoDup_singleton.
      * repeat constructor. heap_live.
    + apply frame_intro.
      * intros k Hk. apply list_elem_of_singleton in Hk as ->.
        rewrite lookup_insert_ne by congruence. exact Hsd.
      * intros k Hk. apply not_elem_of_cons in Hk as [Hk _].
        destruct (decide (k = sd_p)) as [->|Hkp]; heap_lookup; reflexivity.
  - rewrite Hloop in Hrun.
    pose proof (read_descriptors_cases buf h0 sd szl dsl sd_p
      (hdr_total_length buf) (hdr_num_entries buf) (hdr_sizes buf)
      Hbuf ltac:(lia) Htl32 Hne0 (hdr_sizes_length buf) (hdr_sizes_range buf) Hp
      (Z.to_nat (hdr_num_entries buf)) [] h7 Hinv ltac:(simpl; lia)
      ltac:(rewrite <- accumulated_acc_from; exact Hle0)) as Hres.
    cbn [length] in Hres. rewrite <- !accumulated_acc_from in Hres.
    change (Z.of_nat 0) with 0 in Hres. rewrite Hrun in Hres.
    inversion Hres as [| | | dl hf Ha Hf Hl Ho]; subst h.
    destruct (loop_inv_outside _ _ _ _ _ _ _ _ _ _ sd_p Hf Hp) as [Hout Hlk].
    pose proof (loop_inv_owns _ _ _ _ _ _ _ _ _ _ Hf) as [Osd Optrs Ond Olive].
    pose proof (inv_frame _ _ _ _ _ _ _ _ _ _ Hf) as Hframe.
    cbn [descriptors sizes num_entries] in Optrs.
    unfold owned_blocks in Ond, Olive.
    cbn [descriptors sizes ptr_locs app] in Ond, Olive.
    rewrite omap_id_ptrs in Ond, Olive.
    assert (Hsd_in : sd ∈ dl ++ [szl; dsl; sd]).
    { rewrite elem_of_app. right. do 2 apply list_elem_of_further.
      apply list_elem_of_here. }
    assert (Hds_in : dsl ∈ dl ++ [szl; dsl; sd]).
    { rewrite elem_of_app. right. apply list_elem_of_further, list_elem_of_here. }
    assert (Hsd_p : sd <> sd_p) by (intros ->; exact (Hout Hsd_in)).
    assert (Hds_p : dsl <> sd_p) by (intros ->; exact (Hout Hds_in)).
    pose proof (inv_sd _ _ _ _ _ _ _ _ _ _ Hf) as Isd.
    pose proof (inv_ds _ _ _ _ _ _ _ _ _ _ Hf) as Ids.
    assert (Hds_sd : dsl <> sd) by (intros ->; congruence).
    exists sd,
      (Build_wim_security_data
         (accumulated buf (Z.to_nat (hdr_num_entries buf)))
         (hdr_num_entries buf) (Some szl) (Some dsl) 1),
      ((Some <$> dl) ++ replicate (Z.to_nat (hdr_num_entries buf) - length dl) None).
    split; [apply lookup_insert_eq|].
    split; [|split; [reflexivity|]].
    + split; cbn [descriptors sizes num_entries];
        unfold owned_blocks; cbn [descriptors sizes ptr_locs app];
        rewrite ?omap_id_ptrs.
      * heap_lookup. reflexivity.
      * split; [heap_lookup; apply Optrs | apply Optrs].
      * exact Ond.
      * rewrite Forall_forall in Olive. apply Forall_forall. intros l Hl0.
        destruct (decide (l = sd_p)) as [->|Hlp]; [heap_live|].
        destruct (decide (l = sd)) as [->|Hls]; [heap_live|].
        rewrite !lookup_insert_ne by congruence. apply Olive, Hl0.
    + unfold owned_blocks. cbn [descriptors sizes ptr_locs app].
      rewrite omap_id_ptrs.
      apply map_eq. intros k. rewrite lookup_free_all.
      rewrite <- Hframe.
      destruct (decide (k ∈ dl ++ [szl; dsl; sd])) as [Hk|Hk].
      * rewrite lookup_insert_ne by (intros <-; exact (Hout Hk)).
        rewrite lookup_free_all, decide_True by exact Hk. reflexivity.
      * destruct (decide (k = sd_p)) as [->|Hkp]; [heap_lookup; reflexivity|].
        assert (k <> sd) by (intros ->; exact (Hk Hsd_in)).
        rewrite !lookup_insert_ne by congruence.
        rewrite lookup_free_all, decide_False by exact Hk. reflexivity.
Qed.

(** Nothing leaks: after a successful [read_security_data], one call of
    [free_security_data] on the table frees everything that the run
    allocated.  The heap is the initial one, but for the pointer variable
    behind [sd_p], which still holds the address of the freed table. *)
Theorem free_after_read_security_data
    buf len sd_p (h0 h : heap) :
  8 <= Z.of_nat (length buf) ->
  len <= Z.of_nat (length buf) ->
  Z.of_nat (length buf) < U64_MODULUS ->
  h0 !! sd_p <> None ->
  read_security_data malloc buf len sd_p h0 = Done WIMLIB_ERR_SUCCESS h ->
  exists sd,
    h !! sd_p = Some (BSdPtr (Some sd))
    /\ h0 !! sd = None
    /\ free_security_data (Some sd) h
       = Done tt (<[sd_p:=BSdPtr (Some sd)]> h0).
Proof.
  intros H8 Hlen Hbuf Hp Hrun.
  destruct (read_security_data_success_owns buf len sd_p h0 h H8 Hlen Hbuf Hp Hrun)
    as (sd & s & ptrs & Hptr & Hown & Hrc & Hframe).
  exists sd. split; [exact Hptr|]. split.
  - assert (Hin : sd ∈ owned_blocks sd s ptrs).
    { unfold owned_blocks. rewrite !elem_of_app. do 3 right. apply list_elem_of_here. }
    assert (Hnone : free_all (owned_blocks sd s ptrs) h !! sd = None)
      by (rewrite lookup_free_all, decide_True by exact Hin; reflexivity).
    rewrite Hframe in Hnone.
    destruct (decide (sd = sd_p)) as [->|Hne].
    + rewrite lookup_insert_eq in Hnone. discriminate.
    + rewrite lookup_insert_ne in Hnone by congruence. exact Hnone.
  - rewrite (free_security_data_last h sd s ptrs Hown Hrc), Hframe. reflexivity.
Qed.

End SecurityProofs.

(** ** Concrete runs *)

Lemma first_fit_fresh (h : heap) n l : first_fit h n = Some l -> h !! l = None.
Proof.
  unfold first_fit. intros [= <-]. apply not_elem_of_dom, is_fresh.
Qed.

Lemma first_fit_total (h : heap) n : first_fit h n <> None.
Proof. discriminate. Qed.

Lemma bounded_fit_fresh limit (h : heap) n l :
  bounded_fit limit h n = Some l -> h !! l = None.
Proof.
  unfold bounded_fit. destruct (n <? limit); [|discriminate].
  intros [= <-]. apply not_elem_of_dom, is_fresh.
Qed.

Ltac run :=
  vm_compute; try reflexivity;
  try (let H := fresh in intros H; discriminate H).

(** The count of entries is 0 and the declared total length, 100, exceeds the
    8 bytes of the buffer: the run fails. *)
Lemma read_security_data_zero_entries_rejected :
  Z.of_nat (length zero_entries_long_buf) = 8
  /\ hdr_num_entries zero_entries_long_buf = 0
  /\ first_fit caller_heap SIZEOF_SD = Some 1%nat
  /\ read_security_data first_fit zero_entries_long_buf 8 0%nat caller_heap
     = Done WIMLIB_ERR_INVALID_RESOURCE_SIZE caller_heap.
Proof. repeat split; run. Qed.

Lemma read_security_data_zero_entries_witness :
  exists h,
    read_security_data first_fit zero_entries_buf 8 0%nat caller_heap
    = Done WIMLIB_ERR_SUCCESS h
    /\ h !! 0%nat = Some (BSdPtr (Some 1%nat))
    /\ h !! 1%nat = Some (BSecData (Build_wim_security_data 8 0 None None 1))
    /\ table_at h 1%nat = Some (Build_sd_table 8 0 [] []).
Proof.
  apply (read_security_data_zero_entries first_fit first_fit_fresh
           zero_entries_buf 8 0%nat caller_heap 1%nat); run.
Defined.

Lemma read_security_data_total_length_too_long_witness :
  12 < hdr_total_length exact_fit_buf
  /\ read_security_data first_fit exact_fit_buf 12 0%nat caller_heap
     = Done WIMLIB_ERR_INVALID_RESOURCE_SIZE caller_heap.
Proof.
  split; [run|].
  apply (read_security_data_total_length_too_long first_fit first_fit_fresh
           exact_fit_buf 12 0%nat caller_heap 1%nat); run.
Defined.

Lemma read_security_data_failure_releases_witness :
  exists e h,
    read_security_data first_fit overrun_buf 20 0%nat caller_heap = Done e h
    /\ e <> WIMLIB_ERR_SUCCESS
    /\ h = caller_heap.
Proof.
  eexists _, _. split; [run|]. split; [discriminate|].
  apply (read_security_data_failure_releases first_fit first_fit_fresh
           overrun_buf 20 0%nat caller_heap _ WIMLIB_ERR_INVALID_RESOURCE_SIZE);
    run.
Defined.

Lemma read_security_data_total_length_witness :
  exists h sd T,
    read_security_data first_fit exact_fit_buf 20 0%nat caller_heap
    = Done WIMLIB_ERR_SUCCESS h
    /\ h !! 0%nat = Some (BSdPtr (Some sd))
    /\ table_at h sd = Some T
    /\ tbl_total_length T
       = to_u32 (8 + 8 * tbl_num_entries T + sum_sizes (tbl_sizes T))
    /\ (8 + 8 * tbl_num_entries T + sum_sizes (tbl_sizes T) <= U32_MODULUS - 1 ->
        tbl_total_length T
        = 8 + 8 * tbl_num_entries T + sum_sizes (tbl_sizes T)).
Proof.
  eexists.
  assert (Hrun : read_security_data first_fit exact_fit_buf 20 0%nat caller_heap
                 = Done WIMLIB_ERR_SUCCESS _) by run.
  destruct (read_security_data_total_length first_fit first_fit_fresh
              exact_fit_buf 20 0%nat caller_heap _
              ltac:(run) ltac:(run) ltac:(run) ltac:(run) Hrun)
    as (sd & T & H).
  exists sd, T. split; [exact Hrun | exact H].
Defined.

Lemma read_security_data_overrun_witness :
  hdr_total_length overrun_buf = 20
  /\ hdr_num_entries overrun_buf = 1
  /\ hdr_sizes overrun_buf = [20]
  /\ read_security_data first_fit overrun_buf 20 0%nat caller_heap
     = Done WIMLIB_ERR_INVALID_RESOURCE_SIZE caller_heap.
Proof.
  split; [run|]. split; [run|]. split; [run|].
  apply (read_security_data_overrun first_fit first_fit_fresh
           overrun_buf 20 0%nat caller_heap 0%nat);
    try apply first_fit_total; try (split; run); run.
Defined.

Lemma read_security_data_overflow_not_rejected_witness :
  hdr_total_length overflow_buf = 16
  /\ hdr_num_entries overflow_buf = 1
  /\ hdr_sizes overflow_buf = [2 ^ 64 - 1]
  /\ (read_security_data (bounded_fit (2 ^ 47)) overflow_buf 16 0%nat caller_heap
      = Done WIMLIB_ERR_NOMEM caller_heap
      \/ read_security_data (bounded_fit (2 ^ 47)) overflow_buf 16 0%nat caller_heap
         = Undefined).
Proof.
  split; [run|]. split; [run|]. split; [run|].
  apply (read_security_data_overflow_not_rejected (bounded_fit (2 ^ 47))
           (bounded_fit_fresh (2 ^ 47)) overflow_buf 16 0%nat caller_heap 0%nat);
    run.
Defined.

(** What the code does on [overflow_buf]: with an allocator that refuses a
    request of 2^64 - 1 bytes it returns [WIMLIB_ERR_NOMEM]; with one that
    grants it, it reads past the end of the buffer. *)
Lemma read_security_data_overflow_run :
  read_security_data (bounded_fit (2 ^ 47)) overflow_buf 16 0%nat caller_heap
  = Done WIMLIB_ERR_NOMEM caller_heap
  /\ read_security_data first_fit overflow_buf 16 0%nat caller_heap = Undefined.
Proof. split; run. Qed.

Lemma exact_fit_table_valid : valid_table exact_fit_table.
Proof.
  split; unfold is_u32; cbn; try (vm_compute; split; congruence);
    try reflexivity.
  repeat constructor.
Defined.

Lemma write_security_data_length_witness :
  write_security_data 1%nat shared_heap = Done exact_fit_buf shared_heap
  /\ Z.of_nat (length exact_fit_buf) = 20.
Proof.
  apply (write_security_data_length shared_heap 1%nat exact_fit_table);
    [run | exact exact_fit_table_valid].
Defined.

Lemma security_data_round_trip_witness :
  exists bytes h2 sd',
    write_security_data 1%nat shared_heap = Done bytes shared_heap
    /\ Z.of_nat (length bytes) = 20
    /\ read_security_data first_fit bytes 20 0%nat caller_heap
       = Done WIMLIB_ERR_SUCCESS h2
    /\ h2 !! 0%nat = Some (BSdPtr (Some sd'))
    /\ table_at h2 sd' = Some exact_fit_table.
Proof.
  apply (security_data_round_trip first_fit first_fit_fresh
           shared_heap caller_heap 1%nat 0%nat exact_fit_table);
    [apply first_fit_total | run | exact exact_fit_table_valid | run].
Defined.

Lemma shared_heap_owns : owns_table shared_heap 1%nat shared_sd [Some 4%nat].
Proof.
  split.
  - run.
  - split; run.
  - apply (bool_decide_unpack _). vm_compute. exact I.
  - apply (bool_decide_unpack _). vm_compute. exact I.
Defined.

Lemma last_heap_owns :
  owns_table
    (<[1%nat:=BSecData (Build_wim_security_data 20 1 (Some 2%nat) (Some 3%nat) 1)]>
       shared_heap)
    1%nat (Build_wim_security_data 20 1 (Some 2%nat) (Some 3%nat) 1) [Some 4%nat].
Proof.
  split.
  - run.
  - split; run.
  - apply (bool_decide_unpack _). vm_compute. exact I.
  - apply (bool_decide_unpack _). vm_compute. exact I.
Defined.

(** Two releases of a table that two images share: the first decrements the
    count, the second frees the four blocks. *)
Lemma free_security_data_refcount_witness :
  free_security_data (Some 1%nat) shared_heap
  = Done tt (<[1%nat:=BSecData
                 (Build_wim_security_data 20 1 (Some 2%nat) (Some 3%nat) 1)]>
               shared_heap)
  /\ exists h',
       free_security_data (Some 1%nat)
         (<[1%nat:=BSecData
              (Build_wim_security_data 20 1 (Some 2%nat) (Some 3%nat) 1)]>
            shared_heap)
       = Done tt h'
       /\ forall l, l ∈ [4%nat; 2%nat; 3%nat; 1%nat] -> h' !! l = None.
Proof.
  split.
  - apply (free_security_data_refcount shared_heap 1%nat shared_sd [Some 4%nat]
             shared_heap_owns).
    split; run.
  - destruct (free_security_data_refcount _ 1%nat _ [Some 4%nat] last_heap_owns)
      as [_ Hlast].
    destruct (Hlast eq_refl) as (h' & Hrun & Hfreed & _).
    exists h'. split; [exact Hrun | exact Hfreed].
Defined.

Lemma free_security_data_null_witness :
  free_security_data None released_heap = Done tt released_heap
  /\ free_security_data (Some 1%nat) released_heap = AssertionFailed.
Proof.
  destruct (free_security_data_null released_heap) as [Hnull Hassert].
  split; [exact Hnull|].
  apply (Hassert 1%nat (Build_wim_security_data 8 0 None None 0)); run.
Defined.

(** *** Runs of the further properties of the codec *)

Lemma exact_fit_run :
  read_security_data first_fit exact_fit_buf 20 0%nat caller_heap
  = Done WIMLIB_ERR_SUCCESS exact_fit_heap.
Proof. run. Defined.

Lemma read_security_data_header_too_short_witness :
  read_security_data first_fit short_header_buf 16 0%nat caller_heap
  = Done WIMLIB_ERR_INVALID_RESOURCE_SIZE caller_heap.
Proof.
  apply (read_security_data_header_too_short first_fit first_fit_fresh
           short_header_buf 16 0%nat caller_heap 1%nat); run.
Defined.


Lemma read_security_data_accepts_iff_witness :
  (exists h, read_security_data first_fit exact_fit_buf 20 0%nat caller_heap
             = Done WIMLIB_ERR_SUCCESS h)
  <-> hdr_total_length exact_fit_buf <= 20
      /\ (hdr_num_entries exact_fit_buf = 0
          \/ accumulated exact_fit_buf (Z.to_nat (hdr_num_entries exact_fit_buf))
             <= hdr_total_length exact_fit_buf).
Proof.
  apply (read_security_data_accepts_iff first_fit first_fit_fresh
           exact_fit_buf 20 0%nat caller_heap);
    try (intros h n; apply first_fit_total); run.
Defined.

Lemma read_security_data_layout_witness :
  exists sd T,
    exact_fit_heap !! 0%nat = Some (BSdPtr (Some sd))
    /\ table_at exact_fit_heap sd = Some T
    /\ tbl_num_entries T = le_to_Z (take 4 (drop 4 exact_fit_buf))
    /\ Z.of_nat (length (tbl_sizes T)) = tbl_num_entries T
    /\ Z.of_nat (length (tbl_descriptors T)) = tbl_num_entries T
    /\ forall i, (i < length (tbl_sizes T))%nat ->
         exists sz,
           sz = le_to_Z (take 8 (drop (8 + 8 * i) exact_fit_buf))
           /\ tbl_sizes T !! i = Some sz
           /\ tbl_descriptors T !! i
              = Some (take (Z.to_nat sz)
                        (drop (Z.to_nat (8 + 8 * tbl_num_entries T
                                         + sum_sizes (take i (tbl_sizes T))))
                           exact_fit_buf)).
Proof.
  apply (read_security_data_layout first_fit first_fit_fresh
           exact_fit_buf 20 0%nat caller_heap exact_fit_heap);
    try exact exact_fit_run; run.
Defined.

Lemma read_security_data_preserves_caller_blocks_witness :
  exists sd s,
    exact_fit_heap !! 0%nat = Some (BSdPtr (Some sd))
    /\ caller_heap !! sd = None
    /\ exact_fit_heap !! sd = Some (BSecData s)
    /\ refcnt s = 1
    /\ forall l, caller_heap !! l <> None -> l <> 0%nat ->
         exact_fit_heap !! l = caller_heap !! l.
Proof.
  apply (read_security_data_preserves_caller_blocks first_fit first_fit_fresh
           exact_fit_buf 20 0%nat caller_heap exact_fit_heap);
    try exact exact_fit_run; run.
Defined.

Lemma write_after_read_security_data_witness :
  exists sd T,
    exact_fit_heap !! 0%nat = Some (BSdPtr (Some sd))
    /\ table_at exact_fit_heap sd = Some T
    /\ valid_table T
    /\ write_security_data sd exact_fit_heap
       = Done (Z_to_le 4 (tbl_total_length T)
                 ++ take (Z.to_nat (tbl_total_length T) - 4) (drop 4 exact_fit_buf))
           exact_fit_heap.
Proof.
  apply (write_after_read_security_data first_fit first_fit_fresh
           exact_fit_buf 20 0%nat caller_heap exact_fit_heap);
    try exact exact_fit_run; run.
Defined.

Lemma write_after_read_security_data_exact_witness :
  exists sd,
    exact_fit_heap !! 0%nat = Some (BSdPtr (Some sd))
    /\ write_security_data sd exact_fit_heap
       = Done (take (Z.to_nat (hdr_total_length exact_fit_buf)) exact_fit_buf)
           exact_fit_heap.
Proof.
  apply (write_after_read_security_data_exact first_fit first_fit_fresh
           exact_fit_buf 20 0%nat caller_heap exact_fit_heap);
    try exact exact_fit_run; run.
Defined.

Lemma security_data_round_trip_embedded_witness :
  exists bytes h2 sd',
    write_security_data 1%nat shared_heap = Done bytes shared_heap
    /\ read_security_data first_fit (bytes ++ junk_bytes) 22 0%nat caller_heap
       = Done WIMLIB_ERR_SUCCESS h2
    /\ h2 !! 0%nat = Some (BSdPtr (Some sd'))
    /\ table_at h2 sd' = Some exact_fit_table.
Proof.
  apply (security_data_round_trip_embedded first_fit first_fit_fresh
           shared_heap caller_heap 1%nat 0%nat exact_fit_table junk_bytes 22);
    try (intros h n; apply first_fit_total);
    try exact exact_fit_table_valid; run.
Defined.

Lemma write_security_data_assertion_witness :
  write_security_data 1%nat shared_heap
  = Done (encode_table exact_fit_table) shared_heap
  /\ write_security_data 1%nat misdeclared_heap = AssertionFailed.
Proof.
  split.
  - apply (write_security_data_assertion shared_heap 1%nat exact_fit_table);
      try (repeat constructor); run.
  - apply (write_security_data_assertion misdeclared_heap 1%nat misdeclared_table);
      try (repeat constructor); run.
Defined.

Lemma free_security_data_times_spec_witness :
  (forall k, (k < 2)%nat ->
     free_security_data_times k (Some 1%nat) shared_heap
     = Done tt (<[1%nat:=BSecData (set_refcnt shared_sd (Z.of_nat (2 - k)))]>
                  shared_heap))
  /\ free_security_data_times 2 (Some 1%nat) shared_heap
     = Done tt (free_all (owned_blocks 1%nat shared_sd [Some 4%nat]) shared_heap).
Proof.
  apply (free_security_data_times_spec 2 shared_heap 1%nat shared_sd [Some 4%nat]
           shared_heap_owns); [run | lia | run].
Defined.

Lemma free_after_read_security_data_witness :
  exists sd,
    exact_fit_heap !! 0%nat = Some (BSdPtr (Some sd))
    /\ caller_heap !! sd = None
    /\ free_security_data (Some sd) exact_fit_heap
       = Done tt (<[0%nat:=BSdPtr (Some sd)]> caller_heap).
Proof.
  apply (free_after_read_security_data first_fit first_fit_fresh
           exact_fit_buf 20 0%nat caller_heap exact_fit_heap);
    try exact exact_fit_run; run.
Defined.

(** ** util.c: the string functions *)

Lemma byte_eqb_refl (c : byte) : Byte.eqb c c = true.
Proof. apply Byte.byte_dec_lb. reflexivity. Qed.

Lemma byte_eqb_neq (c d : byte) : c <> d -> Byte.eqb c d = false.
Proof.
  intros Hne. destruct (Byte.eqb c d) eqn:E; [|reflexivity].
  apply Byte.byte_dec_bl in E. contradiction.
Qed.

Lemma tstrlen_terminated (str rest : list tchar) :
  T_NUL ∉ str -> tstrlen (str ++ T_NUL :: rest) = Some (length str).
Proof.
  induction str as [|c str IH]; intros Hnul.
  - reflexivity.
  - apply not_elem_of_cons in Hnul as [Hc Hnul].
    cbn [app tstrlen length]. rewrite byte_eqb_neq by congruence.
    rewrite (IH Hnul). reflexivity.
Qed.

Lemma tstring_terminated (str rest : list tchar) :
  T_NUL ∉ str -> tstring (str ++ T_NUL :: rest) = Some str.
Proof.
  intros Hnul. unfold tstring. rewrite (tstrlen_terminated _ _ Hnul).
  rewrite take_app_length. reflexivity.
Qed.

Lemma tstrchr_found (pre rest : list tchar) c :
  c ∉ pre -> T_NUL ∉ pre ->
  tstrchr (pre ++ c :: rest) c = Some (Some (length pre)).
Proof.
  induction pre as [|x pre IH]; intros Hc Hnul.
  - cbn [app tstrchr]. rewrite byte_eqb_refl. reflexivity.
  - apply not_elem_of_cons in Hc as [Hxc Hc].
    apply not_elem_of_cons in Hnul as [Hx0 Hnul].
    cbn [app tstrchr length].
    rewrite (byte_eqb_neq x c), (byte_eqb_neq x T_NUL) by congruence.
    rewrite (IH Hc Hnul). reflexivity.
Qed.

Lemma tstrchr_absent (pre rest : list tchar) c :
  c ∉ pre -> T_NUL ∉ pre -> c <> T_NUL ->
  tstrchr (pre ++ T_NUL :: rest) c = Some None.
Proof.
  induction pre as [|x pre IH]; intros Hc Hnul Hc0.
  - cbn [app tstrchr]. rewrite (byte_eqb_neq T_NUL c) by congruence.
    rewrite byte_eqb_refl. reflexivity.
  - apply not_elem_of_cons in Hc as [Hxc Hc].
    apply not_elem_of_cons in Hnul as [Hx0 Hnul].
    cbn [app tstrchr].
    rewrite (byte_eqb_neq x c), (byte_eqb_neq x T_NUL) by congruence.
    rewrite (IH Hc Hnul Hc0). reflexivity.
Qed.

(** *** The two loops of path_basename_with_len *)

Lemma skip_trailing_slashes_run (path : list tchar) k n :
  (forall i, (k <= i < k + n)%nat -> path !! i = Some T_SLASH) ->
  skip_trailing_slashes path (k + n) = skip_trailing_slashes path k.
Proof.
  induction n as [|n IH]; intros Hrun.
  - rewrite Nat.add_0_r. reflexivity.
  - replace (k + S n)%nat with (S (k + n)) by lia.
    cbn [skip_trailing_slashes].
    rewrite (Hrun (k + n)%nat) by lia. rewrite byte_eqb_refl.
    apply IH. intros i Hi. apply Hrun. lia.
Qed.

Lemma find_component_start_run (path : list tchar) k n :
  (forall i, (k <= i < k + n)%nat ->
     exists c, path !! i = Some c /\ c <> T_SLASH) ->
  find_component_start path (k + n) = find_component_start path k.
Proof.
  induction n as [|n IH]; intros Hrun.
  - rewrite Nat.add_0_r. reflexivity.
  - replace (k + S n)%nat with (S (k + n)) by lia.
    cbn [find_component_start].
    destruct (Hrun (k + n)%nat ltac:(lia)) as (c & Hc & Hne).
    rewrite Hc, byte_eqb_neq by exact Hne.
    apply IH. intros i Hi. apply Hrun. lia.
Qed.

Lemma skip_trailing_slashes_total (path : list tchar) k :
  (k <= length path)%nat ->
  exists r,
    skip_trailing_slashes path k = Some r
    /\ match r with
       | None => forall i, (i < k)%nat -> path !! i = Some T_SLASH
       | Some e =>
           (0 < e <= k)%nat
           /\ (exists c, path !! (e - 1)%nat = Some c /\ c <> T_SLASH)
           /\ forall i, (e <= i < k)%nat -> path !! i = Some T_SLASH
       end.
Proof.
  induction k as [|k IH]; intros Hk.
  - exists None. split; [reflexivity|]. intros i Hi. lia.
  - cbn [skip_trailing_slashes].
    destruct (lookup_lt_is_Some_2 path k ltac:(lia)) as [c Hc]. rewrite Hc.
    destruct (Byte.eqb c T_SLASH) eqn:E.
    + apply Byte.byte_dec_bl in E. subst c.
      destruct (IH ltac:(lia)) as (r & Hr & Hspec). exists r. split; [exact Hr|].
      destruct r as [e|].
      * destruct Hspec as (He & Hlast & Hrun). split; [lia|]. split; [exact Hlast|].
        intros i Hi. destruct (decide (i = k)) as [->|Hne]; [exact Hc|].
        apply Hrun. lia.
      * intros i Hi. destruct (decide (i = k)) as [->|Hne]; [exact Hc|].
        apply Hspec. lia.
    + apply Byte.eqb_false in E.
      exists (Some (S k)). split; [reflexivity|]. split; [lia|]. split.
      * exists c. replace (S k - 1)%nat with k by lia. split; assumption.
      * intros i Hi. lia.
Qed.

Lemma find_component_start_total (path : list tchar) k :
  (k <= length path)%nat ->
  exists off,
    find_component_start path k = Some off
    /\ (off <= k)%nat
    /\ (off = O \/ path !! (off - 1)%nat = Some T_SLASH)
    /\ forall i, (off <= i < k)%nat ->
         exists c, path !! i = Some c /\ c <> T_SLASH.
Proof.
  induction k as [|k IH]; intros Hk.
  - exists O. split; [reflexivity|]. split; [lia|]. split; [left; reflexivity|].
    intros i Hi. lia.
  - cbn [find_component_start].
    destruct (lookup_lt_is_Some_2 path k ltac:(lia)) as [c Hc]. rewrite Hc.
    destruct (Byte.eqb c T_SLASH) eqn:E.
    + apply Byte.byte_dec_bl in E. subst c.
      exists (S k). split; [reflexivity|]. split; [lia|]. split.
      * right. replace (S k - 1)%nat with k by lia. exact Hc.
      * intros i Hi. lia.
    + apply Byte.eqb_false in E.
      destruct (IH ltac:(lia)) as (off & Hoff & Hle & Hprev & Hrun).
      exists off. split; [exact Hoff|]. split; [lia|]. split; [exact Hprev|].
      intros i Hi. destruct (decide (i = k)) as [->|Hne].
      * exists c. split; assumption.
      * apply Hrun. lia.
Qed.

(** [path_basename_with_len] stays within the [len] characters it is given.
    It returns the empty literal exactly when all of them are slashes;
    otherwise it returns the start of the last component: a character that
    is not a slash, at the beginning of the path or just after a slash, and
    followed up to [len] by characters that are not slashes and then by
    slashes only. *)
Theorem path_basename_with_len_spec (path : list tchar) (len : nat) :
  (len <= length path)%nat ->
  exists r,
    path_basename_with_len path len = Some r
    /\ match r with
       | PtrEmptyLiteral => forall i, (i < len)%nat -> path !! i = Some T_SLASH
       | PtrAt off =>
           exists e,
             (off < e <= len)%nat
             /\ (off = O \/ path !! (off - 1)%nat = Some T_SLASH)
             /\ (forall i, (off <= i < e)%nat ->
                   exists c, path !! i = Some c /\ c <> T_SLASH)
             /\ (forall i, (e <= i < len)%nat -> path !! i = Some T_SLASH)
       end.
Proof.
  intros Hlen. unfold path_basename_with_len.
  destruct (skip_trailing_slashes_total path len Hlen) as (r & Hr & Hspec).
  rewrite Hr. destruct r as [e|].
  - destruct Hspec as (He & (c & Hc & Hne) & Hslashes).
    destruct (find_component_start_total path e ltac:(lia))
      as (off & Hoff & Hle & Hprev & Hrun).
    rewrite Hoff. exists (PtrAt off). split; [reflexivity|].
    exists e. split.
    + split; [|lia].
      destruct (decide (off = e)) as [->|Hne']; [|lia].
      destruct Hprev as [->|Hprev]; [lia|]. congruence.
    + split; [exact Hprev|]. split; [exact Hrun | exact Hslashes].
  - exists PtrEmptyLiteral. split; [reflexivity | exact Hspec].
Qed.

(** The pointer that [path_basename] returns. *)
Lemma path_basename_at (dir name slashes junk : list tchar) :
  dir = [] \/ last dir = Some T_SLASH ->
  name <> [] ->
  T_SLASH ∉ name ->
  Forall (eq T_SLASH) slashes ->
  T_NUL ∉ dir ++ name ->
  path_basename (dir ++ name ++ slashes ++ T_NUL :: junk)
  = Some (PtrAt (length dir)).
Proof.
  intros Hdir Hname Hslash Hsl Hnul.
  assert (Hnul' : T_NUL ∉ dir ++ name ++ slashes).
  { rewrite app_assoc. intros Hin. apply elem_of_app in Hin as [Hin|Hin];
      [exact (Hnul Hin)|].
    rewrite Forall_forall in Hsl. specialize (Hsl _ Hin). discriminate. }
  unfold path_basename.
  replace (dir ++ name ++ slashes ++ T_NUL :: junk)
    with ((dir ++ name ++ slashes) ++ T_NUL :: junk)
    by (rewrite <- !app_assoc; reflexivity).
  rewrite (tstrlen_terminated _ _ Hnul').
  set (path := (dir ++ name ++ slashes) ++ T_NUL :: junk).
  assert (Hdir_l : forall i, (i < length dir)%nat -> path !! i = dir !! i).
  { intros i Hi. subst path. rewrite <- app_assoc.
    apply lookup_app_l. exact Hi. }
  assert (Hname_l : forall i, (i < length name)%nat ->
            path !! (length dir + i)%nat = name !! i).
  { intros i Hi. subst path. rewrite <- !app_assoc.
    rewrite lookup_app_r by lia.
    replace (length dir + i - length dir)%nat with i by lia.
    apply lookup_app_l. exact Hi. }
  assert (Hsl_l : forall i, (i < length slashes)%nat ->
            path !! (length dir + length name + i)%nat = slashes !! i).
  { intros i Hi. subst path. rewrite <- !app_assoc.
    rewrite lookup_app_r by lia. rewrite lookup_app_r by lia.
    replace (length dir + length name + i - length dir - length name)%nat
      with i by lia.
    apply lookup_app_l. exact Hi. }
  unfold path_basename_with_len.
  replace (length (dir ++ name ++ slashes))
    with ((length dir + length name) + length slashes)%nat
    by (rewrite !length_app; lia).
  rewrite skip_trailing_slashes_run.
  2:{ intros i Hi.
      replace i with (length dir + length name + (i - (length dir + length name)))%nat
        by lia.
      rewrite Hsl_l by lia.
      destruct (lookup_lt_is_Some_2 slashes (i - (length dir + length name))
                  ltac:(lia)) as [c Hc].
      rewrite Hc. f_equal. symmetry.
      rewrite Forall_forall in Hsl. apply Hsl.
      apply list_elem_of_lookup. eexists. exact Hc. }
  assert (Hname_ns : forall i, (i < length name)%nat ->
            exists c, path !! (length dir + i)%nat = Some c /\ c <> T_SLASH).
  { intros i Hi. rewrite Hname_l by exact Hi.
    destruct (lookup_lt_is_Some_2 name i Hi) as [c Hc].
    exists c. split; [exact Hc|]. intros ->. apply Hslash.
    apply list_elem_of_lookup. eexists. exact Hc. }
  assert (Hlen_name : (0 < length name)%nat).
  { destruct name; [contradiction | simpl; lia]. }
  replace (length dir + length name)%nat
    with (S (length dir + (length name - 1)))%nat by lia.
  cbn [skip_trailing_slashes].
  destruct (Hname_ns (length name - 1)%nat ltac:(lia)) as (c & Hc & Hne).
  rewrite Hc, byte_eqb_neq by exact Hne. cbn [fmap option_fmap option_map].
  replace (S (length dir + (length name - 1)))%nat
    with (length dir + length name)%nat by lia.
  rewrite find_component_start_run.
  2:{ intros i Hi.
      replace i with (length dir + (i - length dir))%nat by lia.
      apply Hname_ns. lia. }
  destruct Hdir as [->|Hlast]; [reflexivity|].
  destruct dir as [|d dir] using rev_ind; [discriminate|].
  rewrite last_snoc in Hlast. injection Hlast as ->.
  rewrite length_app. cbn [length].
  replace (length dir + 1)%nat with (S (length dir)) by lia.
  cbn [find_component_start].
  rewrite Hdir_l by (rewrite length_app; simpl; lia).
  rewrite lookup_app_r by lia. rewrite Nat.sub_diag. cbn [lookup list_lookup].
  rewrite byte_eqb_refl. reflexivity.
Qed.

Lemma tstring_component (name slashes junk : list tchar) :
  T_NUL ∉ name ->
  Forall (eq T_SLASH) slashes ->
  tstring (name ++ slashes ++ T_NUL :: junk) = Some (name ++ slashes).
Proof.
  intros Hnul Hsl.
  replace (name ++ slashes ++ T_NUL :: junk)
    with ((name ++ slashes) ++ T_NUL :: junk)
    by (rewrite <- !app_assoc; reflexivity).
  apply tstring_terminated.
  intros Hin. apply elem_of_app in Hin as [Hin|Hin]; [exact (Hnul Hin)|].
  rewrite Forall_forall in Hsl. specialize (Hsl _ Hin). discriminate.
Qed.

(** For a string [dir ++ name ++ slashes], where [dir] is empty or ends with
    a slash, [name] is not empty and has no slash, [path_basename] returns a
    pointer to [name]: the string it points to is [name] with the trailing
    slashes of the path, which are not removed.  Applied to that string, it
    returns it whole. *)
Theorem path_basename_component (dir name slashes junk : list tchar) :
  dir = [] \/ last dir = Some T_SLASH ->
  name <> [] ->
  T_SLASH ∉ name ->
  Forall (eq T_SLASH) slashes ->
  T_NUL ∉ dir ++ name ->
  path_basename (dir ++ name ++ slashes ++ T_NUL :: junk) = Some (PtrAt (length dir))
  /\ tstring_at (dir ++ name ++ slashes ++ T_NUL :: junk) (PtrAt (length dir))
     = Some (name ++ slashes)
  /\ path_basename (name ++ slashes ++ T_NUL :: junk) = Some (PtrAt 0).
Proof.
  intros Hdir Hname Hslash Hsl Hnul.
  assert (Hnul_name : T_NUL ∉ name).
  { intros Hin. apply Hnul, elem_of_app. right. exact Hin. }
  split; [apply path_basename_at; assumption|]. split.
  - cbn [tstring_at]. rewrite drop_app_length.
    apply tstring_component; assumption.
  - apply (path_basename_at [] name slashes junk); try assumption.
    left; reflexivity.
Qed.

Lemma path_basename_all_slashes (slashes junk : list tchar) :
  Forall (eq T_SLASH) slashes ->
  path_basename (slashes ++ T_NUL :: junk) = Some PtrEmptyLiteral.
Proof.
  intros Hsl. unfold path_basename.
  rewrite tstrlen_terminated.
  2:{ intros Hin. rewrite Forall_forall in Hsl. specialize (Hsl _ Hin).
      discriminate. }
  unfold path_basename_with_len.
  rewrite <- (Nat.add_0_l (length slashes)), skip_trailing_slashes_run;
    [reflexivity|].
  intros i Hi. rewrite lookup_app_l by lia.
  destruct (lookup_lt_is_Some_2 slashes i ltac:(lia)) as [c Hc].
  rewrite Hc. f_equal. symmetry. rewrite Forall_forall in Hsl. apply Hsl.
  apply list_elem_of_lookup. eexists. exact Hc.
Qed.

(** When the last component of the path is [name:stream], [name] having no
    colon, [path_stream_name] returns a pointer just after that colon: to
    [stream], followed by the trailing slashes of the path. *)
Theorem path_stream_name_found (dir name stream slashes junk : list tchar) :
  dir = [] \/ last dir = Some T_SLASH ->
  T_SLASH ∉ name ++ stream ->
  T_COLON ∉ name ->
  Forall (eq T_SLASH) slashes ->
  T_NUL ∉ dir ++ name ++ stream ->
  path_stream_name (dir ++ name ++ T_COLON :: stream ++ slashes ++ T_NUL :: junk)
  = Some (Some (length dir + length name + 1)%nat)
  /\ tstring (drop (length dir + length name + 1)
               (dir ++ name ++ T_COLON :: stream ++ slashes ++ T_NUL :: junk))
     = Some (stream ++ slashes).
Proof.
  intros Hdir Hslash Hcolon Hsl Hnul.
  rewrite !elem_of_app in Hnul. rewrite elem_of_app in Hslash.
  assert (Hpath : dir ++ name ++ T_COLON :: stream ++ slashes ++ T_NUL :: junk
                  = dir ++ (name ++ T_COLON :: stream) ++ slashes ++ T_NUL :: junk).
  { rewrite <- !app_assoc. reflexivity. }
  split.
  - unfold path_stream_name. rewrite Hpath.
    rewrite path_basename_at; try assumption.
    + rewrite drop_app_length, <- app_assoc. cbn [app].
      rewrite tstrchr_found by tauto. reflexivity.
    + destruct name; discriminate.
    + rewrite elem_of_app, elem_of_cons. intros [?|[?|?]]; try tauto.
      discriminate.
    + rewrite !elem_of_app, elem_of_cons. intros [?|[?|[?|?]]]; try tauto.
      discriminate.
  - replace (length dir + length name + 1)%nat
      with (length (dir ++ name ++ [T_COLON]))
      by (rewrite !length_app; simpl; lia).
    replace (dir ++ name ++ T_COLON :: stream ++ slashes ++ T_NUL :: junk)
      with ((dir ++ name ++ [T_COLON]) ++ stream ++ slashes ++ T_NUL :: junk)
      by (rewrite <- !app_assoc; reflexivity).
    rewrite drop_app_length. apply tstring_component; tauto.
Qed.

(** [path_stream_name] returns [NULL] when the last component of the path
    has no colon, whatever the directories before it hold, and when the path
    is made of slashes only or is empty. *)
Theorem path_stream_name_none (dir name slashes junk : list tchar) :
  dir = [] \/ (last dir = Some T_SLASH /\ name <> []) ->
  T_SLASH ∉ name ->
  T_COLON ∉ name ->
  Forall (eq T_SLASH) slashes ->
  T_NUL ∉ dir ++ name ->
  path_stream_name (dir ++ name ++ slashes ++ T_NUL :: junk) = Some None.
Proof.
  intros Hdir Hslash Hcolon Hsl Hnul.
  unfold path_stream_name.
  destruct name as [|c name].
  - destruct Hdir as [->|[_ Hname]]; [|contradiction].
    cbn [app]. rewrite path_basename_all_slashes by exact Hsl. reflexivity.
  - rewrite path_basename_at; try assumption; try discriminate.
    2:{ destruct Hdir as [->|[Hlast _]]; [left; reflexivity | right; exact Hlast]. }
    rewrite drop_app_length.
    replace ((c :: name) ++ slashes ++ T_NUL :: junk)
      with (((c :: name) ++ slashes) ++ T_NUL :: junk)
      by (rewrite <- !app_assoc; reflexivity).
    rewrite tstrchr_absent; [reflexivity| | |discriminate].
    + intros Hin. apply elem_of_app in Hin as [Hin|Hin]; [exact (Hcolon Hin)|].
      rewrite Forall_forall in Hsl. specialize (Hsl _ Hin). discriminate.
    + intros Hin. apply elem_of_app in Hin as [Hin|Hin].
      * apply Hnul, elem_of_app. right. exact Hin.
      * rewrite Forall_forall in Hsl. specialize (Hsl _ Hin). discriminate.
Qed.

(** *** zap_backslashes *)

Lemma zap_char_not_backslash c : zap_char c <> T_BACKSLASH.
Proof.
  unfold zap_char. destruct (Byte.eqb c T_BACKSLASH) eqn:E; [discriminate|].
  apply Byte.eqb_false in E. exact E.
Qed.

Lemma zap_char_not_nul c : c <> T_NUL -> zap_char c <> T_NUL.
Proof.
  unfold zap_char. destruct (Byte.eqb c T_BACKSLASH); [discriminate | tauto].
Qed.

Lemma zap_char_idem c : zap_char (zap_char c) = zap_char c.
Proof.
  unfold zap_char at 1.
  rewrite (byte_eqb_neq _ _ (zap_char_not_backslash c)). reflexivity.
Qed.

Lemma zap_char_other c : c <> T_BACKSLASH -> zap_char c = c.
Proof. intros Hc. unfold zap_char. rewrite byte_eqb_neq by exact Hc. reflexivity. Qed.

Lemma zap_backslashes_loop_string (str junk : list tchar) :
  T_NUL ∉ str ->
  zap_backslashes_loop (str ++ T_NUL :: junk)
  = Some ((zap_char <$> str) ++ T_NUL :: junk).
Proof.
  induction str as [|c str IH]; intros Hnul.
  - reflexivity.
  - apply not_elem_of_cons in Hnul as [Hc Hnul].
    cbn [app zap_backslashes_loop]. rewrite byte_eqb_neq by congruence.
    rewrite (IH Hnul). reflexivity.
Qed.

Lemma zap_string_no_nul (str : list tchar) :
  T_NUL ∉ str -> T_NUL ∉ (zap_char <$> str).
Proof.
  intros Hnul Hin. apply list_elem_of_fmap in Hin as (c & Hc & Hin).
  apply (zap_char_not_nul c); [|congruence]. intros ->. exact (Hnul Hin).
Qed.

(** [zap_backslashes] turns every backslash of the string into a slash and
    changes nothing else: neither the other characters, nor the length, nor
    what the array holds after the terminator.  The string it leaves has no
    backslash, and a second call changes nothing.  On [NULL] it does
    nothing. *)
Theorem zap_backslashes_spec (str junk : list tchar) :
  T_NUL ∉ str ->
  zap_backslashes (Some (str ++ T_NUL :: junk))
  = Some (Some ((zap_char <$> str) ++ T_NUL :: junk))
  /\ tstring ((zap_char <$> str) ++ T_NUL :: junk) = Some (zap_char <$> str)
  /\ (T_BACKSLASH ∉ zap_char <$> str)
  /\ (forall i c, str !! i = Some c -> c <> T_BACKSLASH ->
        (zap_char <$> str) !! i = Some c)
  /\ zap_backslashes (Some ((zap_char <$> str) ++ T_NUL :: junk))
     = Some (Some ((zap_char <$> str) ++ T_NUL :: junk))
  /\ zap_backslashes None = Some None.
Proof.
  intros Hnul.
  pose proof (zap_string_no_nul str Hnul) as Hnul'.
  split; [|split; [|split; [|split; [|split]]]].
  - cbn [zap_backslashes]. rewrite (zap_backslashes_loop_string _ _ Hnul).
    reflexivity.
  - apply tstring_terminated, Hnul'.
  - intros Hin. apply list_elem_of_fmap in Hin as (c & Hc & _).
    exact (zap_char_not_backslash c (eq_sym Hc)).
  - intros i c Hi Hc. rewrite list_lookup_fmap, Hi. cbn.
    rewrite (zap_char_other c Hc). reflexivity.
  - cbn [zap_backslashes]. rewrite (zap_backslashes_loop_string _ _ Hnul').
    rewrite <- list_fmap_compose.
    cbn [fmap option_fmap option_map]. do 3 f_equal. apply list_fmap_ext.
    intros ? c _. apply zap_char_idem.
  - reflexivity.
Qed.

(** After [zap_backslashes], [path_basename] finds the last component of a
    path whose separators are backslashes or slashes. *)
Theorem path_basename_after_zap_backslashes (dir name junk : list tchar) :
  dir = [] \/ last dir = Some T_SLASH \/ last dir = Some T_BACKSLASH ->
  name <> [] ->
  T_SLASH ∉ name ->
  T_BACKSLASH ∉ name ->
  T_NUL ∉ dir ++ name ->
  exists path',
    zap_backslashes (Some (dir ++ name ++ T_NUL :: junk)) = Some (Some path')
    /\ length path' = length (dir ++ name ++ T_NUL :: junk)
    /\ path_basename path' = Some (PtrAt (length dir))
    /\ tstring_at path' (PtrAt (length dir)) = Some name.
Proof.
  intros Hdir Hname Hslash Hback Hnul.
  assert (Hzname : zap_char <$> name = name).
  { clear -Hback. induction name as [|c name IH]; [reflexivity|].
    apply not_elem_of_cons in Hback as [Hc Hback].
    cbn. rewrite (zap_char_other c) by congruence. rewrite (IH Hback).
    reflexivity. }
  assert (Hzdir : zap_char <$> dir = [] \/ last (zap_char <$> dir) = Some T_SLASH).
  { destruct Hdir as [->|Hlast]; [left; reflexivity|]. right.
    destruct dir as [|d dir _] using rev_ind; [destruct Hlast; discriminate|].
    rewrite fmap_app. cbn. rewrite last_snoc.
    rewrite last_snoc in Hlast.
    destruct Hlast as [[= ->]|[= ->]]; reflexivity. }
  exists ((zap_char <$> dir) ++ name ++ [] ++ T_NUL :: junk).
  assert (Hnul' : T_NUL ∉ (zap_char <$> dir) ++ name).
  { rewrite <- Hzname, <- fmap_app. apply zap_string_no_nul, Hnul. }
  split; [|split; [|split]].
  - cbn [zap_backslashes].
    replace (dir ++ name ++ T_NUL :: junk) with ((dir ++ name) ++ T_NUL :: junk)
      by (rewrite <- app_assoc; reflexivity).
    rewrite (zap_backslashes_loop_string _ _ Hnul).
    rewrite fmap_app, Hzname, <- app_assoc. reflexivity.
  - rewrite !length_app, length_fmap. reflexivity.
  - rewrite path_basename_at; try assumption; try constructor.
    rewrite length_fmap. reflexivity.
  - cbn [tstring_at].
    rewrite <- (length_fmap zap_char dir), drop_app_length.
    rewrite (tstring_component name [] junk); [rewrite app_nil_r; reflexivity| |constructor].
    intros Hin. apply Hnul', elem_of_app. right. exact Hin.
Qed.

(** *** utf16le_strlen *)

Lemma utf16le_units_terminated (str junk : list Z) :
  0 ∉ str -> utf16le_units (str ++ 0 :: junk) = Some (length str).
Proof.
  induction str as [|c str IH]; intros Hnul.
  - reflexivity.
  - apply not_elem_of_cons in Hnul as [Hc Hnul].
    cbn [app utf16le_units length].
    replace (c =? 0) with false by (symmetry; apply Z.eqb_neq; congruence).
    rewrite (IH Hnul). reflexivity.
Qed.

(** [utf16le_strlen] returns the length in bytes of the string: twice the
    count of 16-bit units before the first zero unit, whatever follows it.
    On an array with no zero unit the walk leaves the array. *)
Theorem utf16le_strlen_spec (str junk : list Z) :
  0 ∉ str ->
  2 * Z.of_nat (length str) < U64_MODULUS ->
  utf16le_strlen (str ++ 0 :: junk) = Some (2 * Z.of_nat (length str))
  /\ utf16le_strlen str = None.
Proof.
  intros Hnul Hlen. split.
  - unfold utf16le_strlen. rewrite (utf16le_units_terminated _ _ Hnul).
    cbn. rewrite Z.mod_small by lia. f_equal. lia.
  - unfold utf16le_strlen.
    assert (Hnone : utf16le_units str = None).
    { clear Hlen. induction str as [|c str IH]; [reflexivity|].
      apply not_elem_of_cons in Hnul as [Hc Hnul].
      cbn [utf16le_units].
      replace (c =? 0) with false by (symmetry; apply Z.eqb_neq; congruence).
      rewrite (IH Hnul). reflexivity. }
    rewrite Hnone. reflexivity.
Qed.

(** *** randomize_char_array_with_alnum *)

Lemma is_alnum_alnum_of r : 0 <= r < 62 -> is_alnum (alnum_of r) = true.
Proof.
  intros Hr. unfold is_alnum, alnum_of.
  destruct (Z.ltb_spec r 26); [|destruct (Z.ltb_spec r 52)];
    rewrite byte_to_of_Z, Z.mod_small by lia; cbv zeta;
    repeat match goal with
           | |- context [?a <=? ?b] => destruct (Z.leb_spec a b)
           end; try reflexivity; lia.
Qed.

Lemma randomize_alnum_loop_spec (rand : nat -> Z) n : forall calls,
  (forall k, 0 <= rand k) ->
  length (fst (randomize_alnum_loop rand n calls)) = n
  /\ Forall (fun c => is_alnum c = true) (fst (randomize_alnum_loop rand n calls))
  /\ snd (randomize_alnum_loop rand n calls) = (calls + n)%nat.
Proof.
  induction n as [|n IH]; intros calls Hrand.
  - cbn. repeat split; [constructor | lia].
  - cbn [randomize_alnum_loop].
    destruct (IH (S calls) Hrand) as (Hlen & Hall & Hcalls).
    destruct (randomize_alnum_loop rand n (S calls)) as [cs calls'].
    cbn [fst snd length] in *. split; [lia|]. split; [|lia].
    constructor; [|exact Hall].
    apply is_alnum_alnum_of.
    pose proof (Z.rem_bound_pos (rand calls) 62 (Hrand calls) ltac:(lia)). lia.
Qed.

Lemma seeded_once (g : rng) :
  let g0 := if seeded g then g else seed_random g in
  seeded g0 = true
  /\ rand_calls g0 = rand_calls g
  /\ srand_calls g0 = (srand_calls g + (if seeded g then 0 else 1))%nat.
Proof.
  cbv zeta. destruct (seeded g) eqn:E.
  - repeat split; [exact E | lia].
  - cbn. repeat split. lia.
Qed.

(** [randomize_char_array_with_alnum] writes exactly [n] characters, each a
    letter or a digit, and leaves the rest of the array as it was; it calls
    [rand()] [n] times, and [srand()] once if the generator was not seeded
    yet, never otherwise. *)
Theorem randomize_char_array_with_alnum_spec
    (rand : nat -> Z) (p : list tchar) (n : nat) (g : rng) :
  (forall k, 0 <= rand k) ->
  (n <= length p)%nat ->
  exists cs g',
    randomize_char_array_with_alnum rand p n g = Some (cs ++ drop n p, g')
    /\ length cs = n
    /\ length (cs ++ drop n p) = length p
    /\ Forall (fun c => is_alnum c = true) cs
    /\ seeded g' = true
    /\ srand_calls g' = (srand_calls g + (if seeded g then 0 else 1))%nat
    /\ rand_calls g' = (rand_calls g + n)%nat.
Proof.
  intros Hrand Hn. unfold randomize_char_array_with_alnum.
  replace (n <=? length p)%nat with true by (symmetry; apply Nat.leb_le; exact Hn).
  destruct (seeded_once g) as (Hseed & Hcalls0 & Hsrand).
  set (g0 := if seeded g then g else seed_random g) in *.
  destruct (randomize_alnum_loop_spec rand n (rand_calls g0) Hrand)
    as (Hlen & Hall & Hcalls).
  destruct (randomize_alnum_loop rand n (rand_calls g0)) as [cs calls].
  cbn [fst snd] in *.
  exists cs, (Build_rng (seeded g0) (srand_calls g0) calls).
  split; [reflexivity|]. split; [exact Hlen|].
  split; [rewrite length_app, length_drop; lia|].
  split; [exact Hall|]. split; [exact Hseed|].
  split; [exact Hsrand|].
  cbn [rand_calls]. lia.
Qed.

Lemma randomize_byte_loop_spec (rand : nat -> Z) n : forall calls,
  randomize_byte_loop rand n calls
  = ((fun k => byte_of_Z (rand (calls + k)%nat)) <$> seq 0 n, (calls + n)%nat).
Proof.
  induction n as [|n IH]; intros calls.
  - cbn. f_equal. lia.
  - cbn [randomize_byte_loop]. rewrite IH.
    cbn [seq fmap list_fmap]. rewrite <- seq_shift, <- list_fmap_compose.
    f_equal; [|lia]. f_equal; [f_equal; f_equal; lia|].
    apply list_fmap_ext. intros ? k _. cbn. do 2 f_equal. lia.
Qed.

(** [randomize_byte_array] fills the first [n] bytes with the low 8 bits of
    the next [n] results of [rand()], in order, and leaves the rest of the
    array as it was; [srand()] is called once if the generator was not seeded
    yet, never otherwise. *)
Theorem randomize_byte_array_spec
    (rand : nat -> Z) (p : list byte) (n : nat) (g : rng) :
  (n <= length p)%nat ->
  exists p' g',
    randomize_byte_array rand p n g = Some (p', g')
    /\ length p' = length p
    /\ (forall i, (i < n)%nat ->
          byte_to_Z <$> p' !! i = Some (rand (rand_calls g + i)%nat mod 256))
    /\ (forall i, (n <= i)%nat -> p' !! i = p !! i)
    /\ seeded g' = true
    /\ srand_calls g' = (srand_calls g + (if seeded g then 0 else 1))%nat
    /\ rand_calls g' = (rand_calls g + n)%nat.
Proof.
  intros Hn. unfold randomize_byte_array.
  replace (n <=? length p)%nat with true by (symmetry; apply Nat.leb_le; exact Hn).
  destruct (seeded_once g) as (Hseed & Hcalls0 & Hsrand).
  set (g0 := if seeded g then g else seed_random g) in *.
  rewrite randomize_byte_loop_spec.
  set (cs := (fun k => byte_of_Z (rand (rand_calls g0 + k)%nat)) <$> seq 0 n).
  assert (Hlen : length cs = n) by (subst cs; rewrite length_fmap, length_seq; reflexivity).
  exists (cs ++ drop n p), (Build_rng (seeded g0) (srand_calls g0) (rand_calls g0 + n)).
  split; [reflexivity|].
  split; [rewrite length_app, length_drop; lia|].
  split; [|split; [|split; [exact Hseed|split; [exact Hsrand|cbn [rand_calls]; lia]]]].
  - intros i Hi. rewrite lookup_app_l by lia. subst cs.
    rewrite list_lookup_fmap, lookup_seq_lt by exact Hi. cbn.
    rewrite byte_to_of_Z, Hcalls0. reflexivity.
  - intros i Hi. rewrite lookup_app_r by lia. rewrite Hlen, lookup_drop.
    f_equal. lia.
Qed.

(** Whatever the two functions are called in a row for, the generator is
    seeded once at most, and the second call takes up the results of
    [rand()] where the first one stopped. *)
Theorem randomize_seeds_once
    (rand : nat -> Z) (key : list byte) (name : list tchar) (n m : nat) (g : rng) :
  (forall k, 0 <= rand k) ->
  (n <= length key)%nat ->
  (m <= length name)%nat ->
  exists key' g1 name' g2,
    randomize_byte_array rand key n g = Some (key', g1)
    /\ randomize_char_array_with_alnum rand name m g1 = Some (name', g2)
    /\ srand_calls g2 = (srand_calls g + (if seeded g then 0 else 1))%nat
    /\ rand_calls g1 = (rand_calls g + n)%nat
    /\ rand_calls g2 = (rand_calls g + n + m)%nat.
Proof.
  intros Hrand Hn Hm.
  assert (Hbyte : exists key' g1,
             randomize_byte_array rand key n g = Some (key', g1)
             /\ seeded g1 = true
             /\ srand_calls g1 = (srand_calls g + (if seeded g then 0 else 1))%nat
             /\ rand_calls g1 = (rand_calls g + n)%nat).
  { unfold randomize_byte_array.
    replace (n <=? length key)%nat with true by (symmetry; apply Nat.leb_le; exact Hn).
    destruct (seeded_once g) as (Hseed & Hcalls0 & Hsrand).
    set (g0 := if seeded g then g else seed_random g) in *.
    rewrite randomize_byte_loop_spec.
    eexists _, _. split; [reflexivity|]. cbn [seeded srand_calls rand_calls].
    repeat split; [exact Hseed | exact Hsrand | lia]. }
  destruct Hbyte as (key' & g1 & Hrun1 & Hseed1 & Hsrand1 & Hcalls1).
  exists key', g1.
  unfold randomize_char_array_with_alnum. rewrite Hseed1.
  replace (m <=? length name)%nat with true by (symmetry; apply Nat.leb_le; exact Hm).
  destruct (randomize_alnum_loop_spec rand m (rand_calls g1) Hrand)
    as (_ & _ & Hcalls2).
  destruct (randomize_alnum_loop rand m (rand_calls g1)) as [cs calls].
  cbn [snd] in Hcalls2.
  eexists _, _. split; [exact Hrun1|]. split; [reflexivity|].
  cbn [srand_calls rand_calls]. repeat split; lia.
Qed.

(** *** wimlib_strdup *)

Section Strdup.

Variable malloc : heap -> Z -> ptr.
Hypothesis malloc_fresh : forall h n l, malloc h n = Some l -> h !! l = None.

(** [wimlib_strdup] copies the string, with its terminator and nothing of
    what follows it, into a new block, and changes no other block; freeing
    the copy gives back the heap.  When the allocation fails it returns
    [NULL] and the heap is unchanged. *)
Theorem wimlib_strdup_spec (h : heap) str (s junk : list tchar) :
  h !! str = Some (BBytes (s ++ T_NUL :: junk)) ->
  T_NUL ∉ s ->
  Z.of_nat (length s) + 1 < U64_MODULUS ->
  match malloc h (Z.of_nat (length s) + 1) with
  | Some l =>
      wimlib_strdup malloc str h
      = Done (Some l) (<[l:=BBytes (s ++ [T_NUL])]> h)
      /\ l <> str
      /\ FREE (Some l) (<[l:=BBytes (s ++ [T_NUL])]> h) = Done tt h
  | None => wimlib_strdup malloc str h = Done None h
  end.
Proof.
  intros Hstr Hnul Hlen. unfold wimlib_strdup.
  rewrite Hstr, (tstrlen_terminated _ _ Hnul).
  rewrite Z.mod_small by lia.
  destruct (malloc h (Z.of_nat (length s) + 1)) as [l|] eqn:Hm.
  - pose proof (malloc_fresh _ _ _ Hm) as Hl.
    rewrite (bind_Done _ _ _ _ _ (MALLOC_Some malloc _ _ _ Hm)).
    erewrite bind_Done;
      [|apply store_eq; rewrite lookup_insert_eq; eexists; reflexivity].
    rewrite insert_insert_eq.
    replace (take (length s + 1) (s ++ T_NUL :: junk)) with (s ++ [T_NUL]).
    2:{ replace (s ++ T_NUL :: junk) with ((s ++ [T_NUL]) ++ junk)
          by (rewrite <- app_assoc; reflexivity).
        rewrite take_app_length'; [reflexivity|].
        rewrite length_app. simpl. lia. }
    split; [reflexivity|]. split; [intros ->; congruence|].
    rewrite FREE_eq by (rewrite lookup_insert_eq; eexists; reflexivity).
    rewrite delete_insert_id by exact Hl. reflexivity.
  - rewrite (bind_Done _ _ _ _ _ (MALLOC_None malloc _ _ Hm)). reflexivity.
Qed.

End Strdup.

(** *** Runs of the properties of util.c *)

Ltac absent :=
  let H := fresh in
  intros H; vm_compute in H;
  repeat (apply elem_of_cons in H; destruct H as [H|H]; [discriminate H|]);
  apply elem_of_nil in H; exact H.

Lemma path_basename_with_len_spec_witness :
  exists r,
    path_basename_with_len (usr_dir ++ lib_name ++ two_slashes) 9 = Some r
    /\ match r with
       | PtrEmptyLiteral =>
           forall i, (i < 9)%nat ->
             (usr_dir ++ lib_name ++ two_slashes) !! i = Some T_SLASH
       | PtrAt off =>
           exists e,
             (off < e <= 9)%nat
             /\ (off = O
                 \/ (usr_dir ++ lib_name ++ two_slashes) !! (off - 1)%nat
                    = Some T_SLASH)
             /\ (forall i, (off <= i < e)%nat ->
                   exists c, (usr_dir ++ lib_name ++ two_slashes) !! i = Some c
                             /\ c <> T_SLASH)
             /\ (forall i, (e <= i < 9)%nat ->
                   (usr_dir ++ lib_name ++ two_slashes) !! i = Some T_SLASH)
       end.
Proof.
  apply (path_basename_with_len_spec (usr_dir ++ lib_name ++ two_slashes) 9).
  vm_compute. lia.
Defined.

Lemma path_basename_component_witness :
  path_basename (usr_dir ++ lib_name ++ two_slashes ++ T_NUL :: junk_bytes)
  = Some (PtrAt 4)
  /\ tstring_at (usr_dir ++ lib_name ++ two_slashes ++ T_NUL :: junk_bytes) (PtrAt 4)
     = Some (lib_name ++ two_slashes)
  /\ path_basename (lib_name ++ two_slashes ++ T_NUL :: junk_bytes) = Some (PtrAt 0).
Proof.
  apply (path_basename_component usr_dir lib_name two_slashes junk_bytes);
    [right; reflexivity | discriminate | absent | repeat constructor | absent].
Defined.

Lemma path_stream_name_found_witness :
  path_stream_name
    (usr_dir ++ file_name ++ T_COLON :: strm_name ++ two_slashes ++ T_NUL :: junk_bytes)
  = Some (Some 9%nat)
  /\ tstring (drop 9
       (usr_dir ++ file_name ++ T_COLON :: strm_name ++ two_slashes
          ++ T_NUL :: junk_bytes))
     = Some (strm_name ++ two_slashes).
Proof.
  apply (path_stream_name_found usr_dir file_name strm_name two_slashes junk_bytes);
    [right; reflexivity | absent | absent | repeat constructor | absent].
Defined.

Lemma path_stream_name_none_witness :
  path_stream_name (win_dir ++ [T_SLASH] ++ lib_name ++ two_slashes ++ T_NUL :: junk_bytes)
  = Some None.
Proof.
  rewrite (app_assoc win_dir [T_SLASH]).
  apply (path_stream_name_none (win_dir ++ [T_SLASH]) lib_name two_slashes junk_bytes);
    [right; split; [reflexivity | discriminate]
    | absent | absent | repeat constructor | absent].
Defined.

Lemma zap_backslashes_spec_witness :
  zap_backslashes (Some (win_dir ++ T_NUL :: junk_bytes))
  = Some (Some ((zap_char <$> win_dir) ++ T_NUL :: junk_bytes))
  /\ T_BACKSLASH ∉ (zap_char <$> win_dir).
Proof.
  destruct (zap_backslashes_spec win_dir junk_bytes ltac:(absent))
    as (Hrun & _ & Hnone & _).
  split; [exact Hrun | exact Hnone].
Defined.

Lemma path_basename_after_zap_backslashes_witness :
  exists path',
    zap_backslashes (Some (win_dir ++ lib_name ++ T_NUL :: junk_bytes))
    = Some (Some path')
    /\ length path' = length (win_dir ++ lib_name ++ T_NUL :: junk_bytes)
    /\ path_basename path' = Some (PtrAt (length win_dir))
    /\ tstring_at path' (PtrAt (length win_dir)) = Some lib_name.
Proof.
  apply (path_basename_after_zap_backslashes win_dir lib_name junk_bytes);
    [right; right; reflexivity | discriminate | absent | absent | absent].
Defined.

Lemma utf16le_strlen_spec_witness :
  utf16le_strlen (hi_units ++ 0 :: [7; 0]) = Some 4
  /\ utf16le_strlen hi_units = None.
Proof.
  apply (utf16le_strlen_spec hi_units [7; 0]); [|reflexivity].
  intros H. repeat (apply elem_of_cons in H; destruct H as [H|H]; [discriminate H|]).
  apply elem_of_nil in H. exact H.
Defined.

Lemma sample_rand_nonneg k : 0 <= sample_rand k.
Proof. unfold sample_rand. lia. Defined.

Lemma randomize_char_array_with_alnum_spec_witness :
  exists cs g',
    randomize_char_array_with_alnum sample_rand junk_bytes 2 unseeded
    = Some (cs ++ drop 2 junk_bytes, g')
    /\ length cs = 2%nat
    /\ length (cs ++ drop 2 junk_bytes) = length junk_bytes
    /\ Forall (fun c => is_alnum c = true) cs
    /\ seeded g' = true
    /\ srand_calls g' = 1%nat
    /\ rand_calls g' = 2%nat.
Proof.
  apply (randomize_char_array_with_alnum_spec sample_rand junk_bytes 2 unseeded
           sample_rand_nonneg).
  vm_compute. lia.
Defined.

Lemma randomize_byte_array_spec_witness :
  exists p' g',
    randomize_byte_array sample_rand junk_bytes 2 unseeded = Some (p', g')
    /\ length p' = length junk_bytes
    /\ (forall i, (i < 2)%nat ->
          byte_to_Z <$> p' !! i = Some (sample_rand (0 + i)%nat mod 256))
    /\ (forall i, (2 <= i)%nat -> p' !! i = junk_bytes !! i)
    /\ seeded g' = true
    /\ srand_calls g' = 1%nat
    /\ rand_calls g' = 2%nat.
Proof.
  apply (randomize_byte_array_spec sample_rand junk_bytes 2 unseeded).
  vm_compute. lia.
Defined.

Lemma randomize_seeds_once_witness :
  exists key' g1 name' g2,
    randomize_byte_array sample_rand junk_bytes 2 unseeded = Some (key', g1)
    /\ randomize_char_array_with_alnum sample_rand lib_name 3 g1 = Some (name', g2)
    /\ srand_calls g2 = 1%nat
    /\ rand_calls g1 = 2%nat
    /\ rand_calls g2 = 5%nat.
Proof.
  apply (randomize_seeds_once sample_rand junk_bytes lib_name 2 3 unseeded
           sample_rand_nonneg); vm_compute; lia.
Defined.

Lemma wimlib_strdup_spec_witness :
  wimlib_strdup first_fit 1%nat string_heap
  = Done (Some 2%nat) (<[2%nat:=BBytes (lib_name ++ [T_NUL])]> string_heap)
  /\ 2%nat <> 1%nat
  /\ FREE (Some 2%nat) (<[2%nat:=BBytes (lib_name ++ [T_NUL])]> string_heap)
     = Done tt string_heap.
Proof.
  pose proof (wimlib_strdup_spec first_fit first_fit_fresh string_heap 1%nat
                lib_name junk_bytes ltac:(run) ltac:(absent) ltac:(run)) as H.
  replace (first_fit string_heap (Z.of_nat (length lib_name) + 1))
    with (Some 2%nat) in H by run.
  exact H.
Defined.
